(** * MultiCrawl: the fetch scheduling and reliability layer

    A shallow embedding of
      - [src/utils/error_handler.py]   (ErrorHandler.retry),
      - [src/utils/rate_limiter.py]    (AsyncRateLimiter),
      - [src/crawler/base_crawler.py]  (BaseCrawler.__init__, validate_url),
      - [src/crawler/sequential_crawler.py], [async_crawler.py],
        [threaded_crawler.py]          (fetch_url / crawl),
      - [src/main.py]                  (WebCrawlerApp, up to the crawl),
      - [src/data_processing/aggregator.py]  (DataAggregator),
    and the properties of the specification settled against it.

    Conventions.  Python [int] is [Z]; Python [float] is [Q] (exact
    rationals: rounding is not modelled); [str] is [string], read as a
    sequence of code points below 256; a [dict] is a [gmap string _];
    an exception is a value of an error type and a raising function
    returns it instead of a result. *)

From Stdlib Require Import ZArith QArith Qpower Lia Lqa List Bool Ascii String.
From stdpp Require Import base option list strings pretty gmap.

Close Scope Q_scope.
Open Scope Z_scope.
Open Scope nat_scope.
Open Scope string_scope.
Open Scope list_scope.

(** ** Rational helpers (Python float comparisons, on exact rationals) *)

Definition Qltb (x y : Q) : bool :=
  (Qnum x * Zpos (Qden y) <? Qnum y * Zpos (Qden x))%Z.

(** * ErrorHandler.retry  (src/utils/error_handler.py, lines 31-64) *)

Module Retry.

(** [range(n)] for a Python int [n]: empty when [n <= 0]. *)
Definition range (n : Z) : list Z :=
  map Z.of_nat (seq 0 (Z.to_nat n)).

Section Wrapper.
Context {A E : Type}.

(** [exceptions]: the tuple of exception classes the decorator catches,
    as the test [isinstance(e, exceptions)]. *)
Variable exceptions : E -> bool.

(** What one [await func( *args, **kwargs)] does. The wrapped function may
    be stateful, so it is given as the outcome of its n-th invocation
    (counting from 0). *)
Inductive outcome := Returns (a : A) | Raises (e : E).

(** What [wrapper] does: return a value, raise, or fall off the end of
    the [for] loop (Python then returns [None]). *)
Inductive result := Returned (a : A) | Raised (e : E) | ReturnedNone.

(** The observable run of one wrapped call: its result, how many times
    [func] was invoked, and the arguments of the [asyncio.sleep] calls in
    order. *)
Record run := Run { res : result; calls : nat; sleeps : list Q }.

Variable func : nat -> outcome.
Variable max_attempts : Z.
Variable backoff : Q.

(** The body of [for attempt in range(max_attempts)], over the attempts
    that remain; [ncalls] counts the invocations made so far. *)
Fixpoint loop (attempts : list Z) (ncalls : nat) (_delay : Q)
    (slept : list Q) : run :=
  match attempts with
  | [] => Run ReturnedNone ncalls slept
  | attempt :: rest =>
      match func ncalls with
      | Returns a => Run (Returned a) (S ncalls) slept
      | Raises e =>
          if exceptions e then
            if (attempt =? max_attempts - 1)%Z
            then Run (Raised e) (S ncalls) slept
            else loop rest (S ncalls) (_delay * backoff)%Q (slept ++ [_delay])
          else Run (Raised e) (S ncalls) slept
      end
  end.

Definition wrapper (delay : Q) : run :=
  loop (range max_attempts) 0 delay [].

(** The waits of a geometric backoff: [d; d*b; d*b*b; ...], [n] of them,
    built the way the loop builds them ([_delay *= backoff]). *)
Fixpoint waits (d : Q) (n : nat) : list Q :=
  match n with
  | O => []
  | S n' => d :: waits (d * backoff)%Q n'
  end.

(** The delay after [j] multiplications by [backoff]. *)
Fixpoint scaled (d : Q) (j : nat) : Q :=
  match j with
  | O => d
  | S j' => scaled (d * backoff)%Q j'
  end.

(** [func] raises a caught exception at each of its invocations [a..k-1]. *)
Definition fails_between (a k : nat) : Prop :=
  forall i, a <= i < k -> exists e, func i = Raises e /\ exceptions e = true.

Definition always_fails : Prop :=
  forall i, exists e, func i = Raises e /\ exceptions e = true.

End Wrapper.

Arguments outcome : clear implicits.
Arguments result : clear implicits.
Arguments run : clear implicits.

End Retry.

(** * Python exceptions raised or caught by the modelled code *)

Inductive exn :=
| AttributeError (name : string)
| TypeError
| ValueError
| ZeroDivisionError
| ClientError (msg : string)        (* aiohttp.ClientError, asyncio.TimeoutError *)
| RequestException (msg : string)   (* requests.RequestException *)
| OtherError (msg : string).        (* anything else a body may raise *)

(** How a call completes. *)
Inductive completion (A : Type) :=
| Normal (a : A)
| Throw (e : exn).
Arguments Normal {A} a.
Arguments Throw {A} e.

(** * AsyncRateLimiter  (src/utils/rate_limiter.py) *)

Module Limiter.

(** The object's attributes. [_semaphore] is [None] or an
    [asyncio.Semaphore], of which only the counter [_value] is state (its
    waiters are the tasks in phase [WaitingSem] below). *)
Record limiter := Limiter {
  max_rate : Q;
  max_concurrent : option Z;
  _semaphore : option nat;
  _last_call : Q
}.

(** [asyncio.Semaphore(value)]: raises ValueError for a negative value. *)
Definition Semaphore (value : Z) : completion nat :=
  if (value <? 0)%Z then Throw ValueError else Normal (Z.to_nat value).

(** [__init__] (lines 7-17). [if max_concurrent] is false for [None] and
    for [0]. Nothing checks [max_rate]. *)
Definition __init__ (max_rate : Q) (max_concurrent : option Z)
    : completion limiter :=
  match max_concurrent with
  | None => Normal (Limiter max_rate None None 0)
  | Some c =>
      if (c =? 0)%Z then Normal (Limiter max_rate (Some c) None 0)
      else match Semaphore c with
           | Normal v => Normal (Limiter max_rate (Some c) (Some v) 0)
           | Throw e => Throw e
           end
  end.

(** Where a task that entered [async with limiter:] stands. The
    suspension points of [__aenter__] are the two [await]s; the code
    between them runs without interleaving (one thread, cooperative). *)
Inductive phase :=
| WaitingSem              (* suspended in [await self._semaphore.acquire()] *)
| Sleeping (until : Q)    (* suspended in [await asyncio.sleep(..)] *)
| Inside (stamp : Q)      (* [__aenter__] returned; [stamp] was written to [_last_call] *)
| Crashed (e : exn)       (* [__aenter__] raised *)
| Released.               (* [__aexit__] ran *)

(** The event loop: the limiter, the loop clock [loop.time()], the tasks
    (a task's id is its index), and the log of the timestamps written to
    [_last_call] by completed [__aenter__] calls, in order. *)
Record world := World {
  lim : limiter;
  now : Q;
  tasks : list phase;
  admissions : list Q
}.

Inductive event :=
| Tick (d : Q)                      (* the clock advances by [d >= 0] *)
| Enter                             (* a new task calls [__aenter__] *)
| Grant (i : nat)                   (* waiting task [i] obtains the semaphore *)
| Wake (i : nat)                    (* sleeping task [i] resumes, its sleep over *)
| Exit (i : nat) (exc : option exn). (* the body of task [i] ends, normally
                                        or by raising [exc]; [__aexit__] runs *)

Definition set_semaphore (v : option nat) (l : limiter) : limiter :=
  Limiter (max_rate l) (max_concurrent l) v (_last_call l).

Definition set_last_call (t : Q) (l : limiter) : limiter :=
  Limiter (max_rate l) (max_concurrent l) (_semaphore l) t.

(** Lines 27-34 up to the first suspension: either the task goes to
    sleep, or it writes [_last_call] and is admitted at once. [1.0 /
    self.max_rate] raises ZeroDivisionError when [max_rate] is 0. *)
Definition timing_gate (l : limiter) (clock : Q) : phase * limiter :=
  if Qeq_bool (max_rate l) 0 then (Crashed ZeroDivisionError, l)
  else
    let current_time := clock in
    let min_interval := (1 / max_rate l)%Q in
    let time_since_last_call := (current_time - _last_call l)%Q in
    if Qltb time_since_last_call min_interval
    then (Sleeping (clock + (min_interval - time_since_last_call))%Q, l)
    else (Inside clock, set_last_call clock l).

Definition is_inside (p : phase) : bool :=
  match p with Inside _ => true | _ => false end.

Definition is_waiting (p : phase) : bool :=
  match p with WaitingSem => true | _ => false end.

(** The admission log grows when a task reaches [Inside]. *)
Definition log_admission (p : phase) (log : list Q) : list Q :=
  match p with Inside t => log ++ [t] | _ => log end.

(** A task passes the semaphore (if any) and runs up to its next
    suspension; [store] says where the task is kept. *)
Definition pass_gate (w : world) (l : limiter)
    (store : phase -> list phase) : world :=
  let '(p, l') := timing_gate l (now w) in
  World l' (now w) (store p) (log_admission p (admissions w)).

(** One step of the event loop; [None] when the event is not enabled.
    [Semaphore.acquire] returns at once when the counter is positive and
    nobody waits, and suspends otherwise; [Semaphore.release] increments
    the counter. *)
Definition step (w : world) (ev : event) : option world :=
  match ev with
  | Tick d =>
      if Qle_bool 0 d
      then Some (World (lim w) (now w + d)%Q (tasks w) (admissions w))
      else None
  | Enter =>
      match _semaphore (lim w) with
      | None => Some (pass_gate w (lim w) (fun p => tasks w ++ [p]))
      | Some v =>
          if Nat.eqb v 0 || existsb is_waiting (tasks w)
          then Some (World (lim w) (now w) (tasks w ++ [WaitingSem]) (admissions w))
          else Some (pass_gate w (set_semaphore (Some (v - 1)) (lim w))
                       (fun p => tasks w ++ [p]))
      end
  | Grant i =>
      match tasks w !! i, _semaphore (lim w) with
      | Some WaitingSem, Some (S v) =>
          Some (pass_gate w (set_semaphore (Some v) (lim w))
                  (fun p => <[i:=p]> (tasks w)))
      | _, _ => None
      end
  | Wake i =>
      match tasks w !! i with
      | Some (Sleeping until) =>
          if Qle_bool until (now w)
          then Some (World (set_last_call (now w) (lim w)) (now w)
                       (<[i:=Inside (now w)]> (tasks w))
                       (admissions w ++ [now w]))
          else None
      | _ => None
      end
  | Exit i _ =>
      match tasks w !! i with
      | Some (Inside _) =>
          Some (World (set_semaphore (S <$> _semaphore (lim w)) (lim w)) (now w)
                  (<[i:=Released]> (tasks w)) (admissions w))
      | _ => None
      end
  end.

Fixpoint run (w : world) (evs : list event) : option world :=
  match evs with
  | [] => Some w
  | ev :: rest =>
      match step w ev with
      | Some w' => run w' rest
      | None => None
      end
  end.

(** A fresh event loop around a limiter, its clock at [t0]. *)
Definition fresh (l : limiter) (t0 : Q) : world := World l t0 [] [].

Definition count (f : phase -> bool) (ps : list phase) : nat :=
  length (List.filter f ps).
Arguments count : simpl never.

(** Acquisitions without a matching release: tasks whose [__aenter__]
    completed and whose [__aexit__] has not run. *)
Definition in_flight (w : world) : nat := count is_inside (tasks w).

(** With a semaphore, a task holds one of its slots from the moment
    [acquire] returned until [__aexit__] releases it; a task whose
    [__aenter__] raised after [acquire] keeps its slot for good. *)
Definition holds_slot (p : phase) : bool :=
  match p with
  | Sleeping _ | Inside _ | Crashed _ => true
  | WaitingSem | Released => false
  end.

(** Every two consecutive stamps are at least [gap] apart. *)
Fixpoint spaced (gap : Q) (stamps : list Q) : bool :=
  match stamps with
  | a :: ((b :: _) as rest) => Qle_bool gap (b - a)%Q && spaced gap rest
  | _ => true
  end.

Definition is_sleeping (p : phase) : bool :=
  match p with Sleeping _ => true | _ => false end.

(** No task is suspended between reading and writing [_last_call]. *)
Definition quiet (w : world) : bool :=
  Nat.eqb (count is_sleeping (tasks w)) 0.

(** A schedule in which a task goes through the timing gate only when no
    other task is suspended in it: the calls of [__aenter__] do not overlap. *)
Fixpoint serial (w : world) (evs : list event) : bool :=
  match evs with
  | [] => true
  | ev :: rest =>
      match ev with Enter | Grant _ => quiet w | _ => true end
      && match step w ev with
         | Some w' => serial w' rest
         | None => true
         end
  end.

(** What holds of the limiter along a serial schedule: at most one task
    sleeps, it sleeps until the minimum interval after [_last_call] is
    over, the log is spaced and ends with [_last_call]. *)
Definition serial_inv (r : Q) (w : world) : Prop :=
  max_rate (lim w) = r
  /\ count is_sleeping (tasks w) <= 1
  /\ (forall i u, tasks w !! i = Some (Sleeping u) ->
        (_last_call (lim w) + 1 / r <= u)%Q)
  /\ spaced (1 / r) (admissions w) = true
  /\ (forall a, last (admissions w) = Some a -> a = _last_call (lim w)).

(** What holds of the limiter on every schedule, once the clock starts at
    or after 0: the clock never runs behind [_last_call]; the log is in
    time order and ends with [_last_call]; no sleeper is due later than
    [1 / max_rate] after [_last_call]. *)
Definition clock_inv (r : Q) (w : world) : Prop :=
  max_rate (lim w) = r
  /\ (_last_call (lim w) <= now w)%Q
  /\ spaced 0 (admissions w) = true
  /\ Forall (fun a => (a <= now w)%Q) (admissions w)
  /\ _last_call (lim w) = default 0%Q (last (admissions w))
  /\ (forall i u, tasks w !! i = Some (Sleeping u) ->
        (u <= _last_call (lim w) + 1 / r)%Q).

(** With a rate of zero nothing is ever admitted. *)
Definition zero_rate_inv (w : world) : Prop :=
  Qeq_bool (max_rate (lim w)) 0 = true
  /\ admissions w = []
  /\ Forall (fun p => p = WaitingSem \/ p = Crashed ZeroDivisionError) (tasks w).

(** With a negative rate and no semaphore nobody ever waits. *)
Definition never_waits (r : Q) (w : world) : Prop :=
  max_rate (lim w) = r
  /\ _semaphore (lim w) = None
  /\ (_last_call (lim w) <= now w)%Q
  /\ Forall (fun p => is_inside p = true \/ p = Released) (tasks w).

(** [n] tasks entering one after the other, [1 / r] apart. *)
Definition burst (r : Q) (n : nat) : list event :=
  concat (repeat [Tick (1 / r); Enter] n).

(** The slots in use and the free slots add up to the capacity. *)
Definition slots_add_up (c : nat) (w : world) : Prop :=
  exists v, _semaphore (lim w) = Some v
            /\ v + count holds_slot (tasks w) = c.

(** Without a semaphore nobody ever waits for one, and the rate stays. *)
Definition gate_only (r : Q) (w : world) : Prop :=
  _semaphore (lim w) = None
  /\ max_rate (lim w) = r
  /\ Forall (fun p => is_waiting p = false) (tasks w).

End Limiter.

(** * BaseCrawler.validate_url  (src/crawler/base_crawler.py, lines 49-65)

    The pattern is kept as data and matched by derivatives. It has no
    back-references or look-around, so Python's backtracking search finds a
    match exactly when the string is in the pattern's language. *)

Module Url.

Inductive re :=
| Void                          (* matches nothing *)
| Eps                           (* the empty string *)
| Cls (p : ascii -> bool)       (* one character of a class *)
| Cat (r s : re)
| Alt (r s : re)
| Star (r : re)
| Rep (lo hi : nat) (r : re).   (* [r{lo,hi}] *)

Fixpoint nullable (r : re) : bool :=
  match r with
  | Void => false
  | Eps => true
  | Cls _ => false
  | Cat r s => nullable r && nullable s
  | Alt r s => nullable r || nullable s
  | Star _ => true
  | Rep lo _ r => Nat.eqb lo 0 || nullable r
  end.

Definition cat (r s : re) : re :=
  match r, s with
  | Void, _ | _, Void => Void
  | Eps, _ => s
  | _, Eps => r
  | _, _ => Cat r s
  end.

Definition alt (r s : re) : re :=
  match r, s with
  | Void, _ => s
  | _, Void => r
  | _, _ => Alt r s
  end.

Fixpoint deriv (c : ascii) (r : re) : re :=
  match r with
  | Void | Eps => Void
  | Cls p => if p c then Eps else Void
  | Cat r s =>
      if nullable r then alt (cat (deriv c r) s) (deriv c s)
      else cat (deriv c r) s
  | Alt r s => alt (deriv c r) (deriv c s)
  | Star r => cat (deriv c r) (Star r)
  | Rep lo hi r =>
      match hi with
      | O => Void
      | S hi' => cat (deriv c r) (Rep (Nat.pred lo) hi' r)
      end
  end.

Fixpoint matches (r : re) (s : string) : bool :=
  match s with
  | EmptyString => nullable r
  | String c s' => matches (deriv c r) s'
  end.

(** Character classes, under [re.IGNORECASE], on code points below 256. *)
Definition code (c : ascii) : nat := nat_of_ascii c.

Definition between (lo hi : nat) (c : ascii) : bool :=
  Nat.leb lo (code c) && Nat.leb (code c) hi.

Definition digit : ascii -> bool := between 48 57.                (* \d *)
Definition alpha (c : ascii) : bool :=                            (* [A-Z] *)
  between 65 90 c || between 97 122 c.
Definition alnum (c : ascii) : bool := alpha c || digit c.        (* [A-Z0-9] *)
Definition alnum_dash (c : ascii) : bool :=                       (* [A-Z0-9-] *)
  alnum c || Nat.eqb (code c) 45.
Definition space (c : ascii) : bool :=                            (* \s *)
  between 9 13 c || between 28 32 c
  || Nat.eqb (code c) 133 || Nat.eqb (code c) 160.
Definition non_space (c : ascii) : bool := negb (space c).        (* \S *)

(** A literal character, case-insensitively. *)
Definition lower (n : nat) : nat :=
  if Nat.leb 65 n && Nat.leb n 90 then n + 32 else n.
Definition chr (a : ascii) : re :=
  Cls (fun c => Nat.eqb (lower (code c)) (lower (code a))).

Fixpoint lit (s : string) : re :=
  match s with
  | EmptyString => Eps
  | String a s' => Cat (chr a) (lit s')
  end.

Definition opt (r : re) : re := Alt r Eps.       (* [r?] *)
Definition plus (r : re) : re := Cat r (Star r). (* [r+] *)

(** The pattern of [url_pattern], piece by piece as in the source. *)
Definition scheme : re :=                      (* ^https?:// *)
  Cat (lit "http") (Cat (opt (chr "s")) (lit "://")).
Definition domain : re :=
  (* (?:[A-Z0-9](?:[A-Z0-9-]{0,61}[A-Z0-9])?\.)+[A-Z]{2,6}\.? *)
  Cat (plus (Cat (Cls alnum)
              (Cat (opt (Cat (Rep 0 61 (Cls alnum_dash)) (Cls alnum)))
                   (chr "."))))
      (Cat (Rep 2 6 (Cls alpha)) (opt (chr "."))).
Definition localhost : re := lit "localhost".
Definition ip : re :=                          (* \d{1,3}\.\d{1,3}\.\d{1,3}\.\d{1,3} *)
  let octet := Rep 1 3 (Cls digit) in
  Cat octet (Cat (chr ".") (Cat octet (Cat (chr ".")
    (Cat octet (Cat (chr ".") octet))))).
Definition port : re :=                        (* (?::\d+)? *)
  opt (Cat (chr ":") (plus (Cls digit))).
Definition path : re :=                        (* (?:/?|[/?]\S+) *)
  Alt (opt (chr "/"))
      (Cat (Alt (chr "/") (chr "?")) (plus (Cls non_space))).

Definition url_pattern : re :=
  Cat scheme (Cat (Alt domain (Alt localhost ip)) (Cat port path)).

(** The string without a final newline, when it has one. *)
Fixpoint chop_newline (s : string) : option string :=
  match s with
  | EmptyString => None
  | String c EmptyString => if Nat.eqb (code c) 10 then Some EmptyString else None
  | String c s' => String c <$> chop_newline s'
  end.

(** [bool(url_pattern.match(url))]: the pattern is anchored at both ends,
    and [$] also matches just before a newline that ends the string. *)
Definition validate_url (url : string) : bool :=
  matches url_pattern url
  || match chop_newline url with
     | Some s => matches url_pattern s
     | None => false
     end.

(** Two characters that differ at most by the case of an ASCII letter. *)
Definition same_letter (c1 c2 : ascii) : bool :=
  Nat.eqb (lower (code c1)) (lower (code c2)).

(** Two strings that differ at most by the case of their ASCII letters. *)
Fixpoint same_text (s1 s2 : string) : bool :=
  match s1, s2 with
  | EmptyString, EmptyString => true
  | String c1 t1, String c2 t2 => same_letter c1 c2 && same_text t1 t2
  | _, _ => false
  end.

(** [s] starts with [p], letter case aside. *)
Fixpoint starts_with (p s : string) : bool :=
  match p, s with
  | EmptyString, _ => true
  | String a p', String c s' => same_letter a c && starts_with p' s'
  | String _ _, EmptyString => false
  end.

Definition has_scheme (s : string) : bool :=
  starts_with "http://" s || starts_with "https://" s.

(** No character of [s] is whitespace. *)
Fixpoint no_space (s : string) : bool :=
  match s with
  | EmptyString => true
  | String c s' => non_space c && no_space s'
  end.

Definition newline : string := String (ascii_of_nat 10) EmptyString.

(** Every character class that occurs in [r] satisfies [P]. *)
Fixpoint classes (P : (ascii -> bool) -> Prop) (r : re) : Prop :=
  match r with
  | Void | Eps => True
  | Cls p => P p
  | Cat r s | Alt r s => classes P r /\ classes P s
  | Star r | Rep _ _ r => classes P r
  end.

End Url.

(** * The crawlers  (src/crawler/*.py) *)

Module Crawl.

(** Python values held in attributes and result dictionaries. *)
#[warnings="-register-all"]
Inductive pyval :=
| PNone
| PInt (z : Z)
| PStr (s : string)
| PList (l : list pyval)
| PLogger (name : string)                 (* logging.getLogger(name) *)
| PLimiter (l : Limiter.limiter)          (* an AsyncRateLimiter *)
| PCallable.                              (* a function or bound method *)

Abbreviation dict := (gmap string pyval).

Inductive class := SequentialCrawler | ThreadedCrawler | AsyncCrawler.

Definition class_name (c : class) : string :=
  match c with
  | SequentialCrawler => "SequentialCrawler"
  | ThreadedCrawler => "ThreadedCrawler"
  | AsyncCrawler => "AsyncCrawler"
  end.

(** An instance: its class and its [__dict__]. *)
Record object := Object { cls : class; attrs : dict }.

(** The names a class (with its base BaseCrawler) defines. *)
Definition methods (c : class) : list string :=
  ["__init__"; "fetch_url"; "crawl"; "validate_url"; "rate_limit"]
  ++ match c with
     | ThreadedCrawler => ["_fetch_url_thread"]
     | _ => []
     end.

(** [self.name]: the instance dictionary first, then the class. *)
Definition getattr (self : object) (name : string) : completion pyval :=
  match attrs self !! name with
  | Some v => Normal v
  | None =>
      if bool_decide (name ∈ methods (cls self)) then Normal PCallable
      else Throw (AttributeError name)
  end.

(** [obj.name = v], from outside or inside the class. *)
Definition setattr (self : object) (name : string) (v : pyval) : object :=
  Object (cls self) (<[name := v]> (attrs self)).

(** BaseCrawler.__init__ (lines 11-26): sets [urls], [max_workers] and
    [logger], nothing else. *)
Definition BaseCrawler_init (c : class) (urls : list string)
    (max_workers : Z) : object :=
  setattr (setattr (setattr (Object c ∅)
    "urls" (PList (PStr <$> urls)))
    "max_workers" (PInt max_workers))
    "logger" (PLogger (class_name c)).

(** AsyncCrawler.__init__ (lines 10-18): the base constructor, then
    [self.rate_limiter = AsyncRateLimiter(max_rate=10)]. *)
Definition AsyncCrawler_init (urls : list string) (max_workers : Z)
    : completion object :=
  match Limiter.__init__ (10 # 1) None with
  | Normal l =>
      Normal (setattr (BaseCrawler_init AsyncCrawler urls max_workers)
                "rate_limiter" (PLimiter l))
  | Throw e => Throw e
  end.

(** [crawler_class(urls, max_workers)]: SequentialCrawler and
    ThreadedCrawler inherit the base constructor. *)
Definition new (c : class) (urls : list string) (max_workers : Z)
    : completion object :=
  match c with
  | AsyncCrawler => AsyncCrawler_init urls max_workers
  | _ => Normal (BaseCrawler_init c urls max_workers)
  end.

(** What a crawler does to the outside world, in order. *)
Inductive io :=
| Acquire (url : string)        (* the rate limiter's [__aenter__] returned,
                                 for the task fetching [url] *)
| Release (url : string)      (* the rate limiter's [__aexit__] ran *)
| Request (url : string) (timeout : pyval)  (* [session.get] / [requests.get] *)
| Sleep (d : Q)               (* [time.sleep] *)
| Log (level msg : string)    (* [self.logger.warning] / [.error] *)
| LogError (url : string).    (* [self._log_error(url, e)] *)

(** A computation: the events it performed, and how it completed. *)
Definition M (A : Type) : Type := list io * completion A.

Definition ret {A} (a : A) : M A := ([], Normal a).
Definition throw {A} (e : exn) : M A := ([], Throw e).
Definition emit (ev : io) : M unit := ([ev], Normal tt).
Definition lift {A} (c : completion A) : M A := ([], c).

Definition bind {A B} (m : M A) (f : A -> M B) : M B :=
  match m.2 with
  | Normal a => (m.1 ++ (f a).1, (f a).2)
  | Throw e => (m.1, Throw e)
  end.

(** [try: body finally: cleanup], as the exit of a [with] block. *)
Definition finally {A} (body : M A) (cleanup : list io) : M A :=
  (body.1 ++ cleanup, body.2).

Notation "'let*' x ':=' m 'in' k" := (bind m (fun x => k))
  (at level 10, x name, m at level 100, k at level 200).

(** As many tasks at once ([asyncio.gather], [executor.map]): the
    results come in input order, and the first exception in that order is
    the one re-raised. The events of the tasks are listed task by task, each
    task run to its end: their interleaving is not modelled, and when a
    task raises, the trace also lists what the other tasks would do if
    they were left to finish, which [asyncio.gather] does not wait for. *)
Fixpoint gather {A} (ms : list (M A)) : M (list A) :=
  match ms with
  | [] => ret []
  | m :: rest =>
      let '(t, r) := gather rest in
      match m.2, r with
      | Normal a, Normal l => (m.1 ++ t, Normal (a :: l))
      | Normal _, Throw e => (m.1 ++ t, Throw e)
      | Throw e, _ => (m.1 ++ t, Throw e)
      end
  end.

(** One after the other (a [for] loop): stops at the first exception. *)
Fixpoint for_each {A B} (f : A -> M B) (l : list A) : M (list B) :=
  match l with
  | [] => ret []
  | a :: rest => let* b := f a in let* bs := for_each f rest in ret (b :: bs)
  end.

(** [self.urls] as a list of strings. *)
Fixpoint as_strings (l : list pyval) : completion (list string) :=
  match l with
  | [] => Normal []
  | PStr s :: rest =>
      match as_strings rest with
      | Normal ss => Normal (s :: ss)
      | Throw e => Throw e
      end
  | _ :: _ => Throw TypeError
  end.

Definition get_urls (self : object) : M (list string) :=
  let* v := lift (getattr self "urls") in
  match v with
  | PList l => lift (as_strings l)
  | _ => throw TypeError
  end.

(** Calling an attribute: it has to be callable. *)
Definition call_log_error (self : object) (url : string) : M unit :=
  let* f := lift (getattr self "_log_error") in
  match f with
  | PCallable => emit (LogError url)
  | _ => throw TypeError
  end.

(** [attempt == self.max_retries - 1] *)
Definition is_last_attempt (self : object) (attempt : Z) : M bool :=
  let* m := lift (getattr self "max_retries") in
  match m with
  | PInt n => ret (attempt =? n - 1)%Z
  | _ => throw TypeError
  end.

(** [range(self.max_retries)] *)
Definition retry_range (self : object) : M (list Z) :=
  let* n := lift (getattr self "max_retries") in
  match n with
  | PInt n => ret (Retry.range n)
  | _ => throw TypeError
  end.

(** The HTTP client's answer to one request: a response, or the failure
    (timeout, connection error, bad URL) that [requests] raises as a
    RequestException and [aiohttp] as a ClientError or TimeoutError. *)
Inductive reply :=
| Response (status_code : Z) (text : string)
| Failure (msg : string).

(** [response.raise_for_status()] raises, in [requests] for a status in
    400..599, in [aiohttp] for a status of 400 or more. *)
Definition requests_bad_status (s : Z) : bool := (400 <=? s)%Z && (s <? 600)%Z.
Definition aiohttp_bad_status (s : Z) : bool := (400 <=? s)%Z.

Definition has (d : dict) (k : string) : bool :=
  match d !! k with Some _ => true | None => false end.

(** A Success outcome carries its target and no error. *)
Definition is_success (d : dict) : bool := has d "url" && negb (has d "error").

(** The targets of the Success outcomes of an output list. *)
Definition success_targets (out : list dict) : list pyval :=
  omap (fun d => if is_success d then d !! "url" else None) out.

(** The shapes of the Sequential strategy's outcomes. *)
Definition success_shape (d : dict) : bool :=
  has d "url" && has d "status_code" && has d "job_count" && has d "titles"
  && negb (has d "error").
Definition failure_shape (d : dict) : bool :=
  has d "url" && has d "error" && negb (has d "status_code").
Definition fully_populated (d : dict) : bool :=
  success_shape d || failure_shape d.

(** Truth value of a string: false when empty. *)
Definition truthy (s : string) : bool :=
  match s with EmptyString => false | _ => true end.

Section Backend.

(** The network: the reply to the [k]-th request (from 0) that one fetch
    makes for a URL. *)
Variable backend : string -> nat -> reply.

(** BeautifulSoup: for each [div] of class [job-posting] in a page, in
    order, the text of its first [h2], if it has one. *)
Variable job_postings : string -> list (option string).

(** ** SequentialCrawler (sequential_crawler.py) *)

(** [[job.find('h2').text for job in job_postings]]: [find] returns
    [None] when there is no [h2], and [None.text] raises. *)
Fixpoint titles_of (jobs : list (option string)) : completion (list pyval) :=
  match jobs with
  | [] => Normal []
  | Some t :: rest =>
      match titles_of rest with
      | Normal ts => Normal (PStr t :: ts)
      | Throw e => Throw e
      end
  | None :: _ => Throw (AttributeError "text")
  end.

(** The [except requests.RequestException as e] branch. *)
Definition seq_on_error (self : object) (url msg : string) : M dict :=
  let* _ := lift (getattr self "logger") in
  let* _ := emit (Log "error" ("Error fetching " ++ url ++ ": " ++ msg)) in
  ret (<["url" := PStr url]> (<["error" := PStr msg]> ∅)).

(** [requests.get(url, timeout=t)] looks at the timeout before anything
    is sent: one that is neither [None] nor a positive number is refused
    with ValueError, which is not a RequestException. (A number too large
    for the timer of the socket is not modelled.) *)
Definition requests_timeout (t : pyval) : completion unit :=
  match t with
  | PNone => Normal tt
  | PInt z => if (0 <? z)%Z then Normal tt else Throw ValueError
  | _ => Throw ValueError
  end.

(** SequentialCrawler.fetch_url (lines 12-46). The timeout of the request
    is [self.max_workers]; a refused timeout raises outside the [except]
    clause, and no request is made. *)
Definition seq_fetch_url (self : object) (url : string) : M dict :=
  if negb (Url.validate_url url) then
    let* _ := lift (getattr self "logger") in
    let* _ := emit (Log "warning" ("Invalid URL: " ++ url)) in
    ret ∅
  else
    let* _ := emit (Sleep 1) in
    let* timeout := lift (getattr self "max_workers") in
    let* _ := lift (requests_timeout timeout) in
    let* _ := emit (Request url timeout) in
    match backend url 0 with
    | Failure msg => seq_on_error self url msg
    | Response status_code text =>
        if requests_bad_status status_code
        then seq_on_error self url "HTTPError"
        else
          let jobs := job_postings text in
          let* titles := lift (titles_of jobs) in
          ret (<["url" := PStr url]>
               (<["status_code" := PInt status_code]>
               (<["job_count" := PInt (Z.of_nat (length jobs))]>
               (<["titles" := PList titles]> ∅))))
    end.

(** SequentialCrawler.crawl (lines 48-59). *)
Definition seq_crawl (self : object) : M (list dict) :=
  let* urls := get_urls self in
  for_each (seq_fetch_url self) urls.

(** ** The retry loops of AsyncCrawler.fetch_url (lines 29-37) and
    ThreadedCrawler._fetch_url_thread (lines 16-27). They differ in the
    client ([bad_status]) and in what is returned ([wrap]). Both hand
    [self.timeout] to the client as it is: [backend url k] is the reply
    to a request that the client has agreed to send. *)
Section Attempts.
Context {A : Type}.
Variable bad_status : Z -> bool.
Variable wrap : string -> A.
Variable self : object.
Variable url : string.

Fixpoint attempts (todo : list Z) (k : nat) : M (option A) :=
  match todo with
  | [] => ret None
  | attempt :: rest =>
      let on_error :=
        let* _ := call_log_error self url in
        let* last := is_last_attempt self attempt in
        if (last : bool) then ret None else attempts rest (S k) in
      let* timeout := lift (getattr self "timeout") in
      let* _ := emit (Request url timeout) in
      match backend url k with
      | Failure _ => on_error
      | Response status_code text =>
          if bad_status status_code then on_error
          else ret (Some (wrap text))
      end
  end.
End Attempts.

(** ** AsyncCrawler (async_crawler.py) *)

(** AsyncCrawler.fetch_url (lines 20-38). [Acquire] stands for an
    [__aenter__] of the limiter that has completed, its time in the gate
    included, and [Release] for its [__aexit__]; how the limiter schedules
    the tasks is the matter of [Limiter] above, not of this trace. With a
    rate of zero [__aenter__] raises ZeroDivisionError and the block is
    never entered (a slot of the semaphore taken before that is not given
    back: the trace does not show it). *)
Definition async_fetch_url (self : object) (url : string) : M (option string) :=
  let* rl := lift (getattr self "rate_limiter") in
  match rl with
  | PLimiter l =>
      if Qeq_bool (Limiter.max_rate l) 0 then throw ZeroDivisionError
      else
        let* _ := emit (Acquire url) in
        finally
          (let* todo := retry_range self in
           attempts aiohttp_bad_status (fun text => text) self url todo 0)
          [Release url]
  | _ => throw TypeError
  end.

(** [fetch_with_metadata] (lines 46-51): [if content] drops [None] and
    the empty string. *)
Definition fetch_with_metadata (self : object) (url : string)
    : M (option dict) :=
  let* content := async_fetch_url self url in
  ret (match content with
       | Some text =>
           if truthy text
           then Some (<["url" := PStr url]> (<["content" := PStr text]> ∅))
           else None
       | None => None
       end).

(** AsyncCrawler.crawl (lines 40-58). *)
Definition async_crawl (self : object) : M (list dict) :=
  let* urls := get_urls self in
  let* results := gather (fetch_with_metadata self <$> urls) in
  ret (omap id results).

(** ** ThreadedCrawler (threaded_crawler.py) *)

(** ThreadedCrawler._fetch_url_thread (lines 9-28). *)
Definition _fetch_url_thread (self : object) (url : string) : M (option dict) :=
  let* todo := retry_range self in
  attempts requests_bad_status
    (fun text => <["url" := PStr url]> (<["content" := PStr text]> ∅))
    self url todo 0.

(** ThreadedCrawler.crawl (lines 30-40). *)
Definition threaded_crawl (self : object) : M (list dict) :=
  let* urls := get_urls self in
  let* results := gather (_fetch_url_thread self <$> urls) in
  ret (omap id results).


(** [crawler = crawler_class(urls)] followed by [await crawler.crawl()],
    as WebCrawlerApp.run (main.py, lines 51-56) and
    CrawlerBenchmark.benchmark_crawler (benchmark.py, lines 35-36) do.
    [SequentialCrawler.crawl] is a plain function: it runs and returns a
    list, and [await] on a list raises TypeError. *)
Definition await_crawl (c : class) (urls : list string) : M (list dict) :=
  let* crawler := lift (new c urls 5) in
  match c with
  | SequentialCrawler =>
      let* _ := seq_crawl crawler in
      throw TypeError
  | ThreadedCrawler => threaded_crawl crawler
  | AsyncCrawler => async_crawl crawler
  end.

End Backend.

(** Observations on a trace. *)
Definition is_request (url : string) (ev : io) : bool :=
  match ev with Request u _ => String.eqb u url | _ => false end.
Definition is_acquire (url : string) (ev : io) : bool :=
  match ev with Acquire u => String.eqb u url | _ => false end.
Definition is_any_request (ev : io) : bool :=
  match ev with Request _ _ => true | _ => false end.

Definition requests_for (url : string) (t : list io) : nat :=
  length (List.filter (is_request url) t).
Definition admissions_for (url : string) (t : list io) : nat :=
  length (List.filter (is_acquire url) t).
Definition requests_made (t : list io) : nat :=
  length (List.filter is_any_request t).


(** The URLs requested, and the durations slept, in order. *)
Definition requested (t : list io) : list string :=
  omap (fun ev => match ev with Request u _ => Some u | _ => None end) t.
Definition slept (t : list io) : list Q :=
  omap (fun ev => match ev with Sleep d => Some d | _ => None end) t.

(** The sleeps and the requests of a trace, in the order they happened. *)
Definition is_pacing (ev : io) : bool :=
  match ev with Sleep _ | Request _ _ => true | _ => false end.
Definition pacing (t : list io) : list io := List.filter is_pacing t.

(** A number of seconds that [requests] takes as a timeout whatever the
    platform: positive, and within the range of the socket's timer (at
    most [INT_MAX] milliseconds). *)
Definition usable_timeout (z : Z) : Prop := (0 < z <= 2147483)%Z.

(** The targets of the outcomes of an output list. *)
Definition targets_of (out : list dict) : list string :=
  omap (fun d => match d !! "url" with
                 | Some (PStr u) => Some u
                 | _ => None
                 end) out.


(** The outcome dictionary of the threaded and asynchronous strategies. *)
Definition page (url text : string) : dict :=
  <["url" := PStr url]> (<["content" := PStr text]> ∅).

End Crawl.

(** * WebCrawlerApp  (src/main.py) *)

Module App.

(** [self.crawler_map] (lines 38-42). *)
Definition crawler_map : gmap string Crawl.class :=
  <["sequential" := Crawl.SequentialCrawler]>
  (<["threaded" := Crawl.ThreadedCrawler]>
  (<["async" := Crawl.AsyncCrawler]> ∅)).

(** [self.crawler_map.get(self.mode, AsyncCrawler)] (line 51). *)
Definition crawler_class (mode : string) : Crawl.class :=
  default Crawl.AsyncCrawler (crawler_map !! mode).

(** WebCrawlerApp.run up to the crawl (lines 50-56); the [logger.info]
    line between the two statements is left out. *)
Definition crawl_stage (backend : string -> nat -> Crawl.reply)
    (job_postings : string -> list (option string))
    (mode : string) (urls : list string) : Crawl.M (list Crawl.dict) :=
  Crawl.await_crawl backend job_postings (crawler_class mode) urls.

End App.


(** * DataAggregator  (src/data_processing/aggregator.py)

    The values that reach the aggregator are the parsed entries: dicts
    with string keys whose values are [None], integers, strings, lists
    and dicts (booleans and floats are left out of the model).  The
    hashable ones are the [atom]s; a nested dict is the list of its
    items in insertion order, with distinct keys. *)

Module Aggregate.

Inductive atom :=
| ANone
| AInt (z : Z)
| AStr (s : string).

#[warnings="-register-all"]
Inductive value :=
| Atom (a : atom)
| VList (items : list value)
| VDict (items : list (string * value)).

#[global] Instance atom_eq_dec : EqDecision atom.
Proof. solve_decision. Defined.

#[global] Instance atom_countable : Countable atom.
Proof.
  refine (inj_countable'
    (fun a => match a with
              | ANone => inl tt
              | AInt z => inr (inl z)
              | AStr s => inr (inr s)
              end)
    (fun x => match x with
              | inl _ => ANone
              | inr (inl z) => AInt z
              | inr (inr s) => AStr s
              end) _).
  intros a. destruct a; reflexivity.
Defined.

(** One parsed entry, and [entry.get(key, default)]. *)
Definition entry := gmap string value.

Definition get (e : entry) (key : string) (d : value) : value :=
  default d (e !! key).

(** Sequencing of calls that may raise. *)
Definition and_then {A B : Type} (m : completion A) (k : A -> completion B)
    : completion B :=
  match m with
  | Normal a => k a
  | Throw e => Throw e
  end.

Notation "'let?' x := m 'in' k" := (and_then m (fun x => k))
  (at level 10, x name, m at level 200, k at level 200, only parsing).

(** A comprehension or loop whose body may raise: left to right, the
    first exception ends it. *)
Fixpoint traverse {A B : Type} (f : A -> completion B) (l : list A)
    : completion (list B) :=
  match l with
  | [] => Normal []
  | x :: rest =>
      let? y := f x in
      let? ys := traverse f rest in
      Normal (y :: ys)
  end.

(** [hash(v)], as a dict key or set element needs it: lists and dicts
    are unhashable. *)
Definition hash (v : value) : completion atom :=
  match v with
  | Atom a => Normal a
  | _ => Throw TypeError
  end.

(** [str(a)], as the f-string formats it. *)
Definition str (a : atom) : string :=
  match a with
  | ANone => "None"
  | AInt z => pretty z
  | AStr s => s
  end.

(** [for x in v]: a list gives its items, a dict its keys, a string
    its characters; [None] and integers are not iterable. *)
Fixpoint characters (s : string) : list string :=
  match s with
  | EmptyString => []
  | String c rest => String c EmptyString :: characters rest
  end.

Definition iterate (v : value) : completion (list value) :=
  match v with
  | VList items => Normal items
  | VDict items => Normal ((fun kv => Atom (AStr kv.1)) <$> items)
  | Atom (AStr s) => Normal ((fun c => Atom (AStr c)) <$> characters s)
  | Atom _ => Throw TypeError
  end.

(** [v.keys()]: only a dict has the method. *)
Definition keys (v : value) : completion (list string) :=
  match v with
  | VDict items => Normal (items.*1)
  | _ => Throw (AttributeError "keys")
  end.

(** [len(data) if isinstance(data, (list, dict)) else 1] (line 97). *)
Definition len_or_one (v : value) : nat :=
  match v with
  | VList items => length items
  | VDict items => length items
  | Atom _ => 1
  end.

(** A Python dict keyed by hashable values, in insertion order. *)
Definition odict (V : Type) := list (atom * V).

Fixpoint getitem {V : Type} (k : atom) (d : odict V) : option V :=
  match d with
  | [] => None
  | (k', v) :: rest => if decide (k = k') then Some v else getitem k rest
  end.

Definition contains {V : Type} (k : atom) (d : odict V) : bool :=
  match getitem k d with
  | Some _ => true
  | None => false
  end.

(** [d[k] = v]: an existing key keeps its place, a new one goes last. *)
Fixpoint setitem {V : Type} (k : atom) (v : V) (d : odict V) : odict V :=
  match d with
  | [] => [(k, v)]
  | (k', v') :: rest =>
      if decide (k = k') then (k', v) :: rest
      else (k', v') :: setitem k v rest
  end.

(** [collections.Counter(xs)]: [self[x] = self.get(x, 0) + 1] for each
    element in turn. *)
Fixpoint count_elements (counts : odict nat) (xs : list value)
    : completion (odict nat) :=
  match xs with
  | [] => Normal counts
  | x :: rest =>
      let? k := hash x in
      count_elements (setitem k (default 0 (getitem k counts) + 1) counts) rest
  end.

Definition Counter (xs : list value) : completion (odict nat) :=
  count_elements [] xs.

(** [Counter.most_common(1)] is [heapq.nlargest(1, items, key=count)],
    which is [max(items, key=count)]: the first item of greatest count. *)
Fixpoint py_max (best : atom * nat) (items : list (atom * nat))
    : atom * nat :=
  match items with
  | [] => best
  | x :: rest => py_max (if Nat.ltb best.2 x.2 then x else best) rest
  end.

Definition most_common_1 (counts : odict nat) : list (atom * nat) :=
  match counts with
  | [] => []
  | x :: rest => [py_max x rest]
  end.

(** [set(xs)]. *)
Definition set (xs : list value) : completion (gset atom) :=
  let? ks := traverse hash xs in
  Normal (list_to_set ks).

(** The dicts the aggregator returns, one constructor per shape; the
    arguments are the values of the keys in the order of the source.
    [data_keys] is [list(set(...))], a list in hash order: it is kept
    as the set. *)
Inductive summary :=
| Html (total_sources : nat) (title_frequency : odict nat)
       (most_common_title : option (atom * nat)) (unique_title_count : nat)
| Json (total_sources : nat) (data_keys : gset string) (total_entries : nat)
| Other (total_entries : nat) (error : string)
| Cross (total_entries : nat) (source_type_distribution : odict nat)
        (unique_sources : nat).

(** [entry.get('type', 'unknown')]. *)
Definition type_of (e : entry) : value :=
  get e "type" (Atom (AStr "unknown")).

(** _categorize_data (lines 33-46). *)
Fixpoint categorize_loop (categorized : odict (list entry))
    (parsed_data : list entry) : completion (odict (list entry)) :=
  match parsed_data with
  | [] => Normal categorized
  | e :: rest =>
      let? data_type := hash (type_of e) in
      let categorized :=
        if contains data_type categorized then categorized
        else setitem data_type [] categorized in
      let categorized :=
        setitem data_type
          (default [] (getitem data_type categorized) ++ [e]) categorized in
      categorize_loop categorized rest
  end.

Definition _categorize_data (parsed_data : list entry)
    : completion (odict (list entry)) :=
  categorize_loop [] parsed_data.

(** _aggregate_html (lines 66-82). *)
Definition _aggregate_html (data_list : list entry) : completion summary :=
  let? per_entry :=
    traverse (fun e => iterate (get e "titles" (VList []))) data_list in
  let all_titles := concat per_entry in
  let? title_counts := Counter all_titles in
  let total_sources := length data_list in
  let title_frequency := title_counts in
  let most_common_title :=
    if bool_decide (title_counts <> []) then head (most_common_1 title_counts)
    else None in
  let? distinct := set all_titles in
  Normal (Html total_sources title_frequency most_common_title
            (size distinct)).

(** _aggregate_json (lines 84-98). *)
Definition _aggregate_json (data_list : list entry) : completion summary :=
  let raw_data := (fun e => get e "raw_data" (VDict [])) <$> data_list in
  let total_sources := length data_list in
  let? ks := traverse keys raw_data in
  let data_keys : gset string := list_to_set (concat ks) in
  let total_entries := sum_list (len_or_one <$> raw_data) in
  Normal (Json total_sources data_keys total_entries).

(** _aggregate_by_type (lines 48-64). *)
Definition _aggregate_by_type (data_type : atom) (data_list : list entry)
    : completion summary :=
  if decide (data_type = AStr "html") then _aggregate_html data_list
  else if decide (data_type = AStr "json") then _aggregate_json data_list
  else Normal (Other (length data_list)
                 ("No specific aggregation for type: " +:+ str data_type)).

(** _cross_source_aggregation (lines 100-114). *)
Definition _cross_source_aggregation (parsed_data : list entry)
    : completion summary :=
  let source_types := type_of <$> parsed_data in
  let? source_type_counts := Counter source_types in
  let total_entries := length parsed_data in
  let? sources :=
    set ((fun e => get e "source_url" (Atom (AStr EmptyString)))
           <$> parsed_data) in
  Normal (Cross total_entries source_type_counts (size sources)).

(** aggregate (lines 12-31): the loop over [categorized_data.items()],
    then the whole function. *)
Fixpoint aggregate_loop (aggregations : odict summary)
    (items : list (atom * list entry)) : completion (odict summary) :=
  match items with
  | [] => Normal aggregations
  | (data_type, data_list) :: rest =>
      let? s := _aggregate_by_type data_type data_list in
      aggregate_loop (setitem data_type s aggregations) rest
  end.

Definition aggregate (parsed_data : list entry) : completion (odict summary) :=
  let? categorized_data := _categorize_data parsed_data in
  let? aggregations := aggregate_loop [] categorized_data in
  let? cross_source_aggs := _cross_source_aggregation parsed_data in
  Normal (setitem (AStr "cross_source") cross_source_aggs aggregations).

(** What the properties below speak of. *)

(** The entries of a given type, in input order. *)
Definition has_type (t : atom) (e : entry) : bool :=
  match type_of e with
  | Atom a => bool_decide (a = t)
  | _ => false
  end.

Definition of_type (t : atom) (parsed_data : list entry) : list entry :=
  List.filter (has_type t) parsed_data.

(** The number of sources a summary reports. *)
Definition sources_of (s : summary) : nat :=
  match s with
  | Html n _ _ _ => n
  | Json n _ _ => n
  | Other n _ => n
  | Cross n _ _ => n
  end.

(** How often [k] occurs among [xs]. *)
Definition occurrences (k : atom) (xs : list atom) : nat :=
  length (List.filter (fun x => bool_decide (x = k)) xs).

(** An entry whose [titles] are the hashable values [ts] (none, when
    the key is missing). *)
Definition titled (e : entry) (ts : list atom) : Prop :=
  get e "titles" (VList []) = VList (Atom <$> ts).

(** The exceptions the aggregator raises: an unhashable or non-iterable
    value, or a [raw_data] without [keys]. *)
Definition aggregator_error (x : exn) : Prop :=
  x = TypeError \/ x = AttributeError "keys".

(** [d.get(k, 0)] on a counter. *)
Definition count_of (k : atom) (counts : odict nat) : nat :=
  default 0 (getitem k counts).

End Aggregate.
(** * Scenarios: the concrete inputs used below *)

(** An operation that fails twice with a caught exception, then succeeds. *)
Definition fails_twice (n : nat) : Retry.outcome string unit :=
  if Nat.ltb n 2 then Retry.Raises tt else Retry.Returns "body".

(** An operation that fails with a caught exception at every invocation. *)
Definition fails_forever (n : nat) : Retry.outcome string unit :=
  Retry.Raises tt.

Definition catch_all (e : unit) : bool := true.

(** A limiter of two slots and ten admissions per second, three tasks:
    two go through, the third waits for a slot. *)
Definition two_slots : Limiter.limiter :=
  Limiter.Limiter (10 # 1) (Some 2%Z) (Some 2) 0.

Definition two_slots_schedule : list Limiter.event :=
  [Limiter.Enter; Limiter.Enter; Limiter.Enter; Limiter.Tick (1 # 10);
   Limiter.Wake 0; Limiter.Wake 1].

Definition two_slots_world : Limiter.world :=
  default (Limiter.fresh two_slots 0)
    (Limiter.run (Limiter.fresh two_slots 0) two_slots_schedule).

(** Ten admissions per second, no cap; three tasks enter together. *)
Definition ten_per_second : Limiter.limiter :=
  Limiter.Limiter (10 # 1) None None 0.

Definition race_schedule : list Limiter.event :=
  [Limiter.Tick (100 # 1); Limiter.Enter; Limiter.Enter; Limiter.Enter;
   Limiter.Tick (1 # 10); Limiter.Wake 1; Limiter.Wake 2].

(** Where [race_schedule] leaves the event loop. *)
Definition race_world : Limiter.world :=
  Limiter.World (Limiter.Limiter (10 # 1) None None (1001 # 10)) (1001 # 10)
    [Limiter.Inside (100 # 1); Limiter.Inside (1001 # 10);
     Limiter.Inside (1001 # 10)]
    [(100 # 1)%Q; (1001 # 10)%Q; (1001 # 10)%Q].


(** A backend that answers every request with 200 and a body; one that
    answers every request with 404; one that answers 200 with an empty
    body. *)
Definition ok_backend (url : string) (k : nat) : Crawl.reply :=
  Crawl.Response 200 "ok".
Definition empty_backend (url : string) (k : nat) : Crawl.reply :=
  Crawl.Response 200 EmptyString.

(** Pages without job postings. *)
Definition no_jobs (text : string) : list (option string) := [].

Definition three_targets : list string :=
  ["https://a.test/x"; "not a url"; "https://a.test/y"].

(** The crawlers as the public constructors build them. *)
Definition sequential_crawler (urls : list string) : Crawl.object :=
  Crawl.BaseCrawler_init Crawl.SequentialCrawler urls 5.
Definition threaded_crawler (urls : list string) : Crawl.object :=
  Crawl.BaseCrawler_init Crawl.ThreadedCrawler urls 5.
Definition async_self (urls : list string) (max_workers : Z) : Crawl.object :=
  Crawl.setattr (Crawl.BaseCrawler_init Crawl.AsyncCrawler urls max_workers)
    "rate_limiter" (Crawl.PLimiter (Limiter.Limiter (10 # 1) None None 0)).
Definition async_crawler (urls : list string) : Crawl.object :=
  async_self urls 5.

(** A crawler on which the caller has set, after construction, the three
    attributes the retry loops read: [crawler.max_retries = 3],
    [crawler.timeout = 10], and a [_log_error] callable. *)
Definition configured (self : Crawl.object) : Crawl.object :=
  Crawl.setattr (Crawl.setattr (Crawl.setattr self
    "max_retries" (Crawl.PInt 3))
    "timeout" (Crawl.PInt 10))
    "_log_error" Crawl.PCallable.

(** The value a computation returned, if it returned. *)
Definition returned {A : Type} (m : Crawl.M A) : option A :=
  match m.2 with Normal a => Some a | Throw _ => None end.

(** The same three tasks, one after the other. *)
Definition serial_schedule : list Limiter.event :=
  [Limiter.Tick (100 # 1); Limiter.Enter; Limiter.Enter;
   Limiter.Tick (1 # 10); Limiter.Wake 1; Limiter.Enter;
   Limiter.Tick (1 # 10); Limiter.Wake 2].

(** An operation that fails once with a caught exception ([true]) and then
    with one the decorator does not catch ([false]); [exceptions] is the
    identity on this error type. *)
Definition fails_then_fatal (n : nat) : Retry.outcome string bool :=
  if Nat.eqb n 0 then Retry.Raises true else Retry.Raises false.

Definition catch_flagged (e : bool) : bool := e.

(** An operation whose [n]-th failure carries the number [n]. *)
Definition fails_numbered (n : nat) : Retry.outcome string nat :=
  Retry.Raises n.

Definition catch_any (e : nat) : bool := true.

Definition serial_world : Limiter.world :=
  default (Limiter.fresh ten_per_second 0)
    (Limiter.run (Limiter.fresh ten_per_second 0) serial_schedule).

(** A limiter of rate zero and one slot; two tasks enter. *)
Definition zero_rate : Limiter.limiter :=
  Limiter.Limiter 0 (Some 1%Z) (Some 1) 0.

Definition zero_rate_schedule : list Limiter.event :=
  [Limiter.Enter; Limiter.Enter; Limiter.Tick 1].

Definition zero_rate_world : Limiter.world :=
  default (Limiter.fresh zero_rate 0)
    (Limiter.run (Limiter.fresh zero_rate 0) zero_rate_schedule).

(** Two tasks enter together at time 100: the second one sleeps. *)
Definition sleeper_schedule : list Limiter.event :=
  [Limiter.Tick (100 # 1); Limiter.Enter; Limiter.Enter].

Definition sleeper_world : Limiter.world :=
  default (Limiter.fresh ten_per_second 0)
    (Limiter.run (Limiter.fresh ten_per_second 0) sleeper_schedule).

(** A limiter of negative rate; three tasks enter at the same instant. *)
Definition negative_rate : Limiter.limiter :=
  Limiter.Limiter (-5 # 1) None None 0.

Definition negative_rate_schedule : list Limiter.event :=
  [Limiter.Enter; Limiter.Enter; Limiter.Enter].

Definition negative_rate_world : Limiter.world :=
  default (Limiter.fresh negative_rate 0)
    (Limiter.run (Limiter.fresh negative_rate 0) negative_rate_schedule).


(** What a computation left in its trace. *)
Definition trace_of {A : Type} (m : Crawl.M A) : list Crawl.io := m.1.

(** Pages with two job postings, the second without an [h2]. *)
Definition headless_jobs (text : string) : list (option string) :=
  [Some "Engineer"; None].

(** Pages with two job postings, both with an [h2]. *)
Definition two_jobs (text : string) : list (option string) :=
  [Some "Engineer"; Some "Designer"].

(** The entries of [test_edge_cases] (tests/test_aggregators.py): a
    nested JSON document, a JSON array, a page without titles. *)
Definition nested_json : Aggregate.entry :=
  {[ "type" := Aggregate.Atom (Aggregate.AStr "json");
     "raw_data" := Aggregate.VDict
       [("nested", Aggregate.VDict
          [("deep", Aggregate.VDict
             [("value", Aggregate.Atom (Aggregate.AStr "test"))])])] ]}.

Definition json_array : Aggregate.entry :=
  {[ "type" := Aggregate.Atom (Aggregate.AStr "json");
     "raw_data" := Aggregate.VList [] ]}.

Definition untitled_page : Aggregate.entry :=
  {[ "type" := Aggregate.Atom (Aggregate.AStr "html");
     "titles" := Aggregate.VList [] ]}.

Definition edge_case_data : list Aggregate.entry :=
  [nested_json; json_array; untitled_page].

(** The entries of [test_html_aggregation]. *)
Definition titles (ts : list string) : Aggregate.value :=
  Aggregate.VList ((fun t => Aggregate.Atom (Aggregate.AStr t)) <$> ts).

Definition html_page (ts : list string) : Aggregate.entry :=
  {[ "type" := Aggregate.Atom (Aggregate.AStr "html"); "titles" := titles ts ]}.

Definition html_data : list Aggregate.entry :=
  [html_page ["Tech News"; "Latest Updates"; "Tech News"];
   html_page ["Tech News"; "Sports"; "Finance"]].

Definition html_titles : list (list Aggregate.atom) :=
  [[Aggregate.AStr "Tech News"; Aggregate.AStr "Latest Updates";
    Aggregate.AStr "Tech News"];
   [Aggregate.AStr "Tech News"; Aggregate.AStr "Sports";
    Aggregate.AStr "Finance"]].

(** The entries of [test_mixed_data_sources]. *)
Definition source (type url : string) : Aggregate.entry :=
  {[ "type" := Aggregate.Atom (Aggregate.AStr type);
     "source_url" := Aggregate.Atom (Aggregate.AStr url) ]}.

Definition mixed_data : list Aggregate.entry :=
  [source "html" "https://example1.com"; source "json" "https://example2.com";
   source "html" "https://example3.com"; source "text" "https://example4.com"].

(** What [aggregate] returned (the empty dict, had it raised). *)
Definition aggregated (parsed_data : list Aggregate.entry)
    : Aggregate.odict Aggregate.summary :=
  match Aggregate.aggregate parsed_data with
  | Normal r => r
  | Throw _ => []
  end.
(** * Part II: properties *)

(** ** Rationals *)

Lemma Qltb_lt x y : Qltb x y = true <-> (x < y)%Q.
Proof. unfold Qltb, Qlt. apply Z.ltb_lt. Qed.

Lemma Qltb_ge x y : Qltb x y = false <-> (y <= x)%Q.
Proof. unfold Qltb, Qle. apply Z.ltb_ge. Qed.

(** ** The retry wrapper *)

Section RetryFacts.
Context {A E : Type}.
Variable exceptions : E -> bool.
Variable func : nat -> Retry.outcome A E.
Variable max_attempts : Z.
Variable backoff : Q.

Let loop := Retry.loop exceptions func max_attempts backoff.
Let waits := Retry.waits backoff.
Let scaled := Retry.scaled backoff.

(** Failing attempts that are not the last one are skipped over, each
    costing one invocation and one wait. *)
Lemma loop_skip (j : nat) : forall (a : nat) rest d slept,
  (Z.of_nat (a + j) < max_attempts)%Z ->
  Retry.fails_between exceptions func a (a + j) ->
  loop (map Z.of_nat (seq a j) ++ rest) a d slept
  = loop rest (a + j) (scaled d j) (slept ++ waits d j).
Proof.
  induction j as [|j IH]; intros a rest d slept Hlt Hfail.
  - cbn. rewrite Nat.add_0_r, app_nil_r. reflexivity.
  - cbn [seq map app]. unfold loop at 1. cbn [Retry.loop].
    destruct (Hfail a) as (e & He & Hexc); [lia|].
    rewrite He, Hexc.
    replace (Z.of_nat a =? max_attempts - 1)%Z with false
      by (symmetry; apply Z.eqb_neq; lia).
    fold loop. rewrite IH.
    + cbn [scaled waits Retry.scaled Retry.waits]. rewrite <- app_assoc. cbn [app].
      f_equal. lia.
    + lia.
    + intros i Hi. apply Hfail. lia.
Qed.

Lemma range_split (k : nat) :
  (Z.of_nat k < max_attempts)%Z ->
  Retry.range max_attempts
  = map Z.of_nat (seq 0 k)
    ++ Z.of_nat k :: map Z.of_nat (seq (S k) (Z.to_nat max_attempts - S k)).
Proof.
  intros Hk. unfold Retry.range.
  replace (Z.to_nat max_attempts) with (k + S (Z.to_nat max_attempts - S k)) at 1 by lia.
  rewrite seq_app, map_app. reflexivity.
Qed.

(** [k] caught failures, then a success. *)
Lemma wrapper_succeeds (delay : Q) (k : nat) (v : A) :
  (Z.of_nat k < max_attempts)%Z ->
  Retry.fails_between exceptions func 0 k ->
  func k = Retry.Returns v ->
  Retry.wrapper exceptions func max_attempts backoff delay
  = Retry.Run (Retry.Returned v) (S k) (waits delay k).
Proof.
  intros Hk Hfail Hok. unfold Retry.wrapper.
  rewrite (range_split k Hk). fold loop.
  rewrite loop_skip by (cbn; auto).
  unfold loop. cbn. rewrite Hok. reflexivity.
Qed.

(** Caught failures throughout. *)
Lemma wrapper_exhausts (delay : Q) :
  (1 <= max_attempts)%Z ->
  Retry.always_fails exceptions func ->
  exists e,
    Retry.wrapper exceptions func max_attempts backoff delay
    = Retry.Run (Retry.Raised e) (Z.to_nat max_attempts)
        (waits delay (Z.to_nat max_attempts - 1)).
Proof.
  intros Hm Hfail. unfold Retry.wrapper.
  set (k := Z.to_nat max_attempts - 1).
  rewrite (range_split k) by lia. fold loop.
  rewrite loop_skip; [| cbn; lia | intros i _; apply Hfail].
  destruct (Hfail k) as (e & He & Hexc). exists e.
  unfold loop. cbn [Nat.add Retry.loop]. rewrite He, Hexc.
  replace (Z.of_nat k =? max_attempts - 1)%Z with true
    by (symmetry; apply Z.eqb_eq; lia).
  f_equal. lia.
Qed.

(** Whatever [func] does, the waits are an initial run of the geometric
    sequence, and there is one wait between two consecutive invocations. *)
Lemma loop_waits (n : nat) : forall (a ncalls : nat) d slept,
  Z.of_nat (a + n) = max_attempts ->
  exists j,
    Retry.sleeps (loop (map Z.of_nat (seq a n)) ncalls d slept)
    = slept ++ waits d j
    /\ Retry.calls (loop (map Z.of_nat (seq a n)) ncalls d slept)
       = match n with O => ncalls | S _ => S (ncalls + j) end.
Proof.
  induction n as [|n IH]; intros a ncalls d slept Hn.
  - exists 0. cbn. rewrite app_nil_r. auto.
  - cbn [seq map]. unfold loop. cbn [Retry.loop].
    destruct (func ncalls) as [v|e].
    + exists 0. cbn. rewrite app_nil_r, Nat.add_0_r. auto.
    + destruct (exceptions e).
      * destruct (Z.eqb_spec (Z.of_nat a) (max_attempts - 1)) as [Heq|Hne].
        -- exists 0. cbn. rewrite app_nil_r, Nat.add_0_r. auto.
        -- fold loop.
           destruct (IH (S a) (S ncalls) (d * backoff)%Q (slept ++ [d]))
             as (j & Hs & Hc); [lia|].
           exists (S j). rewrite Hs, Hc. cbn [waits Retry.waits].
           rewrite <- app_assoc. split; [reflexivity|].
           destruct n; [lia | lia].
      * exists 0. cbn. rewrite app_nil_r, Nat.add_0_r. auto.
Qed.

Lemma wrapper_waits (delay : Q) :
  exists j,
    Retry.sleeps (Retry.wrapper exceptions func max_attempts backoff delay)
    = waits delay j
    /\ j = Nat.pred (Retry.calls
               (Retry.wrapper exceptions func max_attempts backoff delay)).
Proof.
  unfold Retry.wrapper, Retry.range.
  destruct (Z.le_gt_cases max_attempts 0) as [Hle|Hgt].
  - replace (Z.to_nat max_attempts) with 0 by lia. exists 0. cbn. auto.
  - destruct (loop_waits (Z.to_nat max_attempts) 0 0 delay []) as (j & Hs & Hc);
      [lia|].
    fold loop. exists j. rewrite Hs, Hc. split; [reflexivity|].
    destruct (Z.to_nat max_attempts) eqn:Hm; [lia | reflexivity].
Qed.

Lemma length_waits d j : length (waits d j) = j.
Proof.
  revert d. induction j as [|j IH]; intros d; cbn; [reflexivity|].
  f_equal. apply IH.
Qed.

(** The loop invokes [func] at most once per attempt it is given. *)
Lemma loop_calls_bound : forall attempts ncalls d slept,
  Retry.calls (loop attempts ncalls d slept) <= ncalls + length attempts.
Proof.
  induction attempts as [|attempt rest IH]; intros ncalls d slept; cbn [length].
  - cbn. lia.
  - unfold loop. cbn [Retry.loop].
    destruct (func ncalls) as [v|e]; [cbn; lia|].
    destruct (exceptions e); [|cbn; lia].
    destruct (attempt =? max_attempts - 1)%Z; [cbn; lia|].
    fold loop. specialize (IH (S ncalls) (d * backoff)%Q (slept ++ [d])). lia.
Qed.

(** Over the attempts [a .. max_attempts - 1], at least one of them, the
    loop ends by returning a value of [func] or by raising. *)
Lemma loop_never_none (n : nat) : forall (a ncalls : nat) d slept,
  Z.of_nat (a + S n) = max_attempts ->
  Retry.res (loop (map Z.of_nat (seq a (S n))) ncalls d slept)
  <> Retry.ReturnedNone.
Proof.
  induction n as [|n IH]; intros a ncalls d slept Hn;
    cbn [seq map]; unfold loop; cbn [Retry.loop];
    destruct (func ncalls) as [v|e]; try (cbn; discriminate);
    destruct (exceptions e); try (cbn; discriminate);
    destruct (Z.eqb_spec (Z.of_nat a) (max_attempts - 1)) as [Heq|Hne];
    try (cbn; discriminate).
  - lia.
  - fold loop. apply (IH (S a)). lia.
Qed.

(** [k] caught failures, then an exception that is not caught. *)
Lemma wrapper_uncaught (delay : Q) (k : nat) (e : E) :
  (Z.of_nat k < max_attempts)%Z ->
  Retry.fails_between exceptions func 0 k ->
  func k = Retry.Raises e ->
  exceptions e = false ->
  Retry.wrapper exceptions func max_attempts backoff delay
  = Retry.Run (Retry.Raised e) (S k) (waits delay k).
Proof.
  intros Hk Hfail He Hexc. unfold Retry.wrapper.
  rewrite (range_split k Hk). fold loop.
  rewrite loop_skip by (cbn; auto).
  unfold loop. cbn. rewrite He, Hexc. reflexivity.
Qed.

(** Caught failures throughout: the exception of the last attempt. *)
Lemma wrapper_exhausts_last (delay : Q) (e : E) :
  (1 <= max_attempts)%Z ->
  Retry.always_fails exceptions func ->
  func (Z.to_nat max_attempts - 1) = Retry.Raises e ->
  Retry.wrapper exceptions func max_attempts backoff delay
  = Retry.Run (Retry.Raised e) (Z.to_nat max_attempts)
      (waits delay (Z.to_nat max_attempts - 1)).
Proof.
  intros Hm Hfail He. unfold Retry.wrapper.
  set (k := Z.to_nat max_attempts - 1) in *.
  rewrite (range_split k) by lia. fold loop.
  rewrite loop_skip; [| cbn; lia | intros i _; apply Hfail].
  destruct (Hfail k) as (e0 & He0 & Hexc). rewrite He in He0.
  injection He0 as <-.
  unfold loop. cbn [Nat.add Retry.loop]. rewrite He, Hexc.
  replace (Z.of_nat k =? max_attempts - 1)%Z with true
    by (symmetry; apply Z.eqb_eq; lia).
  f_equal. lia.
Qed.

(** With a delay that is not negative and a multiplier of at least one,
    every wait is at least the one before it, and at least the first. *)
Lemma waits_grow (j : nat) : forall d,
  (0 <= d)%Q -> (1 <= backoff)%Q ->
  Forall (fun x => (d <= x)%Q) (waits d j)
  /\ forall i x y,
       waits d j !! i = Some x -> waits d j !! S i = Some y -> (x <= y)%Q.
Proof.
  induction j as [|j IH]; intros d Hd Hb.
  - change (waits d 0) with (@nil Q).
    split; [constructor | intros i x y H; rewrite lookup_nil in H; discriminate].
  - assert (Hdb : (d <= d * backoff)%Q) by nra.
    destruct (IH (d * backoff)%Q) as [Hall Hpairs]; [nra | exact Hb |].
    change (waits d (S j)) with (d :: waits (d * backoff)%Q j).
    split.
    + constructor; [lra|].
      eapply Forall_impl; [exact Hall|]. cbn. intros x Hx. lra.
    + intros [|i] x y Hx Hy.
      * cbn in Hx, Hy. injection Hx as <-.
        rewrite Forall_forall in Hall.
        assert (Hin : y ∈ waits (d * backoff)%Q j)
          by (eapply list_elem_of_lookup_2; exact Hy).
        specialize (Hall _ Hin). lra.
      * cbn in Hx, Hy. exact (Hpairs i x y Hx Hy).
Qed.

End RetryFacts.

(** C2. With [max_attempts >= 1]: an operation that raises a caught
    exception exactly [k < max_attempts] times and then succeeds makes the
    wrapped call return that success after exactly [k + 1] invocations; an
    operation that always raises a caught exception is invoked exactly
    [max_attempts] times (and the last exception is re-raised). *)
Theorem retry_invocation_count {A E : Type} (exceptions : E -> bool)
    (func : nat -> Retry.outcome A E) (max_attempts : Z) (backoff delay : Q) :
  (1 <= max_attempts)%Z ->
  (forall (k : nat) (v : A),
      (Z.of_nat k < max_attempts)%Z ->
      Retry.fails_between exceptions func 0 k ->
      func k = Retry.Returns v ->
      Retry.res (Retry.wrapper exceptions func max_attempts backoff delay)
      = Retry.Returned v
      /\ Retry.calls (Retry.wrapper exceptions func max_attempts backoff delay)
         = k + 1)
  /\ (Retry.always_fails exceptions func ->
      (exists e,
          Retry.res (Retry.wrapper exceptions func max_attempts backoff delay)
          = Retry.Raised e)
      /\ Z.of_nat (Retry.calls
                     (Retry.wrapper exceptions func max_attempts backoff delay))
         = max_attempts).
Proof.
  intros Hm. split.
  - intros k v Hk Hfail Hok.
    rewrite (wrapper_succeeds exceptions func max_attempts backoff delay k v)
      by assumption.
    cbn. split; [reflexivity | lia].
  - intros Hfail.
    destruct (wrapper_exhausts exceptions func max_attempts backoff delay Hm Hfail)
      as (e & He).
    rewrite He. cbn. split; [exists e; reflexivity | lia].
Qed.

Lemma retry_invocation_count_witness :
  (Retry.res (Retry.wrapper catch_all fails_twice 3 (2 # 1) 1)
   = Retry.Returned "body"
   /\ Retry.calls (Retry.wrapper catch_all fails_twice 3 (2 # 1) 1) = 2 + 1)
  /\ Z.of_nat (Retry.calls (Retry.wrapper catch_all fails_forever 3 (2 # 1) 1))
     = 3%Z.
Proof.
  split.
  - apply (proj1 (retry_invocation_count catch_all fails_twice 3 (2 # 1) 1
                    ltac:(lia)) 2 "body").
    + lia.
    + intros i Hi. exists tt.
      destruct i as [|[|i]]; [split; reflexivity | split; reflexivity | lia].
    + reflexivity.
  - apply (proj2 (retry_invocation_count catch_all fails_forever 3 (2 # 1) 1
                    ltac:(lia))).
    intros i. exists tt. split; reflexivity.
Defined.

(** ** The rate limiter *)

Section LimiterFacts.
Import Limiter.

Lemma count_app f l1 l2 : count f (l1 ++ l2) = count f l1 + count f l2.
Proof. unfold count. rewrite List.filter_app, length_app. reflexivity. Qed.

Lemma count_insert f : forall l i p q,
  l !! i = Some p ->
  count f (<[i:=q]> l) + Nat.b2n (f p) = count f l + Nat.b2n (f q).
Proof.
  induction l as [|x l IH]; intros i p q Hl; [discriminate|].
  destruct i as [|i]; cbn in Hl.
  - inversion Hl; subst. unfold count. cbn.
    destruct (f p), (f q); cbn; lia.
  - specialize (IH i p q Hl). unfold count in *.
    change (<[S i:=q]> (x :: l)) with (x :: <[i:=q]> l).
    cbn [List.filter]. destruct (f x); cbn [length]; lia.
Qed.

Lemma count_le f g l :
  (forall p, f p = true -> g p = true) -> count f l <= count g l.
Proof.
  intros Hfg. unfold count. induction l as [|x l IH]; cbn; [lia|].
  destruct (f x) eqn:Hf.
  - rewrite (Hfg x Hf). cbn. lia.
  - destruct (g x); cbn; lia.
Qed.

(** The timing gate leaves the semaphore and the rate alone, and a task
    that went through it holds its slot. *)
Lemma timing_gate_spec l t :
  holds_slot (timing_gate l t).1 = true
  /\ _semaphore (timing_gate l t).2 = _semaphore l
  /\ max_rate (timing_gate l t).2 = max_rate l
  /\ (timing_gate l t).1 <> WaitingSem.
Proof.
  unfold timing_gate. destruct (Qeq_bool (max_rate l) 0); [cbn; auto|].
  destruct (Qltb _ _); cbn; auto.
Qed.

Lemma step_slots c w ev w' :
  slots_add_up c w -> step w ev = Some w' -> slots_add_up c w'.
Proof.
  intros (v & Hv & Hc) Hstep. unfold slots_add_up.
  destruct ev as [d| |i|i|i exc]; cbn in Hstep.
  - destruct (Qle_bool 0 d); [|discriminate]. injection Hstep as <-; cbn. eauto.
  - rewrite Hv in Hstep.
    destruct (Nat.eqb_spec v 0) as [Hz|Hnz]; cbn in Hstep.
    + injection Hstep as <-; cbn. exists v. split; [assumption|].
      rewrite count_app. unfold count at 2. cbn. lia.
    + destruct (existsb is_waiting (tasks w)).
      * injection Hstep as <-; cbn. exists v. split; [assumption|].
        rewrite count_app. unfold count at 2. cbn. lia.
      * unfold pass_gate in Hstep.
        pose proof (timing_gate_spec (set_semaphore (Some (v - 1)) (lim w)) (now w))
          as (Hh & Hs & _).
        destruct (timing_gate _ _) as [p l']. cbn in Hh, Hs.
        injection Hstep as <-; cbn. exists (v - 1). split; [assumption|].
        rewrite count_app. unfold count at 2. cbn. rewrite Hh. cbn. lia.
  - destruct (tasks w !! i) as [[| | | |]|] eqn:Hi; try discriminate.
    rewrite Hv in Hstep. destruct v as [|v]; [discriminate|].
    unfold pass_gate in Hstep.
    pose proof (timing_gate_spec (set_semaphore (Some v) (lim w)) (now w))
      as (Hh & Hs & _).
    destruct (timing_gate _ _) as [p l']. cbn in Hh, Hs.
    injection Hstep as <-; cbn. exists v. split; [assumption|].
    pose proof (count_insert holds_slot _ _ _ p Hi) as Hins.
    rewrite Hh in Hins. cbn in Hins. lia.
  - destruct (tasks w !! i) as [[| u | | |]|] eqn:Hi; try discriminate.
    destruct (Qle_bool u (now w)); [|discriminate].
    injection Hstep as <-; cbn. exists v. split; [assumption|].
    pose proof (count_insert holds_slot _ _ _ (Inside (now w)) Hi) as Hins.
    cbn in Hins. lia.
  - destruct (tasks w !! i) as [[| | s | |]|] eqn:Hi; try discriminate.
    injection Hstep as <-; cbn. rewrite Hv. cbn. exists (S v).
    split; [reflexivity|].
    pose proof (count_insert holds_slot _ _ _ Released Hi) as Hins.
    cbn in Hins. lia.
Qed.

Lemma run_slots c evs : forall w w',
  slots_add_up c w -> run w evs = Some w' -> slots_add_up c w'.
Proof.
  induction evs as [|ev evs IH]; intros w w' Hinv Hrun; cbn in Hrun.
  - inversion Hrun; subst. assumption.
  - destruct (step w ev) as [w1|] eqn:Hstep; [|discriminate].
    eapply IH; [|eassumption]. eapply step_slots; eassumption.
Qed.

Lemma in_flight_le_held w : in_flight w <= count holds_slot (tasks w).
Proof. apply count_le. intros [| | | |]; cbn; congruence. Qed.

(** Leaving the scope releases exactly one slot, however the body ended. *)
Lemma exit_releases w i stamp exc :
  tasks w !! i = Some (Inside stamp) ->
  exists w',
    step w (Exit i exc) = Some w'
    /\ _semaphore (lim w') = S <$> _semaphore (lim w)
    /\ S (in_flight w') = in_flight w.
Proof.
  intros Hi. cbn. rewrite Hi. eexists. split; [reflexivity|]. cbn.
  split; [reflexivity|].
  pose proof (count_insert is_inside _ _ _ Released Hi) as Hins.
  cbn in Hins. unfold in_flight. cbn. lia.
Qed.

End LimiterFacts.

(** C6. With a concurrency cap [c >= 1], in every state the event loop can
    reach, at most [c] tasks have completed [__aenter__] without their
    [__aexit__]; and from every such task, leaving the scope, normally or
    with an exception, is possible and frees exactly one slot. *)
Theorem concurrency_cap_respected (r : Q) (c : Z) (l : Limiter.limiter)
    (t0 : Q) (evs : list Limiter.event) (w : Limiter.world) :
  (0 < c)%Z ->
  Limiter.__init__ r (Some c) = Normal l ->
  Limiter.run (Limiter.fresh l t0) evs = Some w ->
  (Z.of_nat (Limiter.in_flight w) <= c)%Z
  /\ forall (i : nat) (stamp : Q) (exc : option exn),
       Limiter.tasks w !! i = Some (Limiter.Inside stamp) ->
       exists w',
         Limiter.step w (Limiter.Exit i exc) = Some w'
         /\ Limiter._semaphore (Limiter.lim w')
            = S <$> Limiter._semaphore (Limiter.lim w)
         /\ is_Some (Limiter._semaphore (Limiter.lim w))
         /\ S (Limiter.in_flight w') = Limiter.in_flight w.
Proof.
  intros Hc Hinit Hrun.
  assert (Hinv : Limiter.slots_add_up (Z.to_nat c) w).
  { eapply run_slots; [|exact Hrun].
    unfold Limiter.__init__, Limiter.Semaphore in Hinit.
    destruct (Z.eqb_spec c 0) as [|_]; [lia|].
    destruct (Z.ltb_spec c 0) as [|_]; [lia|].
    injection Hinit as <-. exists (Z.to_nat c). cbn.
    split; [reflexivity | unfold Limiter.count; cbn; lia]. }
  destruct Hinv as (v & Hv & Hsum). split.
  - pose proof (in_flight_le_held w). lia.
  - intros i stamp exc Hi.
    destruct (exit_releases w i stamp exc Hi) as (w' & Hstep & Hsem & Hfl).
    exists w'. rewrite Hv in *. repeat split; eauto.
Qed.

Lemma concurrency_cap_respected_witness :
  (Z.of_nat (Limiter.in_flight two_slots_world) <= 2)%Z
  /\ exists w',
       Limiter.step two_slots_world
         (Limiter.Exit 0 (Some (OtherError "boom"))) = Some w'
       /\ Limiter._semaphore (Limiter.lim w')
          = S <$> Limiter._semaphore (Limiter.lim two_slots_world)
       /\ is_Some (Limiter._semaphore (Limiter.lim two_slots_world))
       /\ S (Limiter.in_flight w') = Limiter.in_flight two_slots_world.
Proof.
  destruct (concurrency_cap_respected (10 # 1) 2 two_slots 0
              two_slots_schedule two_slots_world)
    as [Hcap Hexit]; [lia | reflexivity | reflexivity |].
  split; [exact Hcap|].
  apply (Hexit 0 (1 # 10)%Q (Some (OtherError "boom"))). reflexivity.
Defined.

(** C1 (the code does not do this). With [max_rate = 10] the minimum
    interval is 1/10 s. Three tasks call [__aenter__] at loop time 100: the
    first is admitted at once, the other two both read the same
    [_last_call], both sleep 1/10 s, and both are admitted at the same
    instant 100.1: two admissions 0 s apart. *)
Theorem concurrent_admissions_too_close :
  Limiter.__init__ (10 # 1) None = Normal ten_per_second
  /\ Limiter.admissions
       <$> Limiter.run (Limiter.fresh ten_per_second 0) race_schedule
     = Some [(100 # 1)%Q; (1001 # 10)%Q; (1001 # 10)%Q]
  /\ Limiter.spaced (1 / (10 # 1))%Q
       [(100 # 1)%Q; (1001 # 10)%Q; (1001 # 10)%Q] = false.
Proof. repeat split; vm_compute; reflexivity. Qed.

Section Serial.
Import Limiter.
Variable r : Q.

Lemma spaced_snoc gap log t :
  spaced gap (log ++ [t])
  = spaced gap log
    && match last log with Some a => Qle_bool gap (t - a) | None => true end.
Proof.
  induction log as [|a [|b log] IH]; [reflexivity | |].
  - cbn. rewrite andb_true_r. reflexivity.
  - change (spaced gap ((a :: b :: log) ++ [t]))
      with (Qle_bool gap (b - a) && spaced gap ((b :: log) ++ [t])).
    rewrite IH. change (spaced gap (a :: b :: log))
      with (Qle_bool gap (b - a) && spaced gap (b :: log)).
    rewrite andb_assoc. reflexivity.
Qed.

Lemma count_zero_lookup f l i p :
  count f l = 0 -> l !! i = Some p -> f p = false.
Proof.
  intros Hz Hi. pose proof (count_insert f l i p p Hi) as H.
  destruct (f p) eqn:Hf; [|reflexivity].
  exfalso. revert Hi Hz. clear H. revert i.
  unfold count. induction l as [|x l IH]; intros i Hi Hz; [discriminate|].
  destruct i as [|i]; cbn in Hi.
  - injection Hi as ->. cbn in Hz. rewrite Hf in Hz. discriminate.
  - cbn in Hz. destruct (f x); [discriminate|]. eapply IH; eassumption.
Qed.

Lemma lookup_snoc_sleeping (l : list phase) p i u :
  (l ++ [p]) !! i = Some (Sleeping u) ->
  l !! i = Some (Sleeping u) \/ p = Sleeping u.
Proof.
  intros H. apply lookup_app_Some in H as [H | [_ H]]; [auto|].
  right. destruct (i - length l); cbn in H; [congruence | discriminate].
Qed.

Lemma lookup_insert_sleeping (l : list phase) j p i u :
  (<[j:=p]> l) !! i = Some (Sleeping u) ->
  l !! i = Some (Sleeping u) \/ p = Sleeping u.
Proof.
  intros H. destruct (decide (j = i)) as [->|Hne].
  - destruct (decide (i < length l)) as [Hlt|Hge].
    + rewrite list_lookup_insert_eq in H by exact Hlt. right. congruence.
    + rewrite list_insert_ge in H by lia. auto.
  - rewrite list_lookup_insert_ne in H by exact Hne. auto.
Qed.

Lemma pass_gate_serial w l (store : phase -> list phase) :
  serial_inv r w ->
  quiet w = true ->
  max_rate l = r ->
  _last_call l = _last_call (lim w) ->
  (forall p, count is_sleeping (store p)
             = count is_sleeping (tasks w) + Nat.b2n (is_sleeping p)) ->
  (forall p i u, store p !! i = Some (Sleeping u) ->
                 tasks w !! i = Some (Sleeping u) \/ p = Sleeping u) ->
  serial_inv r (pass_gate w l store).
Proof.
  intros (Hr & Hcount & Hsleep & Hspaced & Hlast) Hquiet Hrate Hsame Hstore Hlook.
  apply Nat.eqb_eq in Hquiet.
  unfold pass_gate, timing_gate. rewrite Hrate.
  destruct (Qeq_bool r 0).
  { repeat split; cbn; [assumption | rewrite Hstore; cbn; lia | | assumption |].
    - intros i u Hi. rewrite Hsame.
      destruct (Hlook _ _ _ Hi) as [Hold|Hnew]; [eauto | discriminate].
    - intros a Ha. rewrite Hsame. auto. }
  cbn zeta. destruct (Qltb _ _) eqn:Hlt.
  - repeat split; cbn; [assumption | rewrite Hstore; cbn; lia | | assumption |].
    + intros i u Hi.
      destruct (Hlook _ _ _ Hi) as [Hold|Hnew].
      * rewrite Hsame. eauto.
      * injection Hnew as <-. generalize (1 / r)%Q. intros m. lra.
    + intros a Ha. rewrite Hsame. auto.
  - apply Qltb_ge in Hlt.
    repeat split; cbn; [assumption | rewrite Hstore; cbn; lia | | |].
    + intros i u Hi.
      destruct (Hlook _ _ _ Hi) as [Hold|Hnew]; [|discriminate].
      pose proof (count_zero_lookup _ _ _ _ Hquiet Hold). discriminate.
    + rewrite spaced_snoc, Hspaced. cbn.
      destruct (last (admissions w)) as [a|] eqn:Ha; [|reflexivity].
      rewrite (Hlast a eq_refl). apply Qle_bool_iff.
      rewrite <- Hsame. exact Hlt.
    + intros a Ha. rewrite last_snoc in Ha. congruence.
Qed.

Lemma step_serial w ev w' :
  serial_inv r w ->
  match ev with Enter | Grant _ => quiet w | _ => true end = true ->
  step w ev = Some w' ->
  serial_inv r w'.
Proof.
  intros Hinv Hq Hstep.
  destruct ev as [d| |i|i|i exc]; cbn in Hstep.
  - destruct (Qle_bool 0 d); [|discriminate]. injection Hstep as <-.
    exact Hinv.
  - assert (Happ : forall p, count is_sleeping (tasks w ++ [p])
                    = count is_sleeping (tasks w) + Nat.b2n (is_sleeping p)).
    { intros p. rewrite count_app. unfold count at 2. cbn.
      destruct (is_sleeping p); reflexivity. }
    destruct (_semaphore (lim w)) as [v|].
    + destruct (Nat.eqb v 0 || existsb is_waiting (tasks w)).
      * injection Hstep as <-.
        destruct Hinv as (Hr & Hcount & Hsleep & Hspaced & Hlast).
        repeat split; cbn; [assumption | rewrite Happ; cbn; lia | | assumption | assumption].
        intros i u Hi.
        destruct (lookup_snoc_sleeping _ _ _ _ Hi) as [Hold|Hnew];
          [eauto | discriminate].
      * injection Hstep as <-.
        apply pass_gate_serial; try assumption; try reflexivity.
        -- apply Hinv.
        -- intros p i u. apply lookup_snoc_sleeping.
    + injection Hstep as <-.
      apply pass_gate_serial; try assumption; try reflexivity.
      * apply Hinv.
      * intros p i u. apply lookup_snoc_sleeping.
  - destruct (tasks w !! i) as [[| | | |]|] eqn:Hi; try discriminate.
    destruct (_semaphore (lim w)) as [[|v]|]; try discriminate.
    injection Hstep as <-.
    apply pass_gate_serial; try assumption; try reflexivity.
    + apply Hinv.
    + intros p. pose proof (count_insert is_sleeping _ _ _ p Hi) as H.
      cbn in H. lia.
    + intros p j u. apply lookup_insert_sleeping.
  - destruct (tasks w !! i) as [[| u | | |]|] eqn:Hi; try discriminate.
    destruct (Qle_bool u (now w)) eqn:Hdue; [|discriminate].
    injection Hstep as <-. apply Qle_bool_iff in Hdue.
    destruct Hinv as (Hr & Hcount & Hsleep & Hspaced & Hlast).
    pose proof (count_insert is_sleeping _ _ _ (Inside (now w)) Hi) as Hins.
    cbn in Hins.
    repeat split; cbn; [assumption | lia | | |].
    + intros j u' Hj.
      destruct (lookup_insert_sleeping _ _ _ _ _ Hj) as [Hold|Hnew];
        [|discriminate].
      assert (Hz : count is_sleeping (<[i:=Inside (now w)]> (tasks w)) = 0) by lia.
      pose proof (count_zero_lookup _ _ _ _ Hz Hj). discriminate.
    + rewrite spaced_snoc, Hspaced. cbn.
      destruct (last (admissions w)) as [a|] eqn:Ha; [|reflexivity].
      rewrite (Hlast a eq_refl). apply Qle_bool_iff.
      specialize (Hsleep i u Hi). revert Hsleep Hdue.
      generalize (1 / r)%Q. intros m ? ?. lra.
    + intros a Ha. rewrite last_snoc in Ha. congruence.
  - destruct (tasks w !! i) as [[| | s | |]|] eqn:Hi; try discriminate.
    injection Hstep as <-.
    destruct Hinv as (Hr & Hcount & Hsleep & Hspaced & Hlast).
    pose proof (count_insert is_sleeping _ _ _ Released Hi) as Hins.
    cbn in Hins.
    repeat split; cbn; [assumption | lia | | assumption | assumption].
    intros j u Hj.
    destruct (lookup_insert_sleeping _ _ _ _ _ Hj) as [Hold|Hnew];
      [eauto | discriminate].
Qed.

Lemma run_serial evs : forall w w',
  serial_inv r w -> serial w evs = true -> run w evs = Some w' ->
  serial_inv r w'.
Proof.
  induction evs as [|ev evs IH]; intros w w' Hinv Hser Hrun; cbn in Hrun.
  - injection Hrun as <-. assumption.
  - cbn in Hser. apply andb_true_iff in Hser as [Hq Hrest].
    destruct (step w ev) as [w1|] eqn:Hstep; [|discriminate].
    eapply IH; [|eassumption|eassumption].
    eapply step_serial; eassumption.
Qed.

End Serial.

Example serial_schedule_spaced :
  Limiter.serial (Limiter.fresh ten_per_second 0) serial_schedule = true
  /\ Limiter.serial (Limiter.fresh ten_per_second 0) race_schedule = false
  /\ Limiter.admissions
       <$> Limiter.run (Limiter.fresh ten_per_second 0) serial_schedule
     = Some [(100 # 1)%Q; (1001 # 10)%Q; (10020 # 100)%Q].
Proof. repeat split; vm_compute; reflexivity. Qed.

Section Clock.
Import Limiter.
Variable r : Q.

Lemma default_last_snoc (log : list Q) (t : Q) :
  default 0%Q (last (log ++ [t])) = t.
Proof. rewrite last_snoc. reflexivity. Qed.

Lemma pass_gate_clock w l (store : phase -> list phase) :
  clock_inv r w ->
  max_rate l = r ->
  _last_call l = _last_call (lim w) ->
  (forall p i u, store p !! i = Some (Sleeping u) ->
                 tasks w !! i = Some (Sleeping u) \/ p = Sleeping u) ->
  clock_inv r (pass_gate w l store).
Proof.
  intros (Hr & Hclock & Hsorted & Hpast & Hlast & Hdue) Hrate Hsame Hlook.
  unfold pass_gate, timing_gate. rewrite Hrate.
  destruct (Qeq_bool r 0).
  { repeat split; cbn; try assumption; try congruence.
    intros i u Hi. rewrite Hsame.
    destruct (Hlook _ _ _ Hi) as [Hold|Hnew]; [eauto | discriminate]. }
  cbn zeta. destruct (Qltb _ _) eqn:Hlt.
  - repeat split; cbn; try assumption; try congruence.
    intros i u Hi.
    destruct (Hlook _ _ _ Hi) as [Hold|Hnew].
    + rewrite Hsame. eauto.
    + injection Hnew as <-. generalize (1 / r)%Q. intros m. lra.
  - repeat split; cbn; [assumption | apply Qle_refl | | | |].
    + rewrite spaced_snoc, Hsorted. cbn.
      destruct (last (admissions w)) as [a|] eqn:Ha; [|reflexivity].
      apply Qle_bool_iff. change (_last_call (lim w) = a) in Hlast.
      rewrite Hlast in Hclock. lra.
    + apply Forall_app. split; [assumption|].
      constructor; [apply Qle_refl | constructor].
    + rewrite default_last_snoc. reflexivity.
    + intros i u Hi.
      destruct (Hlook _ _ _ Hi) as [Hold|Hnew]; [|discriminate].
      specialize (Hdue i u Hold). revert Hdue. generalize (1 / r)%Q.
      intros m Hdue. lra.
Qed.

Lemma step_clock w ev w' :
  clock_inv r w -> step w ev = Some w' -> clock_inv r w'.
Proof.
  intros Hinv Hstep.
  destruct ev as [d| |i|i|i exc]; cbn in Hstep.
  - destruct (Qle_bool 0 d) eqn:Hd; [|discriminate]. injection Hstep as <-.
    apply Qle_bool_iff in Hd.
    destruct Hinv as (Hr & Hclock & Hsorted & Hpast & Hlast & Hdue).
    repeat split; cbn; try assumption; [lra|].
    eapply Forall_impl; [exact Hpast|]. cbn. intros a Ha. lra.
  - destruct (_semaphore (lim w)) as [v|].
    + destruct (Nat.eqb v 0 || existsb is_waiting (tasks w)).
      * injection Hstep as <-.
        destruct Hinv as (Hr & Hclock & Hsorted & Hpast & Hlast & Hdue).
        repeat split; cbn; try assumption.
        intros i u Hi.
        destruct (lookup_snoc_sleeping _ _ _ _ Hi) as [Hold|Hnew];
          [eauto | discriminate].
      * injection Hstep as <-.
        apply pass_gate_clock; try assumption; try reflexivity.
        -- apply Hinv.
        -- intros p i u. apply lookup_snoc_sleeping.
    + injection Hstep as <-.
      apply pass_gate_clock; try assumption; try reflexivity.
      * apply Hinv.
      * intros p i u. apply lookup_snoc_sleeping.
  - destruct (tasks w !! i) as [[| | | |]|] eqn:Hi; try discriminate.
    destruct (_semaphore (lim w)) as [[|v]|]; try discriminate.
    injection Hstep as <-.
    apply pass_gate_clock; try assumption; try reflexivity.
    + apply Hinv.
    + intros p j u. apply lookup_insert_sleeping.
  - destruct (tasks w !! i) as [[| u | | |]|] eqn:Hi; try discriminate.
    destruct (Qle_bool u (now w)) eqn:Hdue'; [|discriminate].
    injection Hstep as <-.
    destruct Hinv as (Hr & Hclock & Hsorted & Hpast & Hlast & Hdue).
    repeat split; cbn; [assumption | apply Qle_refl | | | |].
    + rewrite spaced_snoc, Hsorted. cbn.
      destruct (last (admissions w)) as [a|] eqn:Ha; [|reflexivity].
      apply Qle_bool_iff. change (_last_call (lim w) = a) in Hlast.
      rewrite Hlast in Hclock. lra.
    + apply Forall_app. split; [assumption|].
      constructor; [apply Qle_refl | constructor].
    + rewrite default_last_snoc. reflexivity.
    + intros j u' Hj.
      destruct (lookup_insert_sleeping _ _ _ _ _ Hj) as [Hold|Hnew];
        [|discriminate].
      specialize (Hdue j u' Hold). revert Hdue. generalize (1 / r)%Q.
      intros m Hdue. lra.
  - destruct (tasks w !! i) as [[| | s | |]|] eqn:Hi; try discriminate.
    injection Hstep as <-.
    destruct Hinv as (Hr & Hclock & Hsorted & Hpast & Hlast & Hdue).
    repeat split; cbn; try assumption.
    intros j u Hj.
    destruct (lookup_insert_sleeping _ _ _ _ _ Hj) as [Hold|Hnew];
      [eauto | discriminate].
Qed.

Lemma run_clock evs : forall w w',
  clock_inv r w -> run w evs = Some w' -> clock_inv r w'.
Proof.
  induction evs as [|ev evs IH]; intros w w' Hinv Hrun; cbn in Hrun.
  - injection Hrun as <-. assumption.
  - destruct (step w ev) as [w1|] eqn:Hstep; [|discriminate].
    eapply IH; [|eassumption]. eapply step_clock; eassumption.
Qed.

Lemma init_rate mc l : __init__ r mc = Normal l ->
  max_rate l = r /\ _last_call l = 0%Q.
Proof.
  unfold __init__. intros Hinit.
  destruct mc as [c|]; [|injection Hinit as <-; split; reflexivity].
  destruct (c =? 0)%Z; [injection Hinit as <-; split; reflexivity|].
  destruct (Semaphore c); [|discriminate].
  injection Hinit as <-. split; reflexivity.
Qed.

Lemma fresh_clock mc l t0 :
  __init__ r mc = Normal l -> (0 <= t0)%Q -> clock_inv r (fresh l t0).
Proof.
  intros Hinit Ht0. destruct (init_rate mc l Hinit) as [Hr Hl].
  repeat split; cbn; try assumption; try reflexivity.
  - rewrite Hl. exact Ht0.
  - constructor.
  - intros i u Hi. rewrite lookup_nil in Hi. discriminate.
Qed.

End Clock.

Section Degenerate.
Import Limiter.

(** ** A rate of zero *)

Lemma pass_gate_zero w l (store : phase -> list phase) :
  zero_rate_inv w ->
  max_rate l = max_rate (lim w) ->
  (forall p, p = WaitingSem \/ p = Crashed ZeroDivisionError ->
             Forall (fun q => q = WaitingSem \/ q = Crashed ZeroDivisionError)
               (store p)) ->
  zero_rate_inv (pass_gate w l store).
Proof.
  intros (Hz & Hlog & Htasks) Hrate Hstore.
  unfold pass_gate, timing_gate. rewrite Hrate, Hz.
  repeat split; cbn; [congruence | assumption | apply Hstore; auto].
Qed.

Lemma step_zero w ev w' :
  zero_rate_inv w -> step w ev = Some w' -> zero_rate_inv w'.
Proof.
  intros Hinv Hstep. pose proof Hinv as (Hz & Hlog & Htasks).
  destruct ev as [d| |i|i|i exc]; cbn in Hstep.
  - destruct (Qle_bool 0 d); [|discriminate]. injection Hstep as <-.
    repeat split; assumption.
  - destruct (_semaphore (lim w)) as [v|].
    + destruct (Nat.eqb v 0 || existsb is_waiting (tasks w)).
      * injection Hstep as <-. repeat split; cbn; try assumption.
        apply Forall_app. split; [assumption|]. constructor; auto.
      * injection Hstep as <-. apply pass_gate_zero; [assumption|reflexivity|].
        intros p Hp. apply Forall_app. split; [assumption|]. constructor; auto.
    + injection Hstep as <-. apply pass_gate_zero; [assumption|reflexivity|].
      intros p Hp. apply Forall_app. split; [assumption|]. constructor; auto.
  - destruct (tasks w !! i) as [[| | | |]|] eqn:Hi; try discriminate.
    destruct (_semaphore (lim w)) as [[|v]|]; try discriminate.
    injection Hstep as <-. apply pass_gate_zero; [assumption|reflexivity|].
    intros p Hp. apply Forall_insert; assumption.
  - destruct (tasks w !! i) as [[| u | | |]|] eqn:Hi; try discriminate.
    exfalso. rewrite Forall_forall in Htasks.
    destruct (Htasks (Sleeping u)) as [H|H]; [|discriminate|discriminate].
    apply list_elem_of_lookup. eauto.
  - destruct (tasks w !! i) as [[| | s | |]|] eqn:Hi; try discriminate.
    exfalso. rewrite Forall_forall in Htasks.
    destruct (Htasks (Inside s)) as [H|H]; [|discriminate|discriminate].
    apply list_elem_of_lookup. eauto.
Qed.

Lemma run_zero evs : forall w w',
  zero_rate_inv w -> run w evs = Some w' -> zero_rate_inv w'.
Proof.
  induction evs as [|ev evs IH]; intros w w' Hinv Hrun; cbn in Hrun.
  - injection Hrun as <-. assumption.
  - destruct (step w ev) as [w1|] eqn:Hstep; [|discriminate].
    eapply IH; [|eassumption]. eapply step_zero; eassumption.
Qed.

Lemma count_none f l :
  Forall (fun p => f p = false) l -> count f l = 0.
Proof.
  unfold count. induction 1 as [|p l Hp _ IH]; [reflexivity|].
  cbn. rewrite Hp. exact IH.
Qed.

(** ** A negative rate *)

Lemma Qinv_negative (r : Q) : (r < 0)%Q -> (1 / r < 0)%Q.
Proof.
  destruct r as [[|n|n] d]; unfold Qlt, Qdiv, Qmult, Qinv; cbn; lia.
Qed.

Lemma gate_negative (r : Q) l clock :
  (r < 0)%Q -> max_rate l = r -> (_last_call l <= clock)%Q ->
  timing_gate l clock = (Inside clock, set_last_call clock l).
Proof.
  intros Hr Hrate Hclock. unfold timing_gate. rewrite Hrate.
  destruct (Qeq_bool r 0) eqn:Hz.
  { apply Qeq_bool_iff in Hz. rewrite Hz in Hr. exfalso.
    exact (Qlt_irrefl 0 Hr). }
  cbn zeta. destruct (Qltb _ _) eqn:Hlt; [|reflexivity].
  apply Qltb_lt in Hlt. pose proof (Qinv_negative r Hr). lra.
Qed.

Lemma step_never_waits (r : Q) w ev w' :
  (r < 0)%Q -> never_waits r w -> step w ev = Some w' -> never_waits r w'.
Proof.
  intros Hr (Hrate & Hsem & Hclock & Htasks) Hstep.
  destruct ev as [d| |i|i|i exc]; cbn in Hstep.
  - destruct (Qle_bool 0 d) eqn:Hd; [|discriminate]. injection Hstep as <-.
    apply Qle_bool_iff in Hd. repeat split; cbn; try assumption. lra.
  - rewrite Hsem in Hstep. injection Hstep as <-.
    unfold pass_gate. rewrite (gate_negative r) by assumption.
    repeat split; cbn; try assumption; [apply Qle_refl|].
    apply Forall_app. split; [assumption|]. constructor; auto.
  - rewrite Hsem in Hstep.
    destruct (tasks w !! i) as [[| | | |]|]; discriminate.
  - destruct (tasks w !! i) as [[| u | | |]|] eqn:Hi; try discriminate.
    exfalso. rewrite Forall_forall in Htasks.
    destruct (Htasks (Sleeping u)) as [H|H]; [|discriminate|discriminate].
    apply list_elem_of_lookup. eauto.
  - destruct (tasks w !! i) as [[| | s | |]|] eqn:Hi; try discriminate.
    injection Hstep as <-. rewrite Hsem.
    repeat split; cbn; try assumption.
    apply Forall_insert; [assumption | auto].
Qed.

Lemma run_never_waits (r : Q) evs : forall w w',
  (r < 0)%Q -> never_waits r w -> run w evs = Some w' -> never_waits r w'.
Proof.
  induction evs as [|ev evs IH]; intros w w' Hr Hinv Hrun; cbn in Hrun.
  - injection Hrun as <-. assumption.
  - destruct (step w ev) as [w1|] eqn:Hstep; [|discriminate].
    eapply IH; [assumption| |eassumption]. eapply step_never_waits; eassumption.
Qed.

(** ** No semaphore: a burst of entrants *)

Lemma run_app w evs1 evs2 :
  run w (evs1 ++ evs2)
  = match run w evs1 with Some w1 => run w1 evs2 | None => None end.
Proof.
  revert w. induction evs1 as [|ev evs1 IH]; intros w; [reflexivity|].
  cbn. destruct (step w ev); [apply IH | reflexivity].
Qed.

Lemma run_burst (r : Q) (n : nat) : forall w,
  (0 < r)%Q ->
  max_rate (lim w) = r ->
  _semaphore (lim w) = None ->
  (_last_call (lim w) <= now w)%Q ->
  exists w',
    run w (burst r n) = Some w'
    /\ in_flight w' = in_flight w + n
    /\ length (tasks w') = length (tasks w) + n.
Proof.
  intros w Hr. revert w.
  induction n as [|n IH]; intros w Hrate Hsem Hclock.
  - exists w. cbn. repeat split; lia.
  - assert (Hpos : (0 < 1 / r)%Q).
    { unfold Qdiv. rewrite Qmult_1_l. apply Qinv_lt_0_compat. exact Hr. }
    unfold burst. cbn [repeat concat].
    change (concat (repeat [Tick (1 / r); Enter] n)) with (burst r n).
    cbn [app run step].
    replace (Qle_bool 0 (1 / r)) with true
      by (symmetry; apply Qle_bool_iff; lra).
    cbn [lim now tasks admissions]. rewrite Hsem.
    unfold pass_gate, timing_gate. cbn [now lim]. rewrite Hrate.
    destruct (Qeq_bool r 0) eqn:Hz.
    { apply Qeq_bool_iff in Hz. rewrite Hz in Hr. exfalso.
      exact (Qlt_irrefl 0 Hr). }
    cbn zeta.
    replace (Qltb (now w + 1 / r - _last_call (lim w)) (1 / r)) with false
      by (symmetry; apply Qltb_ge; lra).
    match goal with
    | |- exists w', run ?w1 _ = _ /\ _ =>
        destruct (IH w1) as (w' & Hrun & Hfl & Hlen);
          [exact Hrate | exact Hsem | apply Qle_refl |]
    end.
    exists w'. split; [exact Hrun|].
    unfold in_flight in *. cbn [tasks] in *.
    rewrite count_app in Hfl.
    change (count is_inside [Inside (now w + 1 / r)%Q]) with 1 in Hfl.
    rewrite length_app in Hlen. cbn [length] in Hlen. lia.
Qed.

End Degenerate.

Section NoCap.
Import Limiter.
Variable r : Q.

Lemma step_gate_only w ev w' :
  gate_only r w -> step w ev = Some w' -> gate_only r w'.
Proof.
  intros (Hs & Hr & Hw) Hstep. unfold gate_only.
  destruct ev as [d| |i|i|i exc]; cbn in Hstep.
  - destruct (Qle_bool 0 d); [|discriminate]. injection Hstep as <-. cbn. auto.
  - rewrite Hs in Hstep. unfold pass_gate in Hstep.
    pose proof (timing_gate_spec (lim w) (now w)) as (_ & Hs' & Hr' & Hp).
    destruct (timing_gate _ _) as [p l']. cbn in Hs', Hr', Hp.
    injection Hstep as <-. cbn. repeat split; [congruence | congruence |].
    apply Forall_app. split; [assumption|].
    constructor; [|constructor]. destruct p; cbn; congruence.
  - rewrite Hs in Hstep. destruct (tasks w !! i) as [[| | | |]|]; discriminate.
  - destruct (tasks w !! i) as [[| u | | |]|]; try discriminate.
    destruct (Qle_bool u (now w)); [|discriminate].
    injection Hstep as <-. cbn. repeat split; [assumption | assumption |].
    apply Forall_insert; [assumption | reflexivity].
  - destruct (tasks w !! i) as [[| | s | |]|]; try discriminate.
    injection Hstep as <-. cbn. rewrite Hs. cbn.
    repeat split; [assumption |].
    apply Forall_insert; [assumption | reflexivity].
Qed.

Lemma run_gate_only evs : forall w w',
  gate_only r w -> run w evs = Some w' -> gate_only r w'.
Proof.
  induction evs as [|ev evs IH]; intros w w' Hinv Hrun; cbn in Hrun.
  - injection Hrun as <-. assumption.
  - destruct (step w ev) as [w1|] eqn:Hstep; [|discriminate].
    eapply IH; [|eassumption]. eapply step_gate_only; eassumption.
Qed.

End NoCap.

(** C9, as the code has it. Construction checks nothing about [max_rate]:
    with no concurrency cap it succeeds for every [max_rate], zero and
    negative ones included. For [max_rate > 0] and no cap only the timing
    gate applies: no task ever waits for a slot, and a task that calls
    [__aenter__] sleeps for what is left of the minimum interval since
    [_last_call], or is admitted at once when nothing is left. *)
Theorem limiter_construction_unchecked (r : Q) :
  Limiter.__init__ r None = Normal (Limiter.Limiter r None None 0)
  /\ ((0 < r)%Q ->
      forall (t0 : Q) (evs : list Limiter.event) (w : Limiter.world),
        Limiter.run (Limiter.fresh (Limiter.Limiter r None None 0) t0) evs
        = Some w ->
        Forall (fun p => Limiter.is_waiting p = false) (Limiter.tasks w)
        /\ exists w',
             Limiter.step w Limiter.Enter = Some w'
             /\ Limiter.tasks w'
                = Limiter.tasks w
                  ++ [let since := (Limiter.now w
                                    - Limiter._last_call (Limiter.lim w))%Q in
                      if Qltb since (1 / r)%Q
                      then Limiter.Sleeping
                             (Limiter.now w + (1 / r - since))%Q
                      else Limiter.Inside (Limiter.now w)]).
Proof.
  split; [reflexivity|].
  intros Hr t0 evs w Hrun.
  assert (Hinv : Limiter.gate_only r w).
  { eapply run_gate_only; [|exact Hrun]. repeat split. constructor. }
  destruct Hinv as (Hs & Hrate & Hw). split; [assumption|].
  cbn. rewrite Hs. unfold Limiter.pass_gate, Limiter.timing_gate.
  rewrite Hrate.
  destruct (Qeq_bool r 0) eqn:Hz.
  { apply Qeq_bool_iff in Hz. rewrite Hz in Hr.
    exfalso. exact (Qlt_irrefl 0 Hr). }
  cbn zeta. destruct (Qltb _ _); eexists; split; reflexivity.
Qed.

Lemma limiter_construction_unchecked_witness :
  Forall (fun p => Limiter.is_waiting p = false) (Limiter.tasks race_world)
  /\ exists w',
       Limiter.step race_world Limiter.Enter = Some w'
       /\ Limiter.tasks w'
          = Limiter.tasks race_world
            ++ [Limiter.Sleeping ((1001 # 10) + (1 / (10 # 1)
                                    - ((1001 # 10) - (1001 # 10))))%Q].
Proof.
  apply (proj2 (limiter_construction_unchecked (10 # 1)) ltac:(reflexivity)
           0%Q race_schedule race_world).
  reflexivity.
Defined.

(** C9 as stated fails: a limiter is constructed with [max_rate = 0], and
    with a negative one. *)
Lemma limiter_zero_rate_constructed :
  Limiter.__init__ 0 None = Normal (Limiter.Limiter 0 None None 0)
  /\ Limiter.__init__ (-5 # 1) None
     = Normal (Limiter.Limiter (-5 # 1) None None 0).
Proof. split; reflexivity. Qed.

(** ** The URL pattern *)

Section Regex.
Import Url.

Lemma matches_Void s : matches Void s = false.
Proof. induction s as [|c s IH]; [reflexivity | exact IH]. Qed.

Lemma matches_Eps s : matches Eps s = true -> s = EmptyString.
Proof.
  destruct s as [|c s]; [reflexivity|]. cbn. rewrite matches_Void. discriminate.
Qed.

Lemma append_cons c s t :
  String.append (String c s) t = String c (String.append s t).
Proof. reflexivity. Qed.

Lemma append_empty_l t : String.append EmptyString t = t.
Proof. reflexivity. Qed.

Lemma append_empty_r s : String.append s EmptyString = s.
Proof.
  induction s as [|c s IH]; [reflexivity|].
  change (String c (String.append s EmptyString) = String c s).
  f_equal. exact IH.
Qed.

(** What the smart constructors build matches no more than the plain ones. *)
Lemma alt_elim : forall s r1 r2,
  matches (alt r1 r2) s = true -> matches r1 s = true \/ matches r2 s = true.
Proof.
  induction s as [|c s IH]; intros r1 r2 H.
  - destruct r1, r2; cbn in *; auto; try discriminate;
      apply orb_true_iff in H; tauto.
  - assert (HAlt : matches (Alt r1 r2) (String c s) = true ->
                   matches r1 (String c s) = true
                   \/ matches r2 (String c s) = true).
    { cbn. apply IH. }
    destruct r1, r2; try (apply HAlt; exact H); auto;
      cbn in H; rewrite ?matches_Void in H; try discriminate; auto.
Qed.

Lemma Cat_split : forall s r1 r2,
  matches (Cat r1 r2) s = true ->
  exists s1 s2,
    s = String.append s1 s2 /\ matches r1 s1 = true /\ matches r2 s2 = true.
Proof.
  induction s as [|c s IH]; intros r1 r2 H.
  - cbn in H. apply andb_true_iff in H as [H1 H2].
    exists EmptyString, EmptyString. auto.
  - assert (Hcat : forall q,
              matches (cat q r2) s = true ->
              exists t1 t2, s = String.append t1 t2
                            /\ matches q t1 = true /\ matches r2 t2 = true).
    { intros q Hq.
      destruct q, r2; cbn in Hq; rewrite ?matches_Void in Hq;
        first
          [ discriminate
          | solve [exists EmptyString, s; repeat split; assumption]
          | solve [exists s, EmptyString; rewrite append_empty_r;
                   repeat split; assumption]
          | solve [apply IH; exact Hq] ]. }
    cbn [matches deriv] in H.
    destruct (nullable r1) eqn:Hn.
    + apply alt_elim in H as [H|H].
      * destruct (Hcat _ H) as (t1 & t2 & -> & Ht1 & Ht2).
        exists (String c t1), t2. auto.
      * exists EmptyString, (String c s). auto.
    + destruct (Hcat _ H) as (t1 & t2 & -> & Ht1 & Ht2).
      exists (String c t1), t2. auto.
Qed.

Lemma Alt_elim s r1 r2 :
  matches (Alt r1 r2) s = true -> matches r1 s = true \/ matches r2 s = true.
Proof.
  destruct s as [|c s]; cbn; intros H.
  - apply orb_true_iff in H. exact H.
  - apply alt_elim in H. exact H.
Qed.

Lemma chr_single a s :
  matches (chr a) s = true ->
  exists c, s = String c EmptyString /\ same_letter a c = true.
Proof.
  destruct s as [|c s]; [discriminate|]. cbn. unfold chr.
  destruct (Nat.eqb_spec (lower (code c)) (lower (code a))) as [Heq|_];
    [|rewrite matches_Void; discriminate].
  intros H. apply matches_Eps in H as ->. exists c. split; [reflexivity|].
  unfold same_letter. apply Nat.eqb_eq. congruence.
Qed.

Lemma lit_text p : forall s, matches (lit p) s = true -> same_text p s = true.
Proof.
  induction p as [|a p IH]; intros s H.
  - apply matches_Eps in H as ->. reflexivity.
  - cbn [lit] in H. apply Cat_split in H as (s1 & s2 & -> & H1 & H2).
    apply chr_single in H1 as (c & -> & Hc).
    rewrite append_cons, append_empty_l. cbn [same_text]. rewrite Hc.
    apply IH. exact H2.
Qed.

Lemma starts_with_app p q a t :
  same_text p a = true ->
  starts_with (String.append p q) (String.append a t) = starts_with q t.
Proof.
  revert a. induction p as [|x p IH]; intros [|c a] H; try discriminate;
    [reflexivity|].
  cbn [same_text] in H. apply andb_true_iff in H as [Hc H].
  rewrite !append_cons. cbn [starts_with]. rewrite Hc. apply IH. exact H.
Qed.

Lemma starts_with_longer p s t :
  starts_with p s = true -> starts_with p (String.append s t) = true.
Proof.
  revert s. induction p as [|x p IH]; intros [|c s] H; try discriminate;
    try reflexivity.
  cbn [starts_with] in H. apply andb_true_iff in H as [Hc H].
  rewrite append_cons. cbn [starts_with]. rewrite Hc. apply IH. exact H.
Qed.

Lemma chop_newline_app : forall s b,
  chop_newline s = Some b -> s = String.append b newline.
Proof.
  induction s as [|c s IH]; intros b H; [discriminate|].
  cbn in H. destruct s as [|c' s'].
  - destruct (Nat.eqb_spec (code c) 10) as [Hc|]; [|discriminate].
    injection H as <-. rewrite append_empty_l. unfold newline. f_equal.
    unfold code in Hc. rewrite <- Hc. symmetry. apply ascii_nat_embedding.
  - destruct (chop_newline (String c' s')) as [b'|] eqn:Hb; [|discriminate].
    injection H as <-. rewrite append_cons. f_equal. apply IH. reflexivity.
Qed.

Lemma chop_newline_snoc : forall s,
  chop_newline (String.append s newline) = Some s.
Proof.
  induction s as [|c s IH]; [reflexivity|].
  change (String.append (String c s) newline)
    with (String c (String.append s newline)).
  cbn [chop_newline]. rewrite IH.
  destruct (String.append s newline) eqn:Happ; [|reflexivity].
  destruct s; discriminate.
Qed.

(** *** Classes *)

Lemma classes_impl (P Q : (ascii -> bool) -> Prop) r :
  (forall p, P p -> Q p) -> classes P r -> classes Q r.
Proof. intros HPQ. induction r; cbn; intuition. Qed.

Lemma cat_classes P r s : classes P r -> classes P s -> classes P (cat r s).
Proof. intros Hr Hs. destruct r, s; cbn in *; auto. Qed.

Lemma alt_classes P r s : classes P r -> classes P s -> classes P (alt r s).
Proof. intros Hr Hs. destruct r, s; cbn in *; auto. Qed.

Lemma deriv_classes P c r : classes P r -> classes P (deriv c r).
Proof.
  induction r as [| |p|r1 IH1 r2 IH2|r1 IH1 r2 IH2|r IH|lo hi r IH];
    cbn; intros H; auto.
  - destruct (p c); exact I.
  - destruct H as [H1 H2]. destruct (nullable r1).
    + apply alt_classes; [apply cat_classes|]; auto.
    + apply cat_classes; auto.
  - destruct H as [H1 H2]. apply alt_classes; auto.
  - apply cat_classes; auto.
  - destruct hi; [exact I|]. apply cat_classes; auto.
Qed.

(** A character that every class rejects kills the pattern. *)
Lemma deriv_rejected c r :
  classes (fun p => p c = false) r -> deriv c r = Void.
Proof.
  induction r as [| |p|r1 IH1 r2 IH2|r1 IH1 r2 IH2|r IH|lo hi r IH];
    cbn; intros H; auto.
  - rewrite H. reflexivity.
  - destruct H as [H1 H2]. rewrite IH1, ?IH2 by assumption.
    destruct (nullable r1); reflexivity.
  - destruct H as [H1 H2]. rewrite IH1, IH2 by assumption. reflexivity.
  - rewrite IH by assumption. reflexivity.
  - destruct hi; [reflexivity|]. rewrite IH by assumption. reflexivity.
Qed.

(** Characters that the classes cannot tell apart have the same derivative. *)
Lemma deriv_ext c1 c2 r :
  classes (fun p => p c1 = p c2) r -> deriv c1 r = deriv c2 r.
Proof.
  induction r as [| |p|r1 IH1 r2 IH2|r1 IH1 r2 IH2|r IH|lo hi r IH];
    cbn; intros H; auto.
  - rewrite H. reflexivity.
  - destruct H as [H1 H2]. rewrite IH1, IH2 by assumption. reflexivity.
  - destruct H as [H1 H2]. rewrite IH1, IH2 by assumption. reflexivity.
  - rewrite IH by assumption. reflexivity.
  - destruct hi; [reflexivity|]. rewrite IH by assumption. reflexivity.
Qed.

(** When every class of [r] accepts only characters that satisfy [ok],
    so does every string [r] matches. *)
Lemma matches_all (ok : ascii -> bool) : forall s r,
  classes (fun p => forall c, p c = true -> ok c = true) r ->
  matches r s = true ->
  (fix all s := match s with
                | EmptyString => true
                | String c s' => ok c && all s'
                end) s = true.
Proof.
  induction s as [|c s IH]; intros r Hr H; [reflexivity|].
  cbn [matches] in H.
  destruct (ok c) eqn:Hc.
  - cbn. apply (IH (deriv c r)); [apply deriv_classes; exact Hr | exact H].
  - rewrite deriv_rejected, matches_Void in H; [discriminate|].
    eapply classes_impl; [|exact Hr]. intros p Hp. cbn in Hp.
    destruct (p c) eqn:Hpc; [|reflexivity].
    rewrite (Hp c Hpc) in Hc. discriminate.
Qed.

Lemma matches_same : forall s1 s2 r,
  classes (fun p => forall c1 c2, same_letter c1 c2 = true -> p c1 = p c2) r ->
  same_text s1 s2 = true ->
  matches r s1 = matches r s2.
Proof.
  induction s1 as [|c1 s1 IH]; intros [|c2 s2] r Hr H; try discriminate;
    [reflexivity|].
  cbn in H. apply andb_true_iff in H as [Hc H]. cbn [matches].
  rewrite <- (deriv_ext c1 c2).
  - apply IH; [apply deriv_classes; exact Hr | exact H].
  - eapply classes_impl; [|exact Hr]. intros p Hp. apply Hp. exact Hc.
Qed.

(** *** The classes of [url_pattern] *)

Ltac to_props :=
  repeat (progress rewrite ?andb_true_iff, ?orb_true_iff, ?negb_true_iff,
            ?negb_false_iff, ?orb_false_iff, ?andb_false_iff, ?Nat.leb_le,
            ?Nat.leb_gt, ?Nat.eqb_eq, ?Nat.eqb_neq in *).

Lemma lower_cases n :
  (65 <= n <= 90 /\ lower n = n + 32) \/ ((n < 65 \/ 90 < n) /\ lower n = n).
Proof.
  unfold lower. destruct (Nat.leb 65 n && Nat.leb n 90) eqn:E; to_props; lia.
Qed.

Definition accepts_no_space (p : ascii -> bool) : Prop :=
  forall c, p c = true -> non_space c = true.

Definition ignores_case (p : ascii -> bool) : Prop :=
  forall c1 c2, same_letter c1 c2 = true -> p c1 = p c2.

Lemma same_letter_codes c1 c2 :
  same_letter c1 c2 = true -> lower (code c1) = lower (code c2).
Proof. unfold same_letter. apply Nat.eqb_eq. Qed.

Ltac by_codes :=
  unfold non_space, space, alnum_dash, alnum, alpha, digit, between in *;
  to_props; lia.

Lemma digit_no_space : accepts_no_space digit.
Proof. intros c H. by_codes. Qed.

Lemma alpha_no_space : accepts_no_space alpha.
Proof. intros c H. by_codes. Qed.

Lemma alnum_no_space : accepts_no_space alnum.
Proof. intros c H. by_codes. Qed.

Lemma alnum_dash_no_space : accepts_no_space alnum_dash.
Proof. intros c H. by_codes. Qed.

Lemma non_space_no_space : accepts_no_space non_space.
Proof. intros c H. exact H. Qed.

Lemma non_space_ignores_case : ignores_case non_space.
Proof.
  intros c1 c2 H. apply same_letter_codes in H.
  destruct (lower_cases (code c1)) as [[? ?]|[? ?]],
           (lower_cases (code c2)) as [[? ?]|[? ?]];
    apply eq_true_iff_eq; by_codes.
Qed.

Lemma digit_ignores_case : ignores_case digit.
Proof.
  intros c1 c2 H. apply same_letter_codes in H.
  destruct (lower_cases (code c1)) as [[? ?]|[? ?]],
           (lower_cases (code c2)) as [[? ?]|[? ?]];
    apply eq_true_iff_eq; by_codes.
Qed.

Lemma alpha_ignores_case : ignores_case alpha.
Proof.
  intros c1 c2 H. apply same_letter_codes in H.
  destruct (lower_cases (code c1)) as [[? ?]|[? ?]],
           (lower_cases (code c2)) as [[? ?]|[? ?]];
    apply eq_true_iff_eq; by_codes.
Qed.

Lemma alnum_ignores_case : ignores_case alnum.
Proof.
  intros c1 c2 H. apply same_letter_codes in H.
  destruct (lower_cases (code c1)) as [[? ?]|[? ?]],
           (lower_cases (code c2)) as [[? ?]|[? ?]];
    apply eq_true_iff_eq; by_codes.
Qed.

Lemma alnum_dash_ignores_case : ignores_case alnum_dash.
Proof.
  intros c1 c2 H. apply same_letter_codes in H.
  destruct (lower_cases (code c1)) as [[? ?]|[? ?]],
           (lower_cases (code c2)) as [[? ?]|[? ?]];
    apply eq_true_iff_eq; by_codes.
Qed.

Lemma chr_no_space a :
  non_space a = true -> classes accepts_no_space (chr a).
Proof.
  intros Ha c Hc. apply Nat.eqb_eq in Hc.
  rewrite <- (non_space_ignores_case a c); [exact Ha|].
  unfold same_letter. apply Nat.eqb_eq. congruence.
Qed.

Lemma chr_ignores_case a : classes ignores_case (chr a).
Proof.
  intros c1 c2 H. apply same_letter_codes in H. cbn. rewrite H. reflexivity.
Qed.

Lemma lit_no_space s :
  no_space s = true -> classes accepts_no_space (lit s).
Proof.
  induction s as [|a s IH]; cbn [lit no_space classes]; intros H; [exact I|].
  apply andb_true_iff in H as [Ha Hs]. split; [apply chr_no_space | apply IH];
    assumption.
Qed.

Lemma lit_ignores_case s : classes ignores_case (lit s).
Proof.
  induction s as [|a s IH]; cbn [lit classes]; [exact I|].
  split; [apply chr_ignores_case | exact IH].
Qed.

Lemma url_pattern_no_space : classes accepts_no_space url_pattern.
Proof.
  unfold url_pattern, scheme, domain, localhost, ip, port, path, opt, plus.
  cbn [classes].
  repeat split;
    first [ exact I
          | apply lit_no_space; reflexivity
          | apply chr_no_space; reflexivity
          | exact digit_no_space | exact alpha_no_space
          | exact alnum_no_space | exact alnum_dash_no_space
          | exact non_space_no_space ].
Qed.

Lemma url_pattern_ignores_case : classes ignores_case url_pattern.
Proof.
  unfold url_pattern, scheme, domain, localhost, ip, port, path, opt, plus.
  cbn [classes].
  repeat split;
    first [ exact I
          | apply lit_ignores_case
          | apply chr_ignores_case
          | exact digit_ignores_case | exact alpha_ignores_case
          | exact alnum_ignores_case | exact alnum_dash_ignores_case
          | exact non_space_ignores_case ].
Qed.

Lemma append_assoc s t u :
  String.append (String.append s t) u = String.append s (String.append t u).
Proof.
  induction s as [|c s IH]; [reflexivity|].
  rewrite !append_cons. f_equal. exact IH.
Qed.

Lemma matches_has_scheme s :
  matches url_pattern s = true -> has_scheme s = true.
Proof.
  unfold url_pattern. intros H.
  apply Cat_split in H as (s1 & s2 & -> & H1 & _).
  unfold scheme in H1.
  apply Cat_split in H1 as (a & b & -> & Ha & Hb).
  apply lit_text in Ha.
  apply Cat_split in Hb as (b1 & b2 & -> & Hb1 & Hb2).
  apply lit_text in Hb2. unfold opt in Hb1.
  rewrite !append_assoc. unfold has_scheme. apply orb_true_iff.
  apply Alt_elim in Hb1 as [Hs|He].
  - right. apply chr_single in Hs as (c & -> & Hc).
    change "https://" with (String.append "http" "s://").
    rewrite (starts_with_app _ _ _ _ Ha), append_cons, append_empty_l.
    change (starts_with "s://" (String c (String.append b2 s2)))
      with (same_letter "s" c
            && starts_with (String.append "://" EmptyString)
                 (String.append b2 s2)).
    rewrite Hc, (starts_with_app _ _ _ _ Hb2). reflexivity.
  - left. apply matches_Eps in He as ->. rewrite append_empty_l.
    change "http://"
      with (String.append "http" (String.append "://" EmptyString)).
    rewrite (starts_with_app _ _ _ _ Ha), (starts_with_app _ _ _ _ Hb2).
    reflexivity.
Qed.

Lemma chop_same : forall s1 s2,
  same_text s1 s2 = true ->
  match chop_newline s1, chop_newline s2 with
  | None, None => True
  | Some b1, Some b2 => same_text b1 b2 = true
  | _, _ => False
  end.
Proof.
  induction s1 as [|c1 s1 IH]; intros [|c2 s2] H; try discriminate; [exact I|].
  cbn [same_text] in H. apply andb_true_iff in H as [Hc H].
  destruct s1 as [|d1 s1], s2 as [|d2 s2]; try discriminate.
  - cbn. apply same_letter_codes in Hc.
    destruct (lower_cases (code c1)) as [[? ?]|[? ?]],
             (lower_cases (code c2)) as [[? ?]|[? ?]];
      destruct (Nat.eqb_spec (code c1) 10), (Nat.eqb_spec (code c2) 10);
      try exact I; try reflexivity; lia.
  - specialize (IH _ H).
    change (chop_newline (String c1 (String d1 s1)))
      with (String c1 <$> chop_newline (String d1 s1)).
    change (chop_newline (String c2 (String d2 s2)))
      with (String c2 <$> chop_newline (String d2 s2)).
    destruct (chop_newline (String d1 s1)), (chop_newline (String d2 s2));
      cbn; try exact IH. rewrite Hc. exact IH.
Qed.

End Regex.

(** ** The URL pattern on a few targets *)

Example validate_url_examples :
  map Url.validate_url
    ["https://example.com"; "https://a.test/x"; "http://localhost:8080/a?b";
     "http://1.2.3.4/"; "HTTP://EXAMPLE.COM."; String.append "https://python.org" (String "010"%char EmptyString);
     "invalid_url"; "not a url"; "ftp://a.test"; "http://a-.test";
     "http://a.test/x y"]
  = [true; true; true; true; true; true;
     false; false; false; false; false].
Proof. vm_compute. reflexivity. Qed.

(** ** The crawlers *)

Section MonadFacts.
Import Crawl.
Context {A B : Type}.

Lemma bind_lift_normal (a : A) (f : A -> M B) :
  bind (lift (Normal a)) f = f a.
Proof. unfold bind, lift. cbn. destruct (f a); reflexivity. Qed.

Lemma bind_lift_throw (e : exn) (f : A -> M B) :
  bind (lift (Throw e)) f = ([], Throw e).
Proof. reflexivity. Qed.

Lemma bind_ret (a : A) (f : A -> M B) : bind (ret a) f = f a.
Proof. apply bind_lift_normal. Qed.

Lemma bind_normal (m : M A) (f : A -> M B) (t : list io) (b : B) :
  bind m f = (t, Normal b) ->
  exists t1 a t2,
    m = (t1, Normal a) /\ f a = (t2, Normal b) /\ t = t1 ++ t2.
Proof.
  destruct m as [t1 [a|e]]; unfold bind; cbn; intros H; [|discriminate].
  destruct (f a) as [t2 r] eqn:Hf. cbn in H. injection H as <- ->.
  exists t1, a, t2. auto.
Qed.

End MonadFacts.

Lemma bind_emit {B : Type} (ev : Crawl.io) (f : unit -> Crawl.M B) :
  Crawl.bind (Crawl.emit ev) f = (ev :: (f tt).1, (f tt).2).
Proof. reflexivity. Qed.

Section CrawlFacts.
Import Crawl.

Lemma getattr_set (self : object) (name : string) (v : pyval) :
  attrs self !! name = Some v -> getattr self name = Normal v.
Proof. intros H. unfold getattr. rewrite H. reflexivity. Qed.

Lemma as_strings_strs (urls : list string) :
  as_strings (PStr <$> urls) = Normal urls.
Proof.
  induction urls as [|u urls IH]; [reflexivity|].
  cbn [fmap list_fmap as_strings] in *. rewrite IH. reflexivity.
Qed.

(** What the constructors leave in the instance. *)
Lemma base_init_attrs (c : class) (urls : list string) (mw : Z) (name : string) :
  attrs (BaseCrawler_init c urls mw) !! name
  = if String.eqb name "logger" then Some (PLogger (class_name c))
    else if String.eqb name "max_workers" then Some (PInt mw)
    else if String.eqb name "urls" then Some (PList (PStr <$> urls))
    else None.
Proof.
  unfold BaseCrawler_init, setattr. cbn [attrs cls].
  destruct (String.eqb_spec name "logger") as [->|H1];
    [apply lookup_insert_eq|].
  rewrite lookup_insert_ne by congruence.
  destruct (String.eqb_spec name "max_workers") as [->|H2];
    [apply lookup_insert_eq|].
  rewrite lookup_insert_ne by congruence.
  destruct (String.eqb_spec name "urls") as [->|H3];
    [apply lookup_insert_eq|].
  rewrite lookup_insert_ne by congruence. apply lookup_empty.
Qed.

Lemma base_get_urls (c : class) (urls : list string) (mw : Z) :
  get_urls (BaseCrawler_init c urls mw) = ([], Normal urls).
Proof.
  unfold get_urls. rewrite (getattr_set _ _ (PList (PStr <$> urls)))
    by (rewrite base_init_attrs; reflexivity).
  rewrite bind_lift_normal. unfold lift. rewrite as_strings_strs. reflexivity.
Qed.

End CrawlFacts.

Section Constructed.
Import Crawl.
Variable backend : string -> nat -> reply.
Variables (urls : list string) (mw : Z).

(** No constructor sets [max_retries], [timeout] or [_log_error], and no
    class defines them. *)
Lemma base_missing (c : class) (name : string) :
  name = "max_retries" \/ name = "timeout" \/ name = "_log_error" ->
  getattr (BaseCrawler_init c urls mw) name = Throw (AttributeError name).
Proof.
  intros Hname. unfold getattr. rewrite base_init_attrs.
  destruct Hname as [-> | [-> | ->]]; destruct c; reflexivity.
Qed.

Lemma new_async : new AsyncCrawler urls mw = Normal (async_self urls mw).
Proof. reflexivity. Qed.

Lemma async_missing (name : string) :
  name = "max_retries" \/ name = "timeout" \/ name = "_log_error" ->
  getattr (async_self urls mw) name = Throw (AttributeError name).
Proof.
  intros Hname. unfold getattr, async_self, setattr. cbn [attrs cls].
  rewrite lookup_insert_ne
    by (destruct Hname as [-> | [-> | ->]]; discriminate).
  rewrite base_init_attrs.
  destruct Hname as [-> | [-> | ->]]; reflexivity.
Qed.

Lemma async_rate_limiter :
  getattr (async_self urls mw) "rate_limiter"
  = Normal (PLimiter (Limiter.Limiter (10 # 1) None None 0)).
Proof. apply getattr_set. apply lookup_insert_eq. Qed.

(** The fetch of a freshly constructed AsyncCrawler: one admission, then
    the missing attribute. *)
Lemma async_fetch_unconfigured (url : string) :
  async_fetch_url backend (async_self urls mw) url
  = ([Acquire url; Release url], Throw (AttributeError "max_retries")).
Proof.
  unfold async_fetch_url. rewrite async_rate_limiter, bind_lift_normal.
  cbn [Limiter.max_rate]. change (Qeq_bool (10 # 1) 0) with false.
  cbn iota. rewrite bind_emit. unfold finally, retry_range.
  rewrite async_missing by auto. reflexivity.
Qed.

Lemma thread_fetch_unconfigured (url : string) :
  _fetch_url_thread backend (BaseCrawler_init ThreadedCrawler urls mw) url
  = ([], Throw (AttributeError "max_retries")).
Proof.
  unfold _fetch_url_thread, retry_range.
  rewrite base_missing by auto. reflexivity.
Qed.

Lemma async_get_urls :
  get_urls (async_self urls mw) = ret urls.
Proof.
  unfold get_urls. rewrite (getattr_set _ _ (PList (PStr <$> urls))).
  - rewrite bind_lift_normal. unfold lift. rewrite as_strings_strs. reflexivity.
  - unfold async_self, setattr. cbn [attrs].
    rewrite lookup_insert_ne by discriminate.
    rewrite base_init_attrs. reflexivity.
Qed.

(** [gather] re-raises when its first task raised. *)
Lemma gather_first_raises {A : Type} (m : M A) (ms : list (M A)) (e : exn) :
  m.2 = Throw e -> (gather (m :: ms)).2 = Throw e.
Proof.
  intros Hm. cbn [gather]. destruct (gather ms) as [t r].
  rewrite Hm. reflexivity.
Qed.

(** So does the crawl of a freshly constructed AsyncCrawler, whenever it
    has a target at all. *)
Lemma async_crawl_unconfigured :
  urls <> [] ->
  (async_crawl backend (async_self urls mw)).2
  = Throw (AttributeError "max_retries").
Proof.
  intros Hne. unfold async_crawl. rewrite async_get_urls, bind_ret.
  assert (Hg : forall us, us <> [] ->
            (gather (fetch_with_metadata backend (async_self urls mw) <$> us)).2
            = Throw (AttributeError "max_retries")).
  { intros [|u us] Hus; [congruence|]. cbn [fmap list_fmap].
    apply gather_first_raises. unfold fetch_with_metadata.
    rewrite async_fetch_unconfigured. reflexivity. }
  unfold bind at 1. rewrite Hg by assumption. reflexivity.
Qed.

End Constructed.

(** C10. A crawler built by the public constructor has no [max_retries]
    and no [timeout] attribute, in the instance or in its classes. So
    every [AsyncCrawler.fetch_url] and every
    [ThreadedCrawler._fetch_url_thread], for every URL and every network,
    raises AttributeError at [range(self.max_retries)], before any request
    is made (the asynchronous one after it went through the rate limiter). *)
Theorem unconfigured_crawlers_raise (backend : string -> nat -> Crawl.reply)
    (urls : list string) (max_workers : Z) (url : string) :
  (exists self,
      Crawl.new Crawl.AsyncCrawler urls max_workers = Normal self
      /\ Crawl.getattr self "max_retries" = Throw (AttributeError "max_retries")
      /\ Crawl.getattr self "timeout" = Throw (AttributeError "timeout")
      /\ (Crawl.async_fetch_url backend self url).2
         = Throw (AttributeError "max_retries")
      /\ Crawl.requests_made (Crawl.async_fetch_url backend self url).1 = 0)
  /\ (exists self,
      Crawl.new Crawl.ThreadedCrawler urls max_workers = Normal self
      /\ Crawl.getattr self "max_retries" = Throw (AttributeError "max_retries")
      /\ Crawl.getattr self "timeout" = Throw (AttributeError "timeout")
      /\ (Crawl._fetch_url_thread backend self url).2
         = Throw (AttributeError "max_retries")
      /\ Crawl.requests_made (Crawl._fetch_url_thread backend self url).1 = 0).
Proof.
  split.
  - exists (async_self urls max_workers).
    rewrite async_fetch_unconfigured, !async_missing by auto.
    repeat split; reflexivity.
  - exists (Crawl.BaseCrawler_init Crawl.ThreadedCrawler urls max_workers).
    rewrite thread_fetch_unconfigured, !base_missing by auto.
    repeat split; reflexivity.
Qed.

Section RetryLoop.
Import Crawl.
Context {A : Type}.
Variable backend : string -> nat -> reply.
Variable bad_status : Z -> bool.
Variable wrap : string -> A.
Variable self : object.
Variable url : string.
Variables (n : Z) (t : pyval).

Hypothesis Hretries : getattr self "max_retries" = Normal (PInt n).
Hypothesis Htimeout : getattr self "timeout" = Normal t.
Hypothesis Hlog : getattr self "_log_error" = Normal PCallable.

(** Every reply to a request for [url] is a response that
    [raise_for_status] rejects. *)
Hypothesis Hbad : forall k, exists s text,
  backend url k = Response s text /\ bad_status s = true.




End RetryLoop.




Ltac inv_bind H :=
  let t1 := fresh "t" in
  let a := fresh "a" in
  let t2 := fresh "t" in
  let H1 := fresh "Hm" in
  apply bind_normal in H as (t1 & a & t2 & H1 & H & ->).

(** C8 (the code does not do this). For the malformed target "not a url"
    [SequentialCrawler.crawl] returns a list of one element, the empty
    dictionary: an outcome that is neither a Success nor a structured
    Failure and carries neither the target nor an error. The repository's
    own test of invalid targets (test_crawler_invalid_urls) expects no
    such element in the output. *)
Lemma malformed_target_yields_empty_outcome :
  returned (Crawl.seq_crawl ok_backend no_jobs
              (sequential_crawler ["not a url"]))
  = Some [∅]
  /\ Crawl.fully_populated ∅ = false.
Proof. split; vm_compute; reflexivity. Qed.

(** C3 (the code does not do this). Only [SequentialCrawler.fetch_url]
    calls [validate_url]. For the malformed target "not a url":
    [AsyncCrawler.fetch_url] goes through the rate limiter first (one
    admission), on a freshly constructed crawler and on a configured one
    alike, and the configured one then sends the request, so that with a
    backend that always succeeds the three targets give three Success
    outcomes; [ThreadedCrawler] sends the request too. The sequential
    strategy does what is claimed: no request for the malformed target, two
    Success outcomes. *)
Theorem malformed_target_not_rejected :
  Url.validate_url "not a url" = false
  /\ Crawl.new Crawl.AsyncCrawler three_targets 5
     = Normal (async_crawler three_targets)
  /\ Crawl.async_fetch_url ok_backend (async_crawler three_targets) "not a url"
     = ([Crawl.Acquire "not a url"; Crawl.Release "not a url"],
        Throw (AttributeError "max_retries"))
  /\ Crawl.admissions_for "not a url"
       (Crawl.async_crawl ok_backend
          (configured (async_crawler three_targets))).1 = 1
  /\ Crawl.requests_for "not a url"
       (Crawl.async_crawl ok_backend
          (configured (async_crawler three_targets))).1 = 1
  /\ Crawl.success_targets
       <$> returned (Crawl.async_crawl ok_backend
                       (configured (async_crawler three_targets)))
     = Some [Crawl.PStr "https://a.test/x"; Crawl.PStr "not a url";
             Crawl.PStr "https://a.test/y"]
  /\ Crawl.requests_for "not a url"
       (Crawl.threaded_crawl ok_backend
          (configured (threaded_crawler three_targets))).1 = 1
  /\ Crawl.requests_for "not a url"
       (Crawl.seq_crawl ok_backend no_jobs
          (sequential_crawler three_targets)).1 = 0
  /\ Crawl.success_targets
       <$> returned (Crawl.seq_crawl ok_backend no_jobs
                       (sequential_crawler three_targets))
     = Some [Crawl.PStr "https://a.test/x"; Crawl.PStr "https://a.test/y"].
Proof. repeat split; vm_compute; reflexivity. Qed.

(** C4 (the code does not do this). For the single target
    "https://a.test/x" and a backend that always answers 200 with a body,
    [SequentialCrawler.crawl] returns one Success, for that target, while
    [AsyncCrawler.crawl] on the crawler its constructor builds raises
    AttributeError and returns no list. With the retry attributes set by
    hand the two still differ: for an empty body the sequential strategy
    reports a Success and the asynchronous one drops the target. *)
Theorem strategies_disagree :
  Crawl.success_targets
    <$> returned (Crawl.seq_crawl ok_backend no_jobs
                    (sequential_crawler ["https://a.test/x"]))
  = Some [Crawl.PStr "https://a.test/x"]
  /\ Crawl.new Crawl.AsyncCrawler ["https://a.test/x"] 5
     = Normal (async_crawler ["https://a.test/x"])
  /\ (Crawl.async_crawl ok_backend (async_crawler ["https://a.test/x"])).2
     = Throw (AttributeError "max_retries")
  /\ Crawl.success_targets
       <$> returned (Crawl.seq_crawl empty_backend no_jobs
                       (sequential_crawler ["https://a.test/x"]))
     = Some [Crawl.PStr "https://a.test/x"]
  /\ Crawl.success_targets
       <$> returned (Crawl.async_crawl empty_backend
                       (configured (async_crawler ["https://a.test/x"])))
     = Some [].
Proof. repeat split; vm_compute; reflexivity. Qed.

(** ** Retries that end in a success *)

Section RetrySuccess.
Import Crawl.
Context {A : Type}.
Variable backend : string -> nat -> reply.
Variable bad_status : Z -> bool.
Variable wrap : string -> A.
Variable self : object.
Variable url : string.
Variables (n : Z) (t : pyval).

Hypothesis Hretries : getattr self "max_retries" = Normal (PInt n).
Hypothesis Htimeout : getattr self "timeout" = Normal t.
Hypothesis Hlog : getattr self "_log_error" = Normal PCallable.

(** The client rejects every status from 400 to 599. *)
Hypothesis Hbad : forall s, (400 <= s < 600)%Z -> bad_status s = true.



End RetrySuccess.






(** ** What the crawls return *)

Section Outputs.
Import Crawl.

Lemma gather_normal {A : Type} : forall (ms : list (M A)) t l,
  gather ms = (t, Normal l) -> Forall2 (fun m a => m.2 = Normal a) ms l.
Proof.
  induction ms as [|m ms IH]; intros t l H; cbn [gather] in H.
  - injection H as <- <-. constructor.
  - destruct (gather ms) as [t' r] eqn:Hg.
    destruct m as [tm [a|e]]; cbn in H; [|discriminate].
    destruct r as [l'|e]; [|discriminate].
    injection H as <- <-. constructor; [reflexivity|]. eapply IH. reflexivity.
Qed.

(** The outcomes kept by [[result for result in results if result]] are,
    in order, outcomes of some of the targets. *)
Lemma kept_outcomes (P : string -> dict -> Prop) :
  (forall u d, P u d -> d !! "url" = Some (PStr u)) ->
  forall urls results,
    Forall2 (fun u r => forall d, r = Some d -> P u d) urls results ->
    sublist (targets_of (omap id results)) urls
    /\ length (targets_of (omap id results)) = length (omap id results)
    /\ Forall (fun d => exists u, u ∈ urls /\ P u d) (omap id results).
Proof.
  intros Hurl. induction 1 as [|u r urls results Hr _ IH].
  - repeat split; constructor.
  - destruct IH as (Hsub & Hlen & Hall).
    assert (Hall' : Forall (fun d => exists v, v ∈ u :: urls /\ P v d)
                      (omap id results)).
    { eapply Forall_impl; [exact Hall|]. intros d (v & Hv & HP).
      exists v. split; [right; exact Hv | exact HP]. }
    destruct r as [d|].
    + specialize (Hr d eq_refl).
      assert (Hkeep : omap id (Some d :: results) = d :: omap id results)
        by reflexivity.
      rewrite Hkeep.
      assert (Htarget : targets_of (d :: omap id results)
                        = u :: targets_of (omap id results)).
      { unfold targets_of. cbn [omap list_omap]. rewrite (Hurl u d Hr).
        reflexivity. }
      rewrite Htarget. repeat split.
      * apply sublist_skip. exact Hsub.
      * cbn [length]. f_equal. exact Hlen.
      * constructor; [|exact Hall'].
        exists u. split; [left | exact Hr].
    + assert (Hdrop : omap id (None :: results) = omap id results)
        by reflexivity.
      rewrite Hdrop.
      repeat split; [apply sublist_cons; exact Hsub | exact Hlen | exact Hall'].
Qed.

Variable backend : string -> nat -> reply.

Lemma attempts_wraps {A : Type} (bad : Z -> bool) (wrap : string -> A)
    (self : object) (url : string) : forall todo k t r,
  attempts backend bad wrap self url todo k = (t, Normal (Some r)) ->
  exists text, r = wrap text.
Proof.
  induction todo as [|attempt rest IH]; intros k t r H; cbn [attempts] in H.
  - discriminate.
  - assert (Hon_error : forall t',
      (let* _ := call_log_error self url in
       let* last := is_last_attempt self attempt in
       if (last : bool) then ret None
       else attempts backend bad wrap self url rest (S k))
      = (t', Normal (Some r)) -> exists text, r = wrap text).
    { intros t' H'. inv_bind H'. inv_bind H'.
      destruct a0; [discriminate | eapply IH; exact H']. }
    inv_bind H. inv_bind H.
    destruct (backend url k) as [s text|msg]; [|eapply Hon_error; exact H].
    destruct (bad s); [eapply Hon_error; exact H|].
    injection H as <- <-. eauto.
Qed.

Lemma fetch_with_metadata_normal self url t r :
  fetch_with_metadata backend self url = (t, Normal r) ->
  forall d, r = Some d ->
  exists text, text <> EmptyString /\ d = page url text.
Proof.
  unfold fetch_with_metadata. intros H d ->. inv_bind H.
  destruct a as [text|]; [|discriminate].
  destruct text as [|c text]; [discriminate|].
  injection H as <- <-. exists (String c text). split; [discriminate|reflexivity].
Qed.

Lemma thread_fetch_normal self url t r :
  _fetch_url_thread backend self url = (t, Normal r) ->
  forall d, r = Some d -> exists text, d = page url text.
Proof.
  unfold _fetch_url_thread. intros H d ->. inv_bind H.
  apply attempts_wraps in H as (text & ->). exists text. reflexivity.
Qed.

End Outputs.

(** ** The sequential crawl, event by event *)

Section SequentialTrace.
Import Crawl.
Variable backend : string -> nat -> reply.
Variable job_postings : string -> list (option string).
Variables (urls : list string) (mw : Z).

Let self : object := BaseCrawler_init SequentialCrawler urls mw.

Lemma titles_of_length jobs ts :
  titles_of jobs = Normal ts -> length ts = length jobs.
Proof.
  revert ts. induction jobs as [|j jobs IH]; intros ts H; cbn in H.
  - injection H as <-. reflexivity.
  - destruct j as [title|]; [|discriminate].
    destruct (titles_of jobs) as [ts'|e]; [|discriminate].
    injection H as <-. cbn. f_equal. apply IH. reflexivity.
Qed.

Lemma titles_of_missing jobs :
  None ∈ jobs -> titles_of jobs = Throw (AttributeError "text").
Proof.
  induction jobs as [|j jobs IH]; intros Hin.
  - apply elem_of_nil in Hin. contradiction.
  - destruct j as [title|]; [|reflexivity].
    apply elem_of_cons in Hin as [Hin|Hin]; [discriminate|].
    cbn. rewrite (IH Hin). reflexivity.
Qed.

Lemma titles_of_raises jobs e :
  titles_of jobs = Throw e -> e = AttributeError "text".
Proof.
  induction jobs as [|j jobs IH]; cbn; intros H; [discriminate|].
  destruct j as [title|]; [|congruence].
  destruct (titles_of jobs) as [ts|e']; [discriminate|].
  injection H as <-. apply IH. reflexivity.
Qed.

(** What one fetch of a freshly constructed SequentialCrawler does, cut
    down to the timeout, the reply and the page. *)
Lemma seq_fetch_constructed (url : string) :
  seq_fetch_url backend job_postings self url
  = if Url.validate_url url then
      if (0 <? mw)%Z then
        match backend url 0 with
        | Failure msg =>
            ([Sleep 1; Request url (PInt mw);
              Log "error" ("Error fetching " ++ url ++ ": " ++ msg)],
             Normal (<["url" := PStr url]> (<["error" := PStr msg]> ∅)))
        | Response s text =>
            if requests_bad_status s then
              ([Sleep 1; Request url (PInt mw);
                Log "error" ("Error fetching " ++ url ++ ": " ++ "HTTPError")],
               Normal (<["url" := PStr url]>
                       (<["error" := PStr "HTTPError"]> ∅)))
            else
              match titles_of (job_postings text) with
              | Normal titles =>
                  ([Sleep 1; Request url (PInt mw)],
                   Normal (<["url" := PStr url]>
                           (<["status_code" := PInt s]>
                           (<["job_count" :=
                                PInt (Z.of_nat (length (job_postings text)))]>
                           (<["titles" := PList titles]> ∅)))))
              | Throw e => ([Sleep 1; Request url (PInt mw)], Throw e)
              end
        end
      else ([Sleep 1], Throw ValueError)
    else ([Log "warning" ("Invalid URL: " ++ url)], Normal ∅).
Proof.
  unfold seq_fetch_url, seq_on_error, self.
  rewrite (getattr_set _ "logger" (PLogger "SequentialCrawler"))
    by (rewrite base_init_attrs; reflexivity).
  rewrite (getattr_set _ "max_workers" (PInt mw))
    by (rewrite base_init_attrs; reflexivity).
  destruct (Url.validate_url url); cbn [negb]; [|reflexivity].
  rewrite bind_emit, bind_lift_normal. cbn [requests_timeout].
  destruct (0 <? mw)%Z; [|reflexivity].
  rewrite bind_lift_normal, bind_emit.
  destruct (backend url 0) as [s text|msg]; [|reflexivity].
  destruct (requests_bad_status s); [reflexivity|].
  destruct (titles_of (job_postings text)); reflexivity.
Qed.

(** A fetch that returns has slept and then sent its request, for a
    well-formed target, and has done neither for a malformed one. *)
Lemma seq_fetch_pacing (url : string) (t : list io) (d : dict) :
  seq_fetch_url backend job_postings self url = (t, Normal d) ->
  pacing t
  = if Url.validate_url url then [Sleep 1; Request url (PInt mw)] else [].
Proof.
  rewrite seq_fetch_constructed.
  destruct (Url.validate_url url); [|intros [= <- _]; reflexivity].
  destruct (0 <? mw)%Z; [|discriminate].
  destruct (backend url 0) as [s text|msg]; [|intros [= <- _]; reflexivity].
  destruct (requests_bad_status s); [intros [= <- _]; reflexivity|].
  destruct (titles_of (job_postings text)); [|discriminate].
  intros [= <- _]. reflexivity.
Qed.

Lemma seq_fetch_raises (url : string) (e : exn) :
  (0 < mw)%Z ->
  (seq_fetch_url backend job_postings self url).2 = Throw e ->
  e = AttributeError "text".
Proof.
  intros Hmw. rewrite seq_fetch_constructed.
  destruct (Url.validate_url url); [|discriminate].
  destruct (Z.ltb_spec 0 mw) as [_|Hle]; [|lia].
  destruct (backend url 0) as [s text|msg]; [|discriminate].
  destruct (requests_bad_status s); [discriminate|].
  destruct (titles_of (job_postings text)) as [ts|e'] eqn:Ht; [discriminate|].
  cbn. intros H. injection H as <-. eapply titles_of_raises. exact Ht.
Qed.

Lemma for_each_pacing : forall l t out,
  for_each (seq_fetch_url backend job_postings self) l = (t, Normal out) ->
  pacing t
  = flat_map (fun url => [Sleep 1; Request url (PInt mw)])
      (List.filter Url.validate_url l).
Proof.
  induction l as [|url l IH]; intros t out H; cbn [for_each] in H.
  - injection H as <- <-. reflexivity.
  - inv_bind H. inv_bind H. injection H as <- <-.
    unfold pacing in *. rewrite app_nil_r, List.filter_app.
    rewrite (IH _ _ Hm0). fold (pacing t0). rewrite (seq_fetch_pacing _ _ _ Hm).
    cbn [List.filter]. destruct (Url.validate_url url); reflexivity.
Qed.

End SequentialTrace.

Section ForEachRaises.
Import Crawl.
Context {A B : Type}.
Variable f : A -> M B.

Lemma for_each_raises_from : forall l e,
  (for_each f l).2 = Throw e -> exists a, a ∈ l /\ (f a).2 = Throw e.
Proof.
  induction l as [|x l IH]; intros e H; cbn [for_each] in H; [discriminate|].
  unfold bind at 1 in H. destruct (f x) as [tx [b|e']] eqn:Hx; cbn in H.
  - unfold bind at 1 in H.
    destruct (for_each f l) as [tl [bs|e'']] eqn:Hl; cbn in H; [discriminate|].
    injection H as ->. destruct (IH e eq_refl) as (a & Ha & Hfa).
    exists a. split; [right; exact Ha | exact Hfa].
  - injection H as ->. exists x. split; [left | rewrite Hx; reflexivity].
Qed.

Lemma for_each_raises (e : exn) : forall l a,
  (forall x e', (f x).2 = Throw e' -> e' = e) ->
  a ∈ l -> (f a).2 = Throw e -> (for_each f l).2 = Throw e.
Proof.
  intros l a Honly Hin Ha.
  induction l as [|x l IH]; [apply elem_of_nil in Hin; contradiction|].
  cbn [for_each]. unfold bind at 1.
  destruct (f x) as [tx [b|e']] eqn:Hx; cbn [fst snd].
  - apply elem_of_cons in Hin as [->|Hin].
    + rewrite Hx in Ha. discriminate.
    + specialize (IH Hin). unfold bind.
      destruct (for_each f l) as [tl [bs|e'']]; cbn in *; congruence.
  - f_equal. apply (Honly x). rewrite Hx. reflexivity.
Qed.

End ForEachRaises.

Section ThreadedConstructed.
Import Crawl.
Variable backend : string -> nat -> reply.
Variables (urls : list string) (mw : Z).

Lemma threaded_crawl_unconfigured :
  urls <> [] ->
  (threaded_crawl backend (BaseCrawler_init ThreadedCrawler urls mw)).2
  = Throw (AttributeError "max_retries").
Proof.
  intros Hne. unfold threaded_crawl.
  rewrite base_get_urls.
  change (@pair (list io) (completion (list string)) [] (Normal urls))
    with (ret urls).
  rewrite bind_ret.
  assert (Hg : forall us, us <> [] ->
            (gather (_fetch_url_thread backend
                       (BaseCrawler_init ThreadedCrawler urls mw) <$> us)).2
            = Throw (AttributeError "max_retries")).
  { intros [|u us] Hus; [congruence|]. cbn [fmap list_fmap].
    apply gather_first_raises. rewrite thread_fetch_unconfigured. reflexivity. }
  unfold bind at 1. rewrite Hg by assumption. reflexivity.
Qed.

End ThreadedConstructed.

(** ** The application's choice of crawler *)

Section AppFacts.
Import Crawl.

Lemma crawler_class_cases (mode : string) :
  App.crawler_class mode
  = if String.eqb mode "sequential" then SequentialCrawler
    else if String.eqb mode "threaded" then ThreadedCrawler
    else AsyncCrawler.
Proof.
  unfold App.crawler_class, App.crawler_map.
  destruct (String.eqb_spec mode "sequential") as [->|H1];
    [rewrite lookup_insert_eq; reflexivity|].
  rewrite lookup_insert_ne by congruence.
  destruct (String.eqb_spec mode "threaded") as [->|H2];
    [rewrite lookup_insert_eq; reflexivity|].
  rewrite lookup_insert_ne by congruence.
  destruct (String.eqb_spec mode "async") as [->|H3];
    [rewrite lookup_insert_eq; reflexivity|].
  rewrite lookup_insert_ne by congruence. rewrite lookup_empty. reflexivity.
Qed.

Variable backend : string -> nat -> reply.
Variable job_postings : string -> list (option string).

Lemma seq_crawl_raises (urls : list string) (mw : Z) (e : exn) :
  (0 < mw)%Z ->
  (seq_crawl backend job_postings
     (BaseCrawler_init SequentialCrawler urls mw)).2 = Throw e ->
  e = AttributeError "text".
Proof.
  intros Hmw. unfold seq_crawl. rewrite base_get_urls.
  change (@pair (list io) (completion (list string)) [] (Normal urls))
    with (ret urls).
  rewrite bind_ret. intros H.
  apply for_each_raises_from in H as (url & _ & H).
  eapply seq_fetch_raises; [exact Hmw | exact H].
Qed.

Lemma await_sequential (urls : list string) :
  (await_crawl backend job_postings SequentialCrawler urls).2 = Throw TypeError
  \/ (await_crawl backend job_postings SequentialCrawler urls).2
     = Throw (AttributeError "text").
Proof.
  unfold await_crawl.
  change (new SequentialCrawler urls 5)
    with (Normal (BaseCrawler_init SequentialCrawler urls 5)).
  rewrite bind_lift_normal. unfold bind.
  destruct (seq_crawl backend job_postings
              (BaseCrawler_init SequentialCrawler urls 5))
    as [t [out|e]] eqn:Hcrawl; cbn [fst snd].
  - left. reflexivity.
  - right. f_equal. apply (seq_crawl_raises urls 5); [lia|].
    rewrite Hcrawl. reflexivity.
Qed.

Lemma await_unconfigured (c : class) (url : string) (rest : list string) :
  c <> SequentialCrawler ->
  (await_crawl backend job_postings c (url :: rest)).2
  = Throw (AttributeError "max_retries").
Proof.
  intros Hc. unfold await_crawl. destruct c; [congruence| |].
  - change (new ThreadedCrawler (url :: rest) 5)
      with (Normal (BaseCrawler_init ThreadedCrawler (url :: rest) 5)).
    rewrite bind_lift_normal. apply threaded_crawl_unconfigured. discriminate.
  - rewrite new_async, bind_lift_normal.
    apply async_crawl_unconfigured. discriminate.
Qed.

End AppFacts.

(** ** The aggregator *)

Section AggregateFacts.
Import Aggregate.

Lemma and_then_normal {A B : Type} (m : completion A)
    (k : A -> completion B) (b : B) :
  and_then m k = Normal b -> exists a, m = Normal a /\ k a = Normal b.
Proof. destruct m as [a|e]; cbn; [eauto | discriminate]. Qed.

Lemma and_then_throw {A B : Type} (m : completion A)
    (k : A -> completion B) (x : exn) :
  and_then m k = Throw x ->
  m = Throw x \/ exists a, m = Normal a /\ k a = Throw x.
Proof. destruct m as [a|e]; cbn; [eauto | intros [= ->]; auto]. Qed.

Lemma traverse_normal {A B : Type} (f : A -> completion B) (l : list A)
    (ys : list B) :
  traverse f l = Normal ys <-> Forall2 (fun a b => f a = Normal b) l ys.
Proof.
  revert ys. induction l as [|a l IH]; intros ys; cbn.
  - split.
    + intros [= <-]. constructor.
    + intros H. inversion H. reflexivity.
  - split.
    + intros H. apply and_then_normal in H as (y & Hy & H).
      apply and_then_normal in H as (ys' & Hys & H). injection H as <-.
      constructor; [exact Hy | apply IH, Hys].
    + intros H. inversion H as [|? b ? ys' Hb Hrest]; subst.
      rewrite Hb. cbn. apply IH in Hrest. rewrite Hrest. reflexivity.
Qed.

Lemma traverse_throw {A B : Type} (f : A -> completion B) (l : list A)
    (x : exn) :
  traverse f l = Throw x -> exists a, a ∈ l /\ f a = Throw x.
Proof.
  induction l as [|a l IH]; cbn; [discriminate|].
  intros H. apply and_then_throw in H as [H | (y & Hy & H)].
  - exists a. split; [left | exact H].
  - apply and_then_throw in H as [H | (ys & Hys & H)]; [|discriminate].
    destruct (IH H) as (a' & Hin & Ha'). exists a'. split; [right; exact Hin | exact Ha'].
Qed.

Lemma default_Some {A : Type} (d x : A) : default d (Some x) = x.
Proof. reflexivity. Qed.

(** Ordered dicts. *)

Lemma getitem_setitem {V : Type} (k : atom) (v : V) (d : odict V) :
  getitem k (setitem k v d) = Some v.
Proof.
  induction d as [|[k' v'] d IH]; cbn.
  - destruct (decide (k = k)); [reflexivity | contradiction].
  - destruct (decide (k = k')) as [->|Hne]; cbn.
    + destruct (decide (k' = k')); [reflexivity | contradiction].
    + destruct (decide (k = k')); [contradiction | exact IH].
Qed.

Lemma getitem_setitem_ne {V : Type} (k k' : atom) (v : V) (d : odict V) :
  k <> k' -> getitem k' (setitem k v d) = getitem k' d.
Proof.
  intros Hne. induction d as [|[k0 v0] d IH]; cbn.
  - destruct (decide (k' = k)); [congruence | reflexivity].
  - destruct (decide (k = k0)) as [->|Hk]; cbn.
    + destruct (decide (k' = k0)); [congruence | reflexivity].
    + destruct (decide (k' = k0)); [reflexivity | exact IH].
Qed.

Lemma getitem_None {V : Type} (k : atom) (d : odict V) :
  getitem k d = None <-> k ∉ d.*1.
Proof.
  induction d as [|[k' v'] d IH]; cbn.
  - split; [intros _; apply not_elem_of_nil | reflexivity].
  - destruct (decide (k = k')) as [->|Hne].
    + split; [discriminate | intros H; exfalso; apply H; left].
    + rewrite IH. rewrite not_elem_of_cons. tauto.
Qed.

Lemma getitem_is_Some {V : Type} (k : atom) (d : odict V) :
  is_Some (getitem k d) <-> k ∈ d.*1.
Proof.
  destruct (getitem k d) as [v|] eqn:E.
  - split; [intros _ | eauto].
    destruct (decide (k ∈ d.*1)) as [|Hn]; [assumption|].
    apply getitem_None in Hn. congruence.
  - split; [intros [? [=]] | intros Hin].
    apply getitem_None in E. contradiction.
Qed.

Lemma getitem_elem_of {V : Type} (k : atom) (v : V) (d : odict V) :
  getitem k d = Some v -> (k, v) ∈ d.
Proof.
  induction d as [|[k' v'] d IH]; cbn; [discriminate|].
  destruct (decide (k = k')) as [->|Hne].
  - intros [= ->]. left.
  - intros H. right. exact (IH H).
Qed.

Lemma elem_of_getitem {V : Type} (k : atom) (v : V) (d : odict V) :
  NoDup d.*1 -> (k, v) ∈ d -> getitem k d = Some v.
Proof.
  induction d as [|[k' v'] d IH]; cbn; intros Hnd Hin.
  - apply elem_of_nil in Hin. contradiction.
  - apply NoDup_cons in Hnd as [Hk' Hnd].
    apply elem_of_cons in Hin as [[= -> ->] | Hin].
    + destruct (decide (k' = k')); [reflexivity | contradiction].
    + destruct (decide (k = k')) as [->|Hne]; [|exact (IH Hnd Hin)].
      exfalso. apply Hk'. apply list_elem_of_fmap. exists (k', v). auto.
Qed.

Lemma setitem_keys {V : Type} (k : atom) (v : V) (d : odict V) :
  (setitem k v d).*1 = if contains k d then d.*1 else d.*1 ++ [k].
Proof.
  unfold contains. induction d as [|[k' v'] d IH]; cbn; [reflexivity|].
  destruct (decide (k = k')) as [->|Hne]; cbn; [reflexivity|].
  rewrite IH. destruct (getitem k d); reflexivity.
Qed.

Lemma contains_elem_of {V : Type} (k : atom) (d : odict V) :
  contains k d = true <-> k ∈ d.*1.
Proof.
  rewrite <- getitem_is_Some. unfold contains.
  destruct (getitem k d); split; eauto; try discriminate.
  intros [? [=]].
Qed.

Lemma setitem_elem_of {V : Type} (k k' : atom) (v : V) (d : odict V) :
  k' ∈ (setitem k v d).*1 <-> k' = k \/ k' ∈ d.*1.
Proof.
  rewrite setitem_keys. destruct (contains k d) eqn:E.
  - apply contains_elem_of in E. split; [auto | intros [->|]; assumption].
  - rewrite elem_of_app, list_elem_of_singleton. tauto.
Qed.

Lemma setitem_NoDup {V : Type} (k : atom) (v : V) (d : odict V) :
  NoDup d.*1 -> NoDup (setitem k v d).*1.
Proof.
  intros Hnd. rewrite setitem_keys. destruct (contains k d) eqn:E; [exact Hnd|].
  apply NoDup_app. split; [exact Hnd|]. split; [|apply NoDup_singleton].
  intros x Hx Hx'. apply list_elem_of_singleton in Hx'. subst x.
  apply contains_elem_of in Hx. congruence.
Qed.

Lemma setitem_length {V : Type} (k : atom) (v : V) (d : odict V) :
  length d <= length (setitem k v d).
Proof.
  induction d as [|[k' v'] d IH]; cbn; [lia|].
  destruct (decide (k = k')); cbn; lia.
Qed.

(** Counters. *)

Lemma count_of_setitem (k k' : atom) (n : nat) (c : odict nat) :
  count_of k' (setitem k n c) = if decide (k' = k) then n else count_of k' c.
Proof.
  unfold count_of. destruct (decide (k' = k)) as [->|Hne].
  - rewrite getitem_setitem. reflexivity.
  - rewrite getitem_setitem_ne by congruence. reflexivity.
Qed.

Lemma sum_setitem (k : atom) (c : odict nat) :
  sum_list (setitem k (default 0 (getitem k c) + 1) c).*2
  = S (sum_list c.*2).
Proof.
  induction c as [|[k' n] c IH]; cbn; [reflexivity|].
  destruct (decide (k = k')) as [->|Hne]; cbn; [lia|].
  rewrite IH. lia.
Qed.

Lemma occurrences_cons (k a : atom) (ks : list atom) :
  occurrences k (a :: ks)
  = (if decide (k = a) then 1 else 0) + occurrences k ks.
Proof.
  unfold occurrences. cbn. destruct (decide (k = a)) as [->|Hne].
  - rewrite bool_decide_eq_true_2 by reflexivity. reflexivity.
  - rewrite bool_decide_eq_false_2 by congruence. reflexivity.
Qed.

Lemma occurrences_pos (k : atom) (ks : list atom) :
  1 <= occurrences k ks <-> k ∈ ks.
Proof.
  induction ks as [|a ks IH].
  - cbn. split; [lia | intros H; apply elem_of_nil in H; contradiction].
  - rewrite occurrences_cons, elem_of_cons. destruct (decide (k = a)).
    + split; [auto | lia].
    + rewrite <- IH. split; [intros; right; lia | intros [|]; [contradiction | lia]].
Qed.

Lemma occurrences_app (k : atom) (l1 l2 : list atom) :
  occurrences k (l1 ++ l2) = occurrences k l1 + occurrences k l2.
Proof.
  unfold occurrences. rewrite List.filter_app, length_app. reflexivity.
Qed.

Lemma count_elements_spec (xs : list value) :
  forall c c',
    count_elements c xs = Normal c' ->
    exists ks,
      traverse hash xs = Normal ks
      /\ (forall k, count_of k c' = count_of k c + occurrences k ks)
      /\ (NoDup c.*1 -> NoDup c'.*1)
      /\ (forall k, k ∈ c'.*1 <-> k ∈ c.*1 \/ k ∈ ks)
      /\ sum_list c'.*2 = sum_list c.*2 + length ks.
Proof.
  induction xs as [|x xs IH]; intros c c' H; cbn in H.
  - injection H as <-. exists []. cbn.
    split; [reflexivity|]. split; [intros; unfold occurrences; cbn; lia|].
    split; [auto|]. split; [|lia].
    intros k. rewrite elem_of_nil. tauto.
  - apply and_then_normal in H as (a & Ha & H).
    destruct (IH _ _ H) as (ks & Hks & Hcount & Hnd & Hin & Hsum).
    exists (a :: ks). cbn [traverse]. rewrite Ha, Hks. cbn [and_then length].
    split; [reflexivity|]. split; [|split; [|split]].
    + intros k. rewrite Hcount, count_of_setitem, occurrences_cons.
      destruct (decide (k = a)) as [->|]; [|lia].
      unfold count_of. lia.
    + intros Hc. apply Hnd, setitem_NoDup, Hc.
    + intros k. rewrite Hin, setitem_elem_of, elem_of_cons. tauto.
    + rewrite Hsum, sum_setitem. lia.
Qed.

Lemma count_elements_returns (xs : list value) (ks : list atom) :
  traverse hash xs = Normal ks ->
  forall c, exists c', count_elements c xs = Normal c'.
Proof.
  revert ks. induction xs as [|x xs IH]; intros ks H c; cbn in *.
  - eauto.
  - apply and_then_normal in H as (a & Ha & H).
    apply and_then_normal in H as (ks' & Hks & _).
    rewrite Ha. cbn. eapply IH, Hks.
Qed.

Lemma count_elements_throw (xs : list value) (x : exn) :
  forall c, count_elements c xs = Throw x -> x = TypeError.
Proof.
  induction xs as [|v xs IH]; intros c H; cbn in H; [discriminate|].
  apply and_then_throw in H as [H | (a & _ & H)].
  - destruct v; cbn in H; congruence.
  - exact (IH _ H).
Qed.

Lemma traverse_hash_throw (xs : list value) (x : exn) :
  traverse hash xs = Throw x -> x = TypeError.
Proof.
  intros H. apply traverse_throw in H as (v & _ & H).
  destruct v; cbn in H; congruence.
Qed.

Lemma traverse_hash_atoms (ks : list atom) :
  traverse hash (Atom <$> ks) = Normal ks.
Proof.
  induction ks as [|k ks IH]; cbn; [reflexivity|]. rewrite IH. reflexivity.
Qed.

(** The greatest count. *)

Lemma py_max_spec (items : list (atom * nat)) :
  forall best,
  exists pre post,
    best :: items = pre ++ py_max best items :: post
    /\ Forall (fun x => x.2 < (py_max best items).2) pre
    /\ Forall (fun x => x.2 <= (py_max best items).2) post.
Proof.
  induction items as [|x items IH]; intros best; cbn [py_max].
  - exists [], []. repeat split; constructor.
  - destruct (Nat.ltb best.2 x.2) eqn:E;
      [apply Nat.ltb_lt in E as Hlt | apply Nat.ltb_ge in E as Hge].
    + destruct (IH x) as (pre & post & Heq & Hpre & Hpost).
      exists (best :: pre), post. rewrite Heq. split; [reflexivity|].
      split; [|exact Hpost]. constructor; [|exact Hpre].
      assert (Hx : x.2 <= (py_max x items).2).
      { assert (Hin : x ∈ pre ++ py_max x items :: post)
          by (rewrite <- Heq; left).
        apply elem_of_app in Hin as [Hin|Hin].
        - rewrite Forall_forall in Hpre. specialize (Hpre _ Hin). lia.
        - apply elem_of_cons in Hin as [Hx|Hin]; [rewrite <- Hx; lia|].
          rewrite Forall_forall in Hpost. exact (Hpost _ Hin). }
      lia.
    + destruct (IH best) as (pre & post & Heq & Hpre & Hpost).
      destruct pre as [|p pre].
      * injection Heq as Hb Hitems. rewrite <- Hb in Hpost.
        rewrite <- Hitems in Hpost.
        exists [], (x :: items). rewrite <- Hb.
        split; [reflexivity|]. split; [constructor|].
        constructor; [lia | exact Hpost].
      * injection Heq as Hb Hitems. subst p.
        apply Forall_cons in Hpre as [Hbest Hpre].
        exists (best :: x :: pre), post.
        split; [cbn [app]; do 2 f_equal; exact Hitems|].
        split; [|exact Hpost].
        constructor; [exact Hbest|]. constructor; [lia | exact Hpre].
Qed.

(** Sets of hashable values. *)

Lemma size_list_to_set_le (l : list atom) :
  size (list_to_set l : gset atom) <= length l.
Proof.
  induction l as [|a l IH]; cbn [length].
  - rewrite list_to_set_nil, size_empty. lia.
  - rewrite list_to_set_cons, size_union_alt, size_singleton.
    assert (size (list_to_set l ∖ {[a]} : gset atom)
            <= size (list_to_set l : gset atom)).
    { apply subseteq_size. intros x Hx.
      apply elem_of_difference in Hx as [Hx _]. exact Hx. }
    lia.
Qed.

Lemma size_list_to_set_zero (l : list atom) :
  size (list_to_set l : gset atom) = 0 <-> l = [].
Proof.
  split.
  - intros H. apply size_empty_iff in H. destruct l as [|a l]; [reflexivity|].
    exfalso. apply (not_elem_of_empty (C:=gset atom) a). rewrite <- H.
    apply elem_of_list_to_set. left.
  - intros ->. rewrite list_to_set_nil. apply size_empty.
Qed.

Lemma size_keys (c : odict nat) (ks : list atom) :
  NoDup c.*1 -> (forall k, k ∈ c.*1 <-> k ∈ ks) ->
  size (list_to_set ks : gset atom) = length c.
Proof.
  intros Hnd Hin.
  assert (E : (list_to_set ks : gset atom) = list_to_set c.*1).
  { apply set_eq. intros k. rewrite !elem_of_list_to_set. symmetry. apply Hin. }
  rewrite E, size_list_to_set by exact Hnd. apply length_fmap.
Qed.

(** The titles of a list of pages. *)

Lemma titles_traverse (data_list : list entry) (tss : list (list atom)) :
  Forall2 titled data_list tss ->
  traverse (fun e => iterate (get e "titles" (VList []))) data_list
  = Normal (fmap (M:=list) Atom <$> tss).
Proof.
  intros H. apply traverse_normal. induction H as [|e ts l tss He _ IH].
  - constructor.
  - cbn. constructor; [|exact IH]. unfold titled in He. rewrite He. reflexivity.
Qed.

Lemma concat_atoms (tss : list (list atom)) :
  concat (fmap (M:=list) Atom <$> tss) = Atom <$> concat tss.
Proof.
  induction tss as [|ts tss IH]; cbn; [reflexivity|].
  rewrite IH, fmap_app. reflexivity.
Qed.

(** The distribution of types. *)

Lemma hash_normal (v : value) (a : atom) : hash v = Normal a -> v = Atom a.
Proof. destruct v; cbn; congruence. Qed.

Lemma of_type_cons (t a : atom) (e : entry) (rest : list entry) :
  type_of e = Atom a ->
  of_type t (e :: rest)
  = if decide (a = t) then e :: of_type t rest else of_type t rest.
Proof.
  intros He. unfold of_type. cbn [List.filter]. unfold has_type at 1.
  rewrite He. destruct (decide (a = t)) as [->|Hne].
  - rewrite bool_decide_eq_true_2 by reflexivity. reflexivity.
  - rewrite bool_decide_eq_false_2 by exact Hne. reflexivity.
Qed.

Lemma types_occurrences (xs : list entry) :
  forall ks, traverse hash (type_of <$> xs) = Normal ks ->
  forall t, occurrences t ks = length (of_type t xs).
Proof.
  induction xs as [|e xs IH]; intros ks H t; cbn in H.
  - injection H as <-. reflexivity.
  - apply and_then_normal in H as (a & Ha & H).
    apply and_then_normal in H as (ks' & Hks' & H). injection H as <-.
    apply hash_normal in Ha. rewrite occurrences_cons, (of_type_cons _ _ _ _ Ha).
    rewrite (IH _ Hks' t).
    destruct (decide (t = a)) as [->|Hne].
    + destruct (decide (a = a)); [reflexivity | contradiction].
    + destruct (decide (a = t)); [congruence | reflexivity].
Qed.

Lemma cross_source_spec (parsed_data : list entry) (s : summary) :
  _cross_source_aggregation parsed_data = Normal s ->
  exists dist u,
    s = Cross (length parsed_data) dist u
    /\ NoDup dist.*1
    /\ (forall t, count_of t dist = length (of_type t parsed_data))
    /\ sum_list dist.*2 = length parsed_data
    /\ u <= length parsed_data
    /\ (u = 0 <-> parsed_data = []).
Proof.
  unfold _cross_source_aggregation, Counter, set. intros H.
  apply and_then_normal in H as (dist & Hdist & H).
  apply and_then_normal in H as (sources & Hsources & H).
  apply and_then_normal in Hsources as (urls & Hurls & Hs).
  injection Hs as <-. injection H as <-.
  destruct (count_elements_spec _ _ _ Hdist)
    as (ks & Hks & Hcount & Hnd & _ & Hsum).
  assert (Hlen : length urls = length parsed_data).
  { apply traverse_normal, Forall2_length in Hurls.
    rewrite length_fmap in Hurls. congruence. }
  assert (Hlen' : length ks = length parsed_data).
  { apply traverse_normal, Forall2_length in Hks.
    rewrite length_fmap in Hks. congruence. }
  eexists dist, _. split; [reflexivity|].
  split; [apply Hnd; constructor|].
  split; [intros t; rewrite Hcount; apply (types_occurrences _ _ Hks)|].
  split; [rewrite Hsum; cbn; exact Hlen'|].
  split; [rewrite <- Hlen; apply size_list_to_set_le|].
  rewrite size_list_to_set_zero. split.
  - intros ->. destruct parsed_data; [reflexivity | discriminate].
  - intros ->. destruct urls; [reflexivity | discriminate].
Qed.

(** The categories. *)

Lemma categorize_loop_spec (xs : list entry) :
  forall c c',
    categorize_loop c xs = Normal c' ->
    (forall t, default [] (getitem t c')
               = default [] (getitem t c) ++ of_type t xs)
    /\ (NoDup c.*1 -> NoDup c'.*1)
    /\ (forall t, t ∈ c'.*1 <-> t ∈ c.*1 \/ of_type t xs <> []).
Proof.
  induction xs as [|e xs IH]; intros c c' H; cbn in H.
  - injection H as <-. split; [intros t; rewrite app_nil_r; reflexivity|].
    split; [auto|]. intros t. cbn. tauto.
  - apply and_then_normal in H as (a & Ha & H). apply hash_normal in Ha.
    set (c1 := if contains a c then c else setitem a [] c) in H.
    assert (Hget : default [] (getitem a c1) = default [] (getitem a c)).
    { unfold c1. destruct (contains a c) eqn:E; [reflexivity|].
      rewrite getitem_setitem. unfold contains in E.
      destruct (getitem a c); [discriminate | reflexivity]. }
    assert (Hother : forall t, t <> a -> getitem t c1 = getitem t c).
    { intros t Ht. unfold c1. destruct (contains a c); [reflexivity|].
      apply getitem_setitem_ne. congruence. }
    assert (Hkeys : forall t, t ∈ c1.*1 <-> t = a \/ t ∈ c.*1).
    { intros t. unfold c1. destruct (contains a c) eqn:E.
      - apply contains_elem_of in E. split; [auto | intros [->|]; assumption].
      - apply setitem_elem_of. }
    assert (Hnd1 : NoDup c.*1 -> NoDup c1.*1).
    { intros Hc. unfold c1. destruct (contains a c); [exact Hc|].
      apply setitem_NoDup, Hc. }
    destruct (IH _ _ H) as (Hcat & Hnd & Hin).
    split; [|split].
    + intros t. rewrite Hcat, (of_type_cons _ _ _ _ Ha).
      destruct (decide (a = t)) as [<-|Hne].
      * rewrite getitem_setitem, default_Some, Hget, <- app_assoc.
        reflexivity.
      * rewrite getitem_setitem_ne by exact Hne.
        rewrite Hother by congruence. reflexivity.
    + intros Hc. apply Hnd, setitem_NoDup, Hnd1, Hc.
    + intros t. rewrite Hin, setitem_elem_of, Hkeys, (of_type_cons _ _ _ _ Ha).
      destruct (decide (a = t)) as [<-|Hne].
      * split; [intros _; right; discriminate | auto].
      * split; [intros [[|[|]]|]; auto; congruence | intros [|]; auto].
Qed.

Lemma categorize_spec (parsed_data : list entry) (c : odict (list entry)) :
  _categorize_data parsed_data = Normal c ->
  NoDup c.*1
  /\ forall t,
       (of_type t parsed_data = [] -> getitem t c = None)
       /\ (of_type t parsed_data <> []
           -> getitem t c = Some (of_type t parsed_data)).
Proof.
  intros H. destruct (categorize_loop_spec _ _ _ H) as (Hcat & Hnd & Hin).
  split; [apply Hnd; constructor|]. intros t. split.
  - intros Ht. apply getitem_None. rewrite Hin, Ht. cbn.
    rewrite elem_of_nil. tauto.
  - intros Ht. assert (Hk : t ∈ c.*1) by (apply Hin; auto).
    apply getitem_is_Some in Hk as [l Hl].
    specialize (Hcat t). rewrite Hl in Hcat. cbn in Hcat. congruence.
Qed.

Lemma aggregate_loop_spec (items : list (atom * list entry)) :
  forall a a',
    NoDup items.*1 ->
    aggregate_loop a items = Normal a' ->
    forall t,
      match getitem t items with
      | Some l => exists s, _aggregate_by_type t l = Normal s
                            /\ getitem t a' = Some s
      | None => getitem t a' = getitem t a
      end.
Proof.
  induction items as [|[k l] items IH]; intros a a' Hnd H t; cbn in H.
  - injection H as <-. reflexivity.
  - apply and_then_normal in H as (s & Hs & H).
    cbn in Hnd. apply NoDup_cons in Hnd as [Hk Hnd].
    specialize (IH _ _ Hnd H t). cbn [getitem].
    destruct (decide (t = k)) as [->|Hne].
    + apply getitem_None in Hk. rewrite Hk in IH.
      exists s. split; [exact Hs|]. rewrite IH. apply getitem_setitem.
    + destruct (getitem t items); [exact IH|].
      rewrite IH. apply getitem_setitem_ne. congruence.
Qed.

Lemma aggregate_by_type_sources (t : atom) (l : list entry) (s : summary) :
  _aggregate_by_type t l = Normal s -> sources_of s = length l.
Proof.
  unfold _aggregate_by_type.
  destruct (decide (t = AStr "html")); [|destruct (decide (t = AStr "json"))].
  - unfold _aggregate_html. intros H.
    apply and_then_normal in H as (? & _ & H).
    apply and_then_normal in H as (? & _ & H).
    apply and_then_normal in H as (? & _ & H). injection H as <-. reflexivity.
  - unfold _aggregate_json. intros H.
    apply and_then_normal in H as (? & _ & H). injection H as <-. reflexivity.
  - intros [= <-]. reflexivity.
Qed.

(** The JSON summary. *)

Lemma keys_normal (v : value) (ks : list string) :
  keys v = Normal ks -> exists items, v = VDict items /\ ks = items.*1.
Proof. destruct v; cbn; try discriminate. intros [= <-]. eauto. Qed.

Lemma keys_throw (v : value) (x : exn) :
  keys v = Throw x ->
  x = AttributeError "keys" /\ forall items, v <> VDict items.
Proof.
  destruct v; cbn; try discriminate; intros [= <-]; split; congruence.
Qed.

Lemma aggregate_json_spec (data_list : list entry) :
  match _aggregate_json data_list with
  | Normal s =>
      exists dicts,
        Forall2 (fun e items => get e "raw_data" (VDict []) = VDict items)
          data_list dicts
        /\ s = Json (length data_list) (list_to_set (concat dicts).*1)
                 (length (concat dicts))
  | Throw x =>
      x = AttributeError "keys"
      /\ exists e v, e ∈ data_list /\ e !! "raw_data" = Some v
                     /\ forall items, v <> VDict items
  end.
Proof.
  unfold _aggregate_json.
  destruct (traverse keys _) as [ks|x] eqn:E; cbn [and_then].
  - apply traverse_normal in E.
    assert (H : exists dicts,
      Forall2 (fun e items => get e "raw_data" (VDict []) = VDict items)
        data_list dicts
      /\ concat ks = (concat dicts).*1
      /\ sum_list (len_or_one
           <$> ((fun e => get e "raw_data" (VDict [])) <$> data_list))
         = length (concat dicts)).
    { clear -E. revert ks E. induction data_list as [|e l IH]; intros ks E.
      - inversion E; subst. exists []. split; [constructor | split; reflexivity].
      - cbn in E. inversion E as [|? k ? ks' Hk Hrest]; subst.
        destruct (IH _ Hrest) as (dicts & Hd & Hc & Hs).
        apply keys_normal in Hk as (items & Hitems & ->).
        exists (items :: dicts). split; [constructor; assumption|].
        cbn. rewrite Hitems. cbn [len_or_one].
        rewrite fmap_app, length_app, Hc. split; [reflexivity|].
        cbn in Hs. rewrite Hs. reflexivity. }
    destruct H as (dicts & Hd & Hc & Hs). exists dicts.
    split; [exact Hd|]. rewrite Hc, Hs. reflexivity.
  - apply traverse_throw in E as (v & Hin & Hv).
    apply keys_throw in Hv as [-> Hv]. split; [reflexivity|].
    apply list_elem_of_fmap in Hin as (e & -> & Hin).
    exists e. unfold get in Hv. destruct (e !! "raw_data") as [v|] eqn:Ev.
    + exists v. auto.
    + exfalso. exact (Hv [] eq_refl).
Qed.

Lemma aggregate_by_type_json (l : list entry) :
  _aggregate_by_type (AStr "json") l = _aggregate_json l.
Proof.
  unfold _aggregate_by_type.
  destruct (decide (AStr "json" = AStr "html")); [discriminate|].
  destruct (decide (AStr "json" = AStr "json")); [reflexivity | contradiction].
Qed.

(** Which exceptions the aggregator raises. *)

Lemma aggregate_by_type_throw (t : atom) (l : list entry) (x : exn) :
  _aggregate_by_type t l = Throw x -> aggregator_error x.
Proof.
  unfold _aggregate_by_type.
  destruct (decide (t = AStr "html")); [|destruct (decide (t = AStr "json"))].
  - unfold _aggregate_html. intros H. left.
    apply and_then_throw in H as [H | (? & _ & H)].
    { apply traverse_throw in H as (e' & _ & H).
      destruct (get e' "titles" (VList [])) as [[]| |]; cbn in H; congruence. }
    apply and_then_throw in H as [H | (? & _ & H)].
    { exact (count_elements_throw _ _ _ H). }
    apply and_then_throw in H as [H | (? & _ & H)]; [|discriminate].
    unfold set in H. apply and_then_throw in H as [H | (? & _ & H)];
      [exact (traverse_hash_throw _ _ H) | discriminate].
  - intros H. pose proof (aggregate_json_spec l) as Hj. rewrite H in Hj.
    right. apply Hj.
  - discriminate.
Qed.

Lemma aggregate_throw (parsed_data : list entry) (x : exn) :
  aggregate parsed_data = Throw x -> aggregator_error x.
Proof.
  unfold aggregate. intros H.
  apply and_then_throw in H as [H | (c & _ & H)].
  { left. unfold _categorize_data in H. revert H. generalize ([] : odict (list entry)).
    induction parsed_data as [|e l IH]; intros c H; cbn in H; [discriminate|].
    apply and_then_throw in H as [H | (a & _ & H)].
    - destruct (type_of e); cbn in H; congruence.
    - exact (IH _ H). }
  apply and_then_throw in H as [H | (a & _ & H)].
  { revert H. generalize ([] : odict summary).
    induction c as [|[k l] c IH]; intros a H; cbn in H; [discriminate|].
    apply and_then_throw in H as [H | (s & _ & H)].
    - exact (aggregate_by_type_throw _ _ _ H).
    - exact (IH _ H). }
  apply and_then_throw in H as [H | (s & _ & H)]; [|discriminate].
  left. unfold _cross_source_aggregation in H.
  apply and_then_throw in H as [H | (? & _ & H)].
  { exact (count_elements_throw _ _ _ H). }
  apply and_then_throw in H as [H | (? & _ & H)]; [|discriminate].
  unfold set in H. apply and_then_throw in H as [H | (? & _ & H)];
    [exact (traverse_hash_throw _ _ H) | discriminate].
Qed.

(** What [aggregate] returns. *)

Lemma aggregate_normal (parsed_data : list entry) (r : odict summary) :
  aggregate parsed_data = Normal r ->
  exists a s,
    _cross_source_aggregation parsed_data = Normal s
    /\ r = setitem (AStr "cross_source") s a
    /\ forall t,
         match getitem t a with
         | Some s' => of_type t parsed_data <> []
                      /\ _aggregate_by_type t (of_type t parsed_data)
                         = Normal s'
         | None => of_type t parsed_data = []
         end.
Proof.
  unfold aggregate. intros H.
  apply and_then_normal in H as (c & Hc & H).
  apply and_then_normal in H as (a & Ha & H).
  apply and_then_normal in H as (s & Hs & H). injection H as <-.
  exists a, s. split; [exact Hs|]. split; [reflexivity|]. intros t.
  destruct (categorize_spec _ _ Hc) as (Hnd & Hcat).
  pose proof (aggregate_loop_spec _ _ _ Hnd Ha t) as Hloop.
  destruct (Hcat t) as (Hnone & Hsome).
  destruct (of_type t parsed_data) as [|e l] eqn:E.
  - rewrite Hnone in Hloop by reflexivity. rewrite Hloop. reflexivity.
  - rewrite Hsome in Hloop by discriminate.
    destruct Hloop as (s' & Hs' & Hget). rewrite Hget.
    split; [discriminate | exact Hs'].
Qed.

Lemma elem_of_of_type (t : atom) (e : entry) (parsed_data : list entry) :
  e ∈ parsed_data -> e !! "type" = Some (Atom t) ->
  e ∈ of_type t parsed_data.
Proof.
  intros Hin Ht. apply list_elem_of_In, List.filter_In.
  split; [apply list_elem_of_In, Hin|].
  unfold has_type, type_of, get. rewrite Ht. cbn.
  apply bool_decide_eq_true_2. reflexivity.
Qed.

End AggregateFacts.

(** * Part III: further properties of the same code *)

(** ** ErrorHandler.retry *)

(** X1. The wrapped function is never invoked more than [max_attempts]
    times (never at all when [max_attempts <= 0]), whatever it does. *)
Theorem retry_calls_bounded {A E : Type} (exceptions : E -> bool)
    (func : nat -> Retry.outcome A E) (max_attempts : Z) (backoff delay : Q) :
  (Z.of_nat (Retry.calls (Retry.wrapper exceptions func max_attempts backoff delay))
   <= Z.max 0 max_attempts)%Z.
Proof.
  unfold Retry.wrapper.
  pose proof (loop_calls_bound exceptions func max_attempts backoff
                (Retry.range max_attempts) 0 delay []) as H.
  assert (Hlen : length (Retry.range max_attempts) = Z.to_nat max_attempts)
    by (unfold Retry.range; rewrite length_map, length_seq; reflexivity).
  rewrite Hlen in H. lia.
Qed.

(** X2. With [max_attempts <= 0] the wrapper never invokes the function:
    it falls off its loop at once and returns [None], without sleeping,
    whatever the function would do. With [max_attempts >= 1] it never
    falls off the loop: it ends by returning what the function returned
    or by raising. *)
Theorem retry_returns_none_iff {A E : Type} (exceptions : E -> bool)
    (func : nat -> Retry.outcome A E) (max_attempts : Z) (backoff delay : Q) :
  ((max_attempts <= 0)%Z ->
   Retry.wrapper exceptions func max_attempts backoff delay
   = Retry.Run Retry.ReturnedNone 0 [])
  /\ ((0 < max_attempts)%Z ->
      Retry.res (Retry.wrapper exceptions func max_attempts backoff delay)
      <> Retry.ReturnedNone).
Proof.
  split.
  - intros Hle. unfold Retry.wrapper, Retry.range.
    replace (Z.to_nat max_attempts) with 0 by lia. reflexivity.
  - intros Hgt. unfold Retry.wrapper, Retry.range.
    replace (Z.to_nat max_attempts) with (S (Z.to_nat max_attempts - 1)) by lia.
    apply (loop_never_none exceptions func max_attempts backoff). lia.
Qed.

Lemma retry_returns_none_iff_witness :
  Retry.wrapper catch_all fails_twice 0 (2 # 1) 1
  = Retry.Run Retry.ReturnedNone 0 []
  /\ Retry.res (Retry.wrapper catch_all fails_forever 3 (2 # 1) 1)
     <> Retry.ReturnedNone.
Proof.
  split.
  - apply (proj1 (retry_returns_none_iff catch_all fails_twice 0 (2 # 1) 1)).
    lia.
  - apply (proj2 (retry_returns_none_iff catch_all fails_forever 3 (2 # 1) 1)).
    lia.
Defined.

(** X3. An exception outside [exceptions] is never retried: after [k]
    caught failures ([k < max_attempts]) an uncaught exception surfaces at
    once, after [k + 1] invocations and the [k] waits before it. *)
Theorem retry_uncaught_propagates {A E : Type} (exceptions : E -> bool)
    (func : nat -> Retry.outcome A E) (max_attempts : Z) (backoff delay : Q)
    (k : nat) (e : E) :
  (Z.of_nat k < max_attempts)%Z ->
  Retry.fails_between exceptions func 0 k ->
  func k = Retry.Raises e ->
  exceptions e = false ->
  Retry.wrapper exceptions func max_attempts backoff delay
  = Retry.Run (Retry.Raised e) (S k) (Retry.waits backoff delay k).
Proof. apply wrapper_uncaught. Qed.

Lemma retry_uncaught_propagates_witness :
  Retry.wrapper catch_flagged fails_then_fatal 5 (2 # 1) 1
  = Retry.Run (Retry.Raised false) 2 [1%Q].
Proof.
  apply (retry_uncaught_propagates catch_flagged fails_then_fatal 5 (2 # 1) 1
           1 false).
  - lia.
  - intros i Hi. exists true. destruct i as [|i]; [split; reflexivity | lia].
  - reflexivity.
  - reflexivity.
Defined.

(** X4. When every attempt fails with a caught exception, the exception
    that surfaces is the one of the last attempt; the wrapper has slept
    [max_attempts - 1] times, and not after the last failure. *)
Theorem retry_reraises_last {A E : Type} (exceptions : E -> bool)
    (func : nat -> Retry.outcome A E) (max_attempts : Z) (backoff delay : Q)
    (e : E) :
  (1 <= max_attempts)%Z ->
  Retry.always_fails exceptions func ->
  func (Z.to_nat max_attempts - 1) = Retry.Raises e ->
  Retry.wrapper exceptions func max_attempts backoff delay
  = Retry.Run (Retry.Raised e) (Z.to_nat max_attempts)
      (Retry.waits backoff delay (Z.to_nat max_attempts - 1)).
Proof. apply wrapper_exhausts_last. Qed.

Lemma retry_reraises_last_witness :
  Retry.wrapper catch_any fails_numbered 3 (2 # 1) 1
  = Retry.Run (Retry.Raised 2) 3 [1%Q; (2 # 1)%Q].
Proof.
  apply (retry_reraises_last catch_any fails_numbered 3 (2 # 1) 1 2).
  - lia.
  - intros i. exists i. split; reflexivity.
  - reflexivity.
Defined.

(** X5. With a delay that is not negative and a multiplier of at least
    one, the waits of the wrapper never shrink: every wait is at least
    [delay], and at least the wait before it, whatever the wrapped
    function does. *)
Theorem retry_waits_never_shrink {A E : Type} (exceptions : E -> bool)
    (func : nat -> Retry.outcome A E) (max_attempts : Z) (backoff delay : Q) :
  (0 <= delay)%Q ->
  (1 <= backoff)%Q ->
  Forall (fun x => (delay <= x)%Q)
    (Retry.sleeps (Retry.wrapper exceptions func max_attempts backoff delay))
  /\ forall i x y,
       Retry.sleeps (Retry.wrapper exceptions func max_attempts backoff delay)
         !! i = Some x ->
       Retry.sleeps (Retry.wrapper exceptions func max_attempts backoff delay)
         !! S i = Some y ->
       (x <= y)%Q.
Proof.
  intros Hd Hb.
  destruct (wrapper_waits exceptions func max_attempts backoff delay)
    as (j & Hs & _).
  rewrite Hs. apply waits_grow; assumption.
Qed.

Lemma retry_waits_never_shrink_witness :
  Forall (fun x => (1 <= x)%Q)
    (Retry.sleeps (Retry.wrapper catch_all fails_forever 3 (2 # 1) 1))
  /\ forall i x y,
       Retry.sleeps (Retry.wrapper catch_all fails_forever 3 (2 # 1) 1)
         !! i = Some x ->
       Retry.sleeps (Retry.wrapper catch_all fails_forever 3 (2 # 1) 1)
         !! S i = Some y ->
       (x <= y)%Q.
Proof.
  apply (retry_waits_never_shrink catch_all fails_forever 3 (2 # 1) 1).
  - vm_compute. discriminate.
  - vm_compute. discriminate.
Defined.

(** ** AsyncRateLimiter *)

(** What the timing gate computes when the calls of [__aenter__] do not
    overlap (no task goes through the gate while another sleeps in it): in
    exact arithmetic any two consecutive admissions are at least
    [1 / max_rate] apart. (The floats of the code round: there the
    distance can fall short of [1 / max_rate] by a rounding error, so this
    is a fact about the computation, not a guarantee of the limiter.) *)
Lemma serial_admissions_spaced (r : Q) (max_concurrent : option Z)
    (l : Limiter.limiter) (t0 : Q) (evs : list Limiter.event)
    (w : Limiter.world) :
  Limiter.__init__ r max_concurrent = Normal l ->
  Limiter.serial (Limiter.fresh l t0) evs = true ->
  Limiter.run (Limiter.fresh l t0) evs = Some w ->
  Limiter.spaced (1 / r) (Limiter.admissions w) = true.
Proof.
  intros Hinit Hser Hrun.
  assert (Hinv : Limiter.serial_inv r w).
  { eapply run_serial; [|exact Hser|exact Hrun].
    assert (Hl : Limiter.max_rate l = r).
    { unfold Limiter.__init__ in Hinit.
      destruct max_concurrent as [c|]; [|injection Hinit as <-; reflexivity].
      destruct (c =? 0)%Z; [injection Hinit as <-; reflexivity|].
      destruct (Limiter.Semaphore c); [|discriminate].
      injection Hinit as <-. reflexivity. }
    repeat split; cbn; [exact Hl | unfold Limiter.count; cbn; lia | | ].
    - intros i u Hi. rewrite lookup_nil in Hi. discriminate.
    - intros a Ha. discriminate. }
  apply Hinv.
Qed.

(** X7. A limiter whose [max_rate] is zero never admits anything: in every
    state the event loop reaches, the admission log is empty, no task is
    inside the scope, and every task that entered either raised
    ZeroDivisionError in [__aenter__] or still waits for a slot. *)
Theorem zero_rate_admits_nothing (r : Q) (max_concurrent : option Z)
    (l : Limiter.limiter) (t0 : Q) (evs : list Limiter.event)
    (w : Limiter.world) :
  (r == 0)%Q ->
  Limiter.__init__ r max_concurrent = Normal l ->
  Limiter.run (Limiter.fresh l t0) evs = Some w ->
  Limiter.admissions w = []
  /\ Limiter.in_flight w = 0
  /\ Forall (fun p => p = Limiter.WaitingSem
                      \/ p = Limiter.Crashed ZeroDivisionError)
       (Limiter.tasks w).
Proof.
  intros Hr Hinit Hrun.
  assert (Hinv : Limiter.zero_rate_inv w).
  { eapply run_zero; [|exact Hrun].
    destruct (init_rate r max_concurrent l Hinit) as [Hrate _].
    repeat split; cbn; [|constructor].
    rewrite Hrate. apply Qeq_bool_iff. exact Hr. }
  destruct Hinv as (_ & Hlog & Htasks). repeat split; [assumption | | assumption].
  apply count_none. eapply Forall_impl; [exact Htasks|].
  intros p [-> | ->]; reflexivity.
Qed.

Lemma zero_rate_admits_nothing_witness :
  Limiter.admissions zero_rate_world = []
  /\ Limiter.in_flight zero_rate_world = 0
  /\ Forall (fun p => p = Limiter.WaitingSem
                      \/ p = Limiter.Crashed ZeroDivisionError)
       (Limiter.tasks zero_rate_world).
Proof.
  apply (zero_rate_admits_nothing 0 (Some 1%Z) zero_rate 0
           zero_rate_schedule zero_rate_world); reflexivity.
Defined.

(** X8. [max_concurrent = 0] is no cap at all: the constructor builds no
    semaphore, and for every [n] the schedule in which [n] tasks enter
    [1 / max_rate] apart leaves all [n] of them inside the scope at once. *)
Theorem zero_cap_is_no_cap (r t0 : Q) (n : nat) :
  (0 < r)%Q ->
  (0 <= t0)%Q ->
  Limiter.__init__ r (Some 0%Z) = Normal (Limiter.Limiter r (Some 0%Z) None 0)
  /\ exists w,
       Limiter.run (Limiter.fresh (Limiter.Limiter r (Some 0%Z) None 0) t0)
         (Limiter.burst r n) = Some w
       /\ Limiter.in_flight w = n.
Proof.
  intros Hr Ht0. split; [reflexivity|].
  destruct (run_burst r n
              (Limiter.fresh (Limiter.Limiter r (Some 0%Z) None 0) t0) Hr)
    as (w & Hrun & Hfl & _); [reflexivity | reflexivity | exact Ht0 |].
  exists w. split; [exact Hrun | exact Hfl].
Qed.

Lemma zero_cap_is_no_cap_witness :
  Limiter.__init__ (10 # 1) (Some 0%Z)
  = Normal (Limiter.Limiter (10 # 1) (Some 0%Z) None 0)
  /\ exists w,
       Limiter.run
         (Limiter.fresh (Limiter.Limiter (10 # 1) (Some 0%Z) None 0) 0)
         (Limiter.burst (10 # 1) 3) = Some w
       /\ Limiter.in_flight w = 3.
Proof.
  apply (zero_cap_is_no_cap (10 # 1) 0 3); [reflexivity | discriminate].
Defined.

(** X9. With a cap [c >= 1], once [c] tasks are inside the scope a new
    entrant is parked on the semaphore, with no admission and no change to
    the limiter, and no waiting task can be granted a slot before one of
    them leaves. *)
Theorem full_limiter_blocks (r : Q) (c : Z) (l : Limiter.limiter)
    (t0 : Q) (evs : list Limiter.event) (w : Limiter.world) :
  (0 < c)%Z ->
  Limiter.__init__ r (Some c) = Normal l ->
  Limiter.run (Limiter.fresh l t0) evs = Some w ->
  Z.of_nat (Limiter.in_flight w) = c ->
  Limiter.step w Limiter.Enter
  = Some (Limiter.World (Limiter.lim w) (Limiter.now w)
            (Limiter.tasks w ++ [Limiter.WaitingSem]) (Limiter.admissions w))
  /\ forall i, Limiter.step w (Limiter.Grant i) = None.
Proof.
  intros Hc Hinit Hrun Hfull.
  assert (Hinv : Limiter.slots_add_up (Z.to_nat c) w).
  { eapply run_slots; [|exact Hrun].
    unfold Limiter.__init__, Limiter.Semaphore in Hinit.
    destruct (Z.eqb_spec c 0) as [|_]; [lia|].
    destruct (Z.ltb_spec c 0) as [|_]; [lia|].
    injection Hinit as <-. exists (Z.to_nat c). cbn.
    split; [reflexivity | unfold Limiter.count; cbn; lia]. }
  destruct Hinv as (v & Hv & Hsum).
  pose proof (in_flight_le_held w) as Hle.
  assert (v = 0) as -> by lia.
  split.
  - cbn. rewrite Hv. reflexivity.
  - intros i. cbn. rewrite Hv.
    destruct (Limiter.tasks w !! i) as [[| | | |]|]; reflexivity.
Qed.

Lemma full_limiter_blocks_witness :
  Limiter.step two_slots_world Limiter.Enter
  = Some (Limiter.World (Limiter.lim two_slots_world)
            (Limiter.now two_slots_world)
            (Limiter.tasks two_slots_world ++ [Limiter.WaitingSem])
            (Limiter.admissions two_slots_world))
  /\ forall i, Limiter.step two_slots_world (Limiter.Grant i) = None.
Proof.
  apply (full_limiter_blocks (10 # 1) 2 two_slots 0 two_slots_schedule
           two_slots_world); [lia | reflexivity | reflexivity | reflexivity].
Defined.

(** X10. When the loop clock starts at or after 0, in every state the
    event loop reaches the admission stamps are in time order, none lies in
    the future, and [_last_call] is the latest of them (0 before the first
    admission). *)
Theorem admission_log_in_time_order (r : Q) (max_concurrent : option Z)
    (l : Limiter.limiter) (t0 : Q) (evs : list Limiter.event)
    (w : Limiter.world) :
  (0 <= t0)%Q ->
  Limiter.__init__ r max_concurrent = Normal l ->
  Limiter.run (Limiter.fresh l t0) evs = Some w ->
  Limiter.spaced 0 (Limiter.admissions w) = true
  /\ Forall (fun a => (a <= Limiter.now w)%Q) (Limiter.admissions w)
  /\ Limiter._last_call (Limiter.lim w)
     = default 0%Q (last (Limiter.admissions w)).
Proof.
  intros Ht0 Hinit Hrun.
  assert (Hinv : Limiter.clock_inv r w).
  { eapply run_clock; [|exact Hrun]. eapply fresh_clock; eassumption. }
  destruct Hinv as (_ & _ & Hsorted & Hpast & Hlast & _). auto.
Qed.

Lemma admission_log_in_time_order_witness :
  Limiter.spaced 0 (Limiter.admissions race_world) = true
  /\ Forall (fun a => (a <= Limiter.now race_world)%Q)
       (Limiter.admissions race_world)
  /\ Limiter._last_call (Limiter.lim race_world)
     = default 0%Q (last (Limiter.admissions race_world)).
Proof.
  apply (admission_log_in_time_order (10 # 1) None ten_per_second 0
           race_schedule race_world); [discriminate | reflexivity | reflexivity].
Defined.

(** X11. With a negative [max_rate] and no cap the limiter limits nothing:
    when the clock starts at or after 0, no task ever sleeps or waits, and
    every task that calls [__aenter__] is admitted in the same instant. *)
Theorem negative_rate_never_delays (r t0 : Q) (evs : list Limiter.event)
    (w : Limiter.world) :
  (r < 0)%Q ->
  (0 <= t0)%Q ->
  Limiter.run (Limiter.fresh (Limiter.Limiter r None None 0) t0) evs = Some w ->
  Forall (fun p => Limiter.is_inside p = true \/ p = Limiter.Released)
    (Limiter.tasks w)
  /\ exists w',
       Limiter.step w Limiter.Enter = Some w'
       /\ Limiter.tasks w' = Limiter.tasks w ++ [Limiter.Inside (Limiter.now w)]
       /\ Limiter.admissions w' = Limiter.admissions w ++ [Limiter.now w].
Proof.
  intros Hr Ht0 Hrun.
  assert (Hinv : Limiter.never_waits r w).
  { eapply run_never_waits; [exact Hr| |exact Hrun].
    repeat split; cbn; [exact Ht0 | constructor]. }
  destruct Hinv as (Hrate & Hsem & Hclock & Htasks). split; [assumption|].
  cbn. rewrite Hsem. unfold Limiter.pass_gate.
  rewrite (gate_negative r) by assumption.
  eexists. split; [reflexivity|]. split; reflexivity.
Qed.

Lemma negative_rate_never_delays_witness :
  Forall (fun p => Limiter.is_inside p = true \/ p = Limiter.Released)
    (Limiter.tasks negative_rate_world)
  /\ exists w',
       Limiter.step negative_rate_world Limiter.Enter = Some w'
       /\ Limiter.tasks w'
          = Limiter.tasks negative_rate_world
            ++ [Limiter.Inside (Limiter.now negative_rate_world)]
       /\ Limiter.admissions w'
          = Limiter.admissions negative_rate_world
            ++ [Limiter.now negative_rate_world].
Proof.
  apply (negative_rate_never_delays (-5 # 1) 0 negative_rate_schedule
           negative_rate_world); [reflexivity | discriminate | reflexivity].
Defined.

(** X12. When the loop clock starts at or after 0, no task is ever made
    to sleep in [__aenter__] beyond [1 / max_rate] from the current time. *)
Theorem sleep_is_bounded (r : Q) (max_concurrent : option Z)
    (l : Limiter.limiter) (t0 : Q) (evs : list Limiter.event)
    (w : Limiter.world) (i : nat) (until : Q) :
  (0 <= t0)%Q ->
  Limiter.__init__ r max_concurrent = Normal l ->
  Limiter.run (Limiter.fresh l t0) evs = Some w ->
  Limiter.tasks w !! i = Some (Limiter.Sleeping until) ->
  (until <= Limiter.now w + 1 / r)%Q.
Proof.
  intros Ht0 Hinit Hrun Hi.
  assert (Hinv : Limiter.clock_inv r w).
  { eapply run_clock; [|exact Hrun]. eapply fresh_clock; eassumption. }
  destruct Hinv as (_ & Hclock & _ & _ & _ & Hdue).
  specialize (Hdue i until Hi). revert Hdue. generalize (1 / r)%Q.
  intros m Hdue. lra.
Qed.

Lemma sleep_is_bounded_witness :
  ((100 # 1) + (1 / (10 # 1) - ((100 # 1) - (100 # 1)))
   <= Limiter.now sleeper_world + 1 / (10 # 1))%Q.
Proof.
  apply (sleep_is_bounded (10 # 1) None ten_per_second 0 sleeper_schedule
           sleeper_world 1); [discriminate | reflexivity | reflexivity |].
  reflexivity.
Defined.

(** ** BaseCrawler.validate_url *)

(** X13. Every target made of code points below 256 that [validate_url]
    accepts starts with [http://] or [https://], in any letter case.
    (Strings are sequences of such code points here; beyond them the
    pattern, compiled with IGNORECASE, also takes U+017F for the [s] of
    [https].) *)
Theorem validated_url_has_scheme (url : string) :
  Url.validate_url url = true -> Url.has_scheme url = true.
Proof.
  unfold Url.validate_url. intros H. apply orb_true_iff in H as [H|H].
  - apply matches_has_scheme. exact H.
  - destruct (Url.chop_newline url) as [b|] eqn:Hb; [|discriminate].
    apply chop_newline_app in Hb as ->. apply matches_has_scheme in H.
    unfold Url.has_scheme in *. apply orb_true_iff in H as [H|H];
      apply orb_true_iff; [left|right]; apply starts_with_longer; exact H.
Qed.

Lemma validated_url_has_scheme_witness :
  Url.has_scheme "HTTPS://Example.com/jobs" = true.
Proof.
  apply (validated_url_has_scheme "HTTPS://Example.com/jobs").
  vm_compute. reflexivity.
Defined.

(** X14. A target that [validate_url] accepts holds no whitespace
    character, except that it may end with one newline (which [$] lets
    through). *)
Theorem validated_url_has_no_whitespace (url : string) :
  Url.validate_url url = true ->
  Url.no_space url = true
  \/ exists body,
       url = String.append body Url.newline /\ Url.no_space body = true.
Proof.
  unfold Url.validate_url. intros H. apply orb_true_iff in H as [H|H].
  - left. exact (matches_all Url.non_space url Url.url_pattern
                   url_pattern_no_space H).
  - destruct (Url.chop_newline url) as [b|] eqn:Hb; [|discriminate].
    right. exists b. split; [apply chop_newline_app; exact Hb|].
    exact (matches_all Url.non_space b Url.url_pattern url_pattern_no_space H).
Qed.

Lemma validated_url_has_no_whitespace_witness :
  Url.no_space "https://a.test/x" = true
  \/ exists body,
       "https://a.test/x" = String.append body Url.newline
       /\ Url.no_space body = true.
Proof.
  apply (validated_url_has_no_whitespace "https://a.test/x").
  vm_compute. reflexivity.
Defined.

(** X15. [validate_url] lets one trailing newline through: a target that
    is accepted and does not already end with a newline is still accepted
    with a newline appended. *)
Theorem validate_url_accepts_trailing_newline (url : string) :
  Url.validate_url url = true ->
  Url.chop_newline url = None ->
  Url.validate_url (String.append url Url.newline) = true.
Proof.
  unfold Url.validate_url at 1. intros H Hchop. rewrite Hchop in H.
  rewrite orb_false_r in H.
  unfold Url.validate_url. rewrite chop_newline_snoc, H.
  apply orb_true_r.
Qed.

Lemma validate_url_accepts_trailing_newline_witness :
  Url.validate_url (String.append "https://a.test/x" Url.newline) = true.
Proof.
  apply (validate_url_accepts_trailing_newline "https://a.test/x");
    vm_compute; reflexivity.
Defined.

(** X16. [validate_url] does not depend on letter case: two targets that
    differ only by the case of ASCII letters get the same verdict. *)
Theorem validate_url_ignores_case (url1 url2 : string) :
  Url.same_text url1 url2 = true ->
  Url.validate_url url1 = Url.validate_url url2.
Proof.
  intros H. unfold Url.validate_url.
  rewrite (matches_same url1 url2 Url.url_pattern url_pattern_ignores_case H).
  f_equal. pose proof (chop_same url1 url2 H) as Hchop.
  destruct (Url.chop_newline url1) as [b1|], (Url.chop_newline url2) as [b2|];
    try contradiction; [|reflexivity].
  apply matches_same; [exact url_pattern_ignores_case | exact Hchop].
Qed.

Lemma validate_url_ignores_case_witness :
  Url.validate_url "https://a.test/x" = Url.validate_url "HTTPS://A.Test/X".
Proof.
  apply (validate_url_ignores_case "https://a.test/x" "HTTPS://A.Test/X").
  vm_compute. reflexivity.
Defined.

(** ** The retry loops of the crawlers *)



(** ** What the crawls return *)

(** X19. Every list [AsyncCrawler.crawl] returns holds, in input order,
    outcomes of some of the targets, at most one per entry of the target
    list; each is [{'url': target, 'content': body}] with a non-empty body. *)
Theorem async_crawl_output (backend : string -> nat -> Crawl.reply)
    (self : Crawl.object) (t : list Crawl.io) (out : list Crawl.dict) :
  Crawl.async_crawl backend self = (t, Normal out) ->
  exists urls,
    (Crawl.get_urls self).2 = Normal urls
    /\ sublist (Crawl.targets_of out) urls
    /\ length (Crawl.targets_of out) = length out
    /\ Forall (fun d => exists u, u ∈ urls
                 /\ exists text, text <> EmptyString /\ d = Crawl.page u text)
         out.
Proof.
  unfold Crawl.async_crawl. intros H.
  inv_bind H. inv_bind H. injection H as <- <-.
  exists a. split; [rewrite Hm; reflexivity|].
  apply (kept_outcomes
           (fun u d => exists text, text <> EmptyString /\ d = Crawl.page u text)).
  - intros u d (text & _ & ->). apply lookup_insert_eq.
  - apply gather_normal in Hm0. apply Forall2_fmap_l in Hm0.
    eapply Forall2_impl; [exact Hm0|]. intros u r Hr.
    eapply (fetch_with_metadata_normal backend self u
              (Crawl.fetch_with_metadata backend self u).1).
    rewrite <- Hr. destruct (Crawl.fetch_with_metadata backend self u).
    reflexivity.
Qed.

Lemma async_crawl_output_witness :
  exists urls,
    (Crawl.get_urls (configured (async_crawler three_targets))).2 = Normal urls
    /\ sublist
         (Crawl.targets_of
            (default [] (returned (Crawl.async_crawl ok_backend
                                     (configured (async_crawler three_targets))))))
         urls
    /\ length
         (Crawl.targets_of
            (default [] (returned (Crawl.async_crawl ok_backend
                                     (configured (async_crawler three_targets))))))
       = length
           (default [] (returned (Crawl.async_crawl ok_backend
                                    (configured (async_crawler three_targets)))))
    /\ Forall (fun d => exists u, u ∈ urls
                 /\ exists text, text <> EmptyString /\ d = Crawl.page u text)
         (default [] (returned (Crawl.async_crawl ok_backend
                                  (configured (async_crawler three_targets))))).
Proof.
  apply (async_crawl_output ok_backend
           (configured (async_crawler three_targets))
           (trace_of (Crawl.async_crawl ok_backend
                        (configured (async_crawler three_targets))))).
  vm_compute. reflexivity.
Defined.

(** X20. Every list [ThreadedCrawler.crawl] returns holds, in input order,
    outcomes of some of the targets, at most one per entry of the target
    list; each is [{'url': target, 'content': body}]. *)
Theorem threaded_crawl_output (backend : string -> nat -> Crawl.reply)
    (self : Crawl.object) (t : list Crawl.io) (out : list Crawl.dict) :
  Crawl.threaded_crawl backend self = (t, Normal out) ->
  exists urls,
    (Crawl.get_urls self).2 = Normal urls
    /\ sublist (Crawl.targets_of out) urls
    /\ length (Crawl.targets_of out) = length out
    /\ Forall (fun d => exists u, u ∈ urls
                 /\ exists text, d = Crawl.page u text)
         out.
Proof.
  unfold Crawl.threaded_crawl. intros H.
  inv_bind H. inv_bind H. injection H as <- <-.
  exists a. split; [rewrite Hm; reflexivity|].
  apply (kept_outcomes (fun u d => exists text, d = Crawl.page u text)).
  - intros u d (text & ->). apply lookup_insert_eq.
  - apply gather_normal in Hm0. apply Forall2_fmap_l in Hm0.
    eapply Forall2_impl; [exact Hm0|]. intros u r Hr.
    eapply (thread_fetch_normal backend self u
              (Crawl._fetch_url_thread backend self u).1).
    rewrite <- Hr. destruct (Crawl._fetch_url_thread backend self u).
    reflexivity.
Qed.

Lemma threaded_crawl_output_witness :
  exists urls,
    (Crawl.get_urls (configured (threaded_crawler three_targets))).2
    = Normal urls
    /\ sublist
         (Crawl.targets_of
            (default [] (returned (Crawl.threaded_crawl empty_backend
                                     (configured (threaded_crawler three_targets))))))
         urls
    /\ length
         (Crawl.targets_of
            (default [] (returned (Crawl.threaded_crawl empty_backend
                                     (configured (threaded_crawler three_targets))))))
       = length
           (default [] (returned (Crawl.threaded_crawl empty_backend
                                    (configured (threaded_crawler three_targets)))))
    /\ Forall (fun d => exists u, u ∈ urls
                 /\ exists text, d = Crawl.page u text)
         (default [] (returned (Crawl.threaded_crawl empty_backend
                                  (configured (threaded_crawler three_targets))))).
Proof.
  apply (threaded_crawl_output empty_backend
           (configured (threaded_crawler three_targets))
           (trace_of (Crawl.threaded_crawl empty_backend
                        (configured (threaded_crawler three_targets))))).
  vm_compute. reflexivity.
Defined.

(** ** SequentialCrawler, event by event *)

(** X21. When [SequentialCrawler.crawl] returns, its sleeps and requests
    were, in this order: for each well-formed target, in input order, one
    sleep of one second and then, right after it, the one request for that
    target, with [max_workers] as its timeout; nothing else was slept or
    requested, so that malformed targets cost neither. *)
Theorem sequential_crawl_requests (backend : string -> nat -> Crawl.reply)
    (job_postings : string -> list (option string))
    (urls : list string) (max_workers : Z)
    (t : list Crawl.io) (out : list Crawl.dict) :
  Crawl.seq_crawl backend job_postings
    (Crawl.BaseCrawler_init Crawl.SequentialCrawler urls max_workers)
  = (t, Normal out) ->
  Crawl.pacing t
  = flat_map (fun url => [Crawl.Sleep 1;
                          Crawl.Request url (Crawl.PInt max_workers)])
      (List.filter Url.validate_url urls).
Proof.
  unfold Crawl.seq_crawl. rewrite base_get_urls.
  change (@pair (list Crawl.io) (completion (list string)) [] (Normal urls))
    with (Crawl.ret urls).
  rewrite bind_ret. apply for_each_pacing.
Qed.

Lemma sequential_crawl_requests_witness :
  Crawl.pacing
    (trace_of (Crawl.seq_crawl ok_backend no_jobs
                 (sequential_crawler three_targets)))
  = flat_map (fun url => [Crawl.Sleep 1; Crawl.Request url (Crawl.PInt 5)])
      (List.filter Url.validate_url three_targets).
Proof.
  apply (sequential_crawl_requests ok_backend no_jobs three_targets 5
           (trace_of (Crawl.seq_crawl ok_backend no_jobs
                        (sequential_crawler three_targets)))
           (default [] (returned (Crawl.seq_crawl ok_backend no_jobs
                                    (sequential_crawler three_targets))))).
  vm_compute. reflexivity.
Defined.

(** X22. In every outcome [SequentialCrawler.fetch_url] returns, on any
    crawler object and network, a [job_count] comes with the [titles] and
    the [status_code], and is the number of titles. *)
Theorem job_count_is_number_of_titles
    (backend : string -> nat -> Crawl.reply)
    (job_postings : string -> list (option string))
    (self : Crawl.object) (url : string)
    (t : list Crawl.io) (d : Crawl.dict) (n : Crawl.pyval) :
  Crawl.seq_fetch_url backend job_postings self url = (t, Normal d) ->
  d !! "job_count" = Some n ->
  exists titles s,
    d !! "titles" = Some (Crawl.PList titles)
    /\ d !! "status_code" = Some (Crawl.PInt s)
    /\ n = Crawl.PInt (Z.of_nat (length titles)).
Proof.
  unfold Crawl.seq_fetch_url, Crawl.seq_on_error.
  destruct (Url.validate_url url); cbn [negb]; intros H Hn.
  - inv_bind H. inv_bind H. inv_bind H. inv_bind H.
    destruct (backend url 0) as [s text|msg].
    + destruct (Crawl.requests_bad_status s).
      * inv_bind H. inv_bind H. injection H as <- <-. discriminate.
      * inv_bind H. injection H as <- <-.
        assert (Ha : Crawl.titles_of (job_postings text) = Normal a3).
        { unfold Crawl.lift in Hm3. congruence. }
        apply titles_of_length in Ha.
        exists a3, s. repeat split; try reflexivity.
        vm_compute in Hn. injection Hn as <-. rewrite Ha. reflexivity.
    + inv_bind H. inv_bind H. injection H as <- <-. discriminate.
  - inv_bind H. inv_bind H. injection H as <- <-. discriminate.
Qed.

Lemma job_count_is_number_of_titles_witness :
  exists titles s,
    default ∅ (returned (Crawl.seq_fetch_url ok_backend two_jobs
                           (sequential_crawler ["https://a.test/x"])
                           "https://a.test/x"))
      !! "titles" = Some (Crawl.PList titles)
    /\ default ∅ (returned (Crawl.seq_fetch_url ok_backend two_jobs
                              (sequential_crawler ["https://a.test/x"])
                              "https://a.test/x"))
         !! "status_code" = Some (Crawl.PInt s)
    /\ Crawl.PInt 2 = Crawl.PInt (Z.of_nat (length titles)).
Proof.
  apply (job_count_is_number_of_titles ok_backend two_jobs
           (sequential_crawler ["https://a.test/x"]) "https://a.test/x"
           (trace_of (Crawl.seq_fetch_url ok_backend two_jobs
                        (sequential_crawler ["https://a.test/x"])
                        "https://a.test/x"))).
  - vm_compute. reflexivity.
  - vm_compute. reflexivity.
Defined.

(** X23. One page is enough to lose the whole sequential crawl: on a
    crawler whose [max_workers] is a usable timeout, when some well-formed
    target is answered with a status that is not an error and a page where
    a job-posting block has no [h2], [SequentialCrawler.crawl] raises
    AttributeError and returns nothing, whatever the other targets. *)
Theorem sequential_crawl_aborts_on_bad_page
    (backend : string -> nat -> Crawl.reply)
    (job_postings : string -> list (option string))
    (urls : list string) (max_workers : Z)
    (url : string) (s : Z) (text : string) :
  Crawl.usable_timeout max_workers ->
  url ∈ urls ->
  Url.validate_url url = true ->
  backend url 0 = Crawl.Response s text ->
  Crawl.requests_bad_status s = false ->
  None ∈ job_postings text ->
  (Crawl.seq_crawl backend job_postings
     (Crawl.BaseCrawler_init Crawl.SequentialCrawler urls max_workers)).2
  = Throw (AttributeError "text").
Proof.
  intros [Hmw _] Hin Hvalid Hreply Hok Hmissing.
  unfold Crawl.seq_crawl. rewrite base_get_urls.
  change (@pair (list Crawl.io) (completion (list string)) [] (Normal urls))
    with (Crawl.ret urls).
  rewrite bind_ret.
  apply (for_each_raises _ _ urls url).
  - intros x e'. apply seq_fetch_raises. exact Hmw.
  - exact Hin.
  - rewrite seq_fetch_constructed, Hvalid, Hreply, Hok.
    apply Z.ltb_lt in Hmw. rewrite Hmw.
    rewrite (titles_of_missing _ Hmissing). reflexivity.
Qed.

Lemma sequential_crawl_aborts_on_bad_page_witness :
  (Crawl.seq_crawl ok_backend headless_jobs
     (Crawl.BaseCrawler_init Crawl.SequentialCrawler three_targets 5)).2
  = Throw (AttributeError "text").
Proof.
  apply (sequential_crawl_aborts_on_bad_page ok_backend headless_jobs
           three_targets 5 "https://a.test/y" 200 "ok").
  - unfold Crawl.usable_timeout. lia.
  - right. right. left.
  - vm_compute. reflexivity.
  - reflexivity.
  - reflexivity.
  - right. left.
Defined.

(** ** The crawlers as the application builds them *)

(** X24. [AsyncCrawler.crawl] and [ThreadedCrawler.crawl] on a crawler
    fresh from its constructor return the empty list, having done nothing,
    when there is no target, and raise AttributeError (for [max_retries])
    when there is at least one, whatever the targets and the network. *)
Theorem unconfigured_crawls (backend : string -> nat -> Crawl.reply)
    (urls : list string) (max_workers : Z) :
  match urls with
  | [] =>
      Crawl.async_crawl backend (async_self [] max_workers) = ([], Normal [])
      /\ Crawl.threaded_crawl backend
           (Crawl.BaseCrawler_init Crawl.ThreadedCrawler [] max_workers)
         = ([], Normal [])
  | _ :: _ =>
      (Crawl.async_crawl backend (async_self urls max_workers)).2
      = Throw (AttributeError "max_retries")
      /\ (Crawl.threaded_crawl backend
            (Crawl.BaseCrawler_init Crawl.ThreadedCrawler urls max_workers)).2
         = Throw (AttributeError "max_retries")
  end.
Proof.
  destruct urls as [|url rest].
  - split.
    + unfold Crawl.async_crawl. rewrite async_get_urls, bind_ret. reflexivity.
    + unfold Crawl.threaded_crawl. rewrite base_get_urls. reflexivity.
  - split.
    + apply async_crawl_unconfigured. discriminate.
    + apply threaded_crawl_unconfigured. discriminate.
Qed.

(** X25. [WebCrawlerApp.run] never gets crawled data to work on. In
    sequential mode, for every target list, [await crawler.crawl()]
    raises: TypeError once the plain function [crawl] has returned its
    list, or the AttributeError of a page without [h2]. In every other
    mode (unknown modes fall back to AsyncCrawler) and for every non-empty
    target list it raises the AttributeError of the missing [max_retries]. *)
Theorem app_crawl_stage_raises (backend : string -> nat -> Crawl.reply)
    (job_postings : string -> list (option string)) :
  (forall urls,
      (App.crawl_stage backend job_postings "sequential" urls).2
      = Throw TypeError
      \/ (App.crawl_stage backend job_postings "sequential" urls).2
         = Throw (AttributeError "text"))
  /\ (forall mode url rest,
        mode <> "sequential" ->
        App.crawler_class mode <> Crawl.SequentialCrawler
        /\ (App.crawl_stage backend job_postings mode (url :: rest)).2
           = Throw (AttributeError "max_retries")).
Proof.
  split.
  - intros urls. unfold App.crawl_stage.
    change (App.crawler_class "sequential") with Crawl.SequentialCrawler.
    apply await_sequential.
  - intros mode url rest Hmode.
    assert (Hc : App.crawler_class mode <> Crawl.SequentialCrawler).
    { rewrite crawler_class_cases.
      destruct (String.eqb_spec mode "sequential"); [contradiction|].
      destruct (String.eqb mode "threaded"); discriminate. }
    split; [exact Hc|].
    unfold App.crawl_stage. apply await_unconfigured. exact Hc.
Qed.

Lemma app_crawl_stage_raises_witness :
  App.crawler_class "turbo" <> Crawl.SequentialCrawler
  /\ (App.crawl_stage ok_backend no_jobs "turbo" ["https://a.test/x"]).2
     = Throw (AttributeError "max_retries").
Proof.
  apply (proj2 (app_crawl_stage_raises ok_backend no_jobs)
           "turbo" "https://a.test/x" []).
  discriminate.
Defined.

(** * Part IV: the aggregator (src/data_processing/aggregator.py) *)

(** X26. Whenever [aggregate] returns, the entry under 'cross_source' is
    the cross-source summary (also when a data type is itself called
    'cross_source'): its total is the number of parsed entries, its
    distribution counts for every type the entries of that type (a
    missing type counting as 'unknown'), the counts add up to the total,
    and the number of unique sources is at most the total and is zero
    only for the empty input. *)
Theorem aggregate_cross_source (parsed_data : list Aggregate.entry)
    (r : Aggregate.odict Aggregate.summary) :
  Aggregate.aggregate parsed_data = Normal r ->
  exists dist u,
    Aggregate.getitem (Aggregate.AStr "cross_source") r
    = Some (Aggregate.Cross (length parsed_data) dist u)
    /\ (forall t, Aggregate.count_of t dist
                  = length (Aggregate.of_type t parsed_data))
    /\ sum_list dist.*2 = length parsed_data
    /\ u <= length parsed_data
    /\ (u = 0 <-> parsed_data = []).
Proof.
  intros H. apply aggregate_normal in H as (a & s & Hs & -> & _).
  apply cross_source_spec in Hs
    as (dist & u & -> & _ & Hcount & Hsum & Hle & Hzero).
  exists dist, u. split; [apply getitem_setitem|]. auto.
Qed.

Lemma aggregate_cross_source_witness :
  exists dist u,
    Aggregate.getitem (Aggregate.AStr "cross_source") (aggregated mixed_data)
    = Some (Aggregate.Cross (length mixed_data) dist u)
    /\ (forall t, Aggregate.count_of t dist
                  = length (Aggregate.of_type t mixed_data))
    /\ sum_list dist.*2 = length mixed_data
    /\ u <= length mixed_data
    /\ (u = 0 <-> mixed_data = []).
Proof.
  apply (aggregate_cross_source mixed_data (aggregated mixed_data)).
  vm_compute. reflexivity.
Defined.

(** X27. Whenever [aggregate] returns, its result has an entry for a data
    type other than 'cross_source' exactly when some parsed entry has that
    type, and that entry is the type's aggregation of exactly the entries
    of that type, in input order; the number of sources it reports is
    their number. *)
Theorem aggregate_summarises_each_type (parsed_data : list Aggregate.entry)
    (r : Aggregate.odict Aggregate.summary) (t : Aggregate.atom) :
  Aggregate.aggregate parsed_data = Normal r ->
  t <> Aggregate.AStr "cross_source" ->
  match Aggregate.getitem t r with
  | Some s =>
      Aggregate.of_type t parsed_data <> []
      /\ Aggregate._aggregate_by_type t (Aggregate.of_type t parsed_data)
         = Normal s
      /\ Aggregate.sources_of s = length (Aggregate.of_type t parsed_data)
  | None => Aggregate.of_type t parsed_data = []
  end.
Proof.
  intros H Ht. apply aggregate_normal in H as (a & s & _ & -> & Ha).
  rewrite getitem_setitem_ne by congruence.
  specialize (Ha t). destruct (Aggregate.getitem t a) as [s'|]; [|exact Ha].
  destruct Ha as [Hne Hs']. split; [exact Hne|]. split; [exact Hs'|].
  exact (aggregate_by_type_sources _ _ _ Hs').
Qed.

Lemma aggregate_summarises_each_type_witness :
  match Aggregate.getitem (Aggregate.AStr "html") (aggregated mixed_data) with
  | Some s =>
      Aggregate.of_type (Aggregate.AStr "html") mixed_data <> []
      /\ Aggregate._aggregate_by_type (Aggregate.AStr "html")
           (Aggregate.of_type (Aggregate.AStr "html") mixed_data)
         = Normal s
      /\ Aggregate.sources_of s
         = length (Aggregate.of_type (Aggregate.AStr "html") mixed_data)
  | None => Aggregate.of_type (Aggregate.AStr "html") mixed_data = []
  end.
Proof.
  apply (aggregate_summarises_each_type mixed_data (aggregated mixed_data)).
  - vm_compute. reflexivity.
  - discriminate.
Defined.

(** X28. On pages whose titles are lists of hashable values (or missing),
    [_aggregate_html] returns; the title frequency has one entry per
    distinct title with the number of its occurrences over all pages,
    [unique_title_count] is the number of those entries, and
    [most_common_title] is [None] exactly when there is no title at all
    and otherwise the first entry of greatest count: every entry before
    it has a smaller count, none after it a greater one. *)
Theorem html_title_statistics (data_list : list Aggregate.entry)
    (tss : list (list Aggregate.atom)) :
  Forall2 Aggregate.titled data_list tss ->
  exists freq best,
    Aggregate._aggregate_html data_list
    = Normal (Aggregate.Html (length data_list) freq best (length freq))
    /\ NoDup freq.*1
    /\ (forall t, Aggregate.count_of t freq
                  = Aggregate.occurrences t (concat tss))
    /\ (forall t, t ∈ freq.*1 <-> t ∈ concat tss)
    /\ match best with
       | None => concat tss = []
       | Some (t, c) =>
           1 <= c
           /\ exists pre post,
                freq = pre ++ (t, c) :: post
                /\ Forall (fun x => x.2 < c) pre
                /\ Forall (fun x => x.2 <= c) post
       end.
Proof.
  intros Htitled. unfold Aggregate._aggregate_html.
  rewrite (titles_traverse _ _ Htitled). cbn [Aggregate.and_then].
  rewrite concat_atoms.
  pose proof (traverse_hash_atoms (concat tss)) as Hhash.
  destruct (count_elements_returns _ _ Hhash []) as (freq & Hfreq).
  unfold Aggregate.Counter. rewrite Hfreq. cbn [Aggregate.and_then].
  unfold Aggregate.set. rewrite Hhash. cbn [Aggregate.and_then].
  destruct (count_elements_spec _ _ _ Hfreq)
    as (ks & Hks & Hcount & Hnd & Hin & _).
  rewrite Hhash in Hks. injection Hks as <-.
  assert (Hnd' : NoDup freq.*1) by (apply Hnd; constructor).
  assert (Hin' : forall t, t ∈ freq.*1 <-> t ∈ concat tss).
  { intros t. rewrite Hin. cbn. rewrite elem_of_nil. tauto. }
  rewrite (size_keys freq (concat tss) Hnd' Hin').
  eexists freq, _. split; [reflexivity|].
  split; [exact Hnd'|]. split; [intros t; rewrite Hcount; reflexivity|].
  split; [exact Hin'|].
  destruct freq as [|x rest].
  - cbn. destruct (concat tss) as [|t ts]; [reflexivity|].
    exfalso. specialize (Hin' t). apply (not_elem_of_nil t), Hin'. left.
  - rewrite bool_decide_eq_true_2 by discriminate. cbn [Aggregate.most_common_1 head].
    destruct (py_max_spec rest x) as (pre & post & Heq & Hpre & Hpost).
    destruct (Aggregate.py_max x rest) as [t c] eqn:E. cbn [snd] in *.
    split; [|exists pre, post; auto].
    assert (Ht : (t, c) ∈ x :: rest) by (rewrite Heq; apply elem_of_app; right; left).
    apply (elem_of_getitem _ _ _ Hnd') in Ht.
    specialize (Hcount t). unfold Aggregate.count_of at 1 in Hcount. rewrite Ht in Hcount.
    cbn in Hcount. rewrite Hcount. apply occurrences_pos, Hin'.
    apply getitem_is_Some. eauto.
Qed.

Lemma html_title_statistics_witness :
  exists freq best,
    Aggregate._aggregate_html html_data
    = Normal (Aggregate.Html (length html_data) freq best (length freq))
    /\ NoDup freq.*1
    /\ (forall t, Aggregate.count_of t freq
                  = Aggregate.occurrences t (concat html_titles))
    /\ (forall t, t ∈ freq.*1 <-> t ∈ concat html_titles)
    /\ match best with
       | None => concat html_titles = []
       | Some (t, c) =>
           1 <= c
           /\ exists pre post,
                freq = pre ++ (t, c) :: post
                /\ Forall (fun x => x.2 < c) pre
                /\ Forall (fun x => x.2 <= c) post
       end.
Proof.
  apply (html_title_statistics html_data html_titles).
  repeat constructor.
Defined.

(** X29. [_aggregate_json] returns exactly when the [raw_data] of every
    entry is a dict (or missing); then [data_keys] is the set of the
    top-level keys of those dicts and [total_entries] the number of
    top-level keys over all of them.  Otherwise it raises AttributeError:
    some entry has a [raw_data] that is not a dict, and has no [keys]. *)
Theorem json_summary_counts_keys (data_list : list Aggregate.entry) :
  match Aggregate._aggregate_json data_list with
  | Normal s =>
      exists dicts,
        Forall2 (fun e items =>
                   Aggregate.get e "raw_data" (Aggregate.VDict [])
                   = Aggregate.VDict items)
          data_list dicts
        /\ s = Aggregate.Json (length data_list)
                 (list_to_set (concat dicts).*1) (length (concat dicts))
  | Throw x =>
      x = AttributeError "keys"
      /\ exists e v, e ∈ data_list /\ e !! "raw_data" = Some v
                     /\ forall items, v <> Aggregate.VDict items
  end.
Proof. exact (aggregate_json_spec data_list). Qed.

(** X30. One JSON document that is not an object is enough to lose the
    whole aggregation: if some parsed entry has type 'json' and a
    [raw_data] that is not a dict (a JSON array, number, string or null),
    [aggregate] raises, whatever the other entries. *)
Theorem aggregate_raises_on_json_array (parsed_data : list Aggregate.entry)
    (e : Aggregate.entry) (v : Aggregate.value) :
  e ∈ parsed_data ->
  e !! "type" = Some (Aggregate.Atom (Aggregate.AStr "json")) ->
  e !! "raw_data" = Some v ->
  (forall items, v <> Aggregate.VDict items) ->
  exists x, Aggregate.aggregate parsed_data = Throw x
            /\ Aggregate.aggregator_error x.
Proof.
  intros Hin Htype Hraw Hv.
  destruct (Aggregate.aggregate parsed_data) as [r|x] eqn:E.
  - exfalso. apply aggregate_normal in E as (a & s & _ & _ & Ha).
    specialize (Ha (Aggregate.AStr "json")).
    pose proof (elem_of_of_type _ _ _ Hin Htype) as He.
    destruct (Aggregate.getitem (Aggregate.AStr "json") a) as [s'|].
    + destruct Ha as [_ Hs']. rewrite aggregate_by_type_json in Hs'.
      pose proof (aggregate_json_spec
        (Aggregate.of_type (Aggregate.AStr "json") parsed_data)) as Hj.
      rewrite Hs' in Hj. destruct Hj as (dicts & Hd & _).
      apply list_elem_of_lookup in He as (i & Hi).
      destruct (Forall2_lookup_l _ _ _ _ _ Hd Hi) as (items & _ & Hitems).
      unfold Aggregate.get in Hitems. rewrite Hraw in Hitems.
      exact (Hv items Hitems).
    + rewrite Ha in He. apply elem_of_nil in He. exact He.
  - exists x. split; [reflexivity|]. exact (aggregate_throw _ _ E).
Qed.

Lemma aggregate_raises_on_json_array_witness :
  exists x, Aggregate.aggregate edge_case_data = Throw x
            /\ Aggregate.aggregator_error x.
Proof.
  apply (aggregate_raises_on_json_array edge_case_data json_array
           (Aggregate.VList [])).
  - right. left.
  - reflexivity.
  - reflexivity.
  - discriminate.
Defined.
